(** * Verification of the domain-checker scheduler (useDomainChecker hook)

    Shallow embedding of the TypeScript sources:
    - [types/domainTypes.ts]      : [DomainStatus], [RdapStatus], [DomainRecord]
    - [hooks/useDomainChecker.ts] : the queue-based version (recomputeStats,
      isRdapCandidate, addToQueue, removeFromQueue, adjustStats,
      upsertRecords, popCandidate, processOne, the worker loop,
      startChecker, stopChecker, handleClear)
    - [services/lookupService.ts] : runDnsLookup, runRdapLookup, runRdapOnly,
      withRdapLock
    - [utils/domainUtils.ts]      : normalizeDomain, deriveCore

    The refs of the hook ([recordsRef], [indexRef], [statsRef], the two
    queues, their membership sets, [inFlightRef], [stopRequestedRef]) form
    the state [Refs]; the worker pools are an explicit interleaving
    semantics over it (JavaScript runs each synchronous segment between two
    [await]s atomically). *)

From Stdlib Require Import ZArith Lia Sorted.
From stdpp Require Import base gmap sets list strings.

Local Open Scope Z_scope.

(* ------------------------------------------------------------------ *)
(** ** Data model (types/domainTypes.ts) *)

Inductive DomainStatus := Queued | Checking | Available | Taken | Unknown.
Inductive RdapStatus := RdapAvailable | RdapTaken | RdapUnknown | NotChecked.
Inductive DomainSource := Import.

#[global] Instance DomainStatus_eq_dec : EqDecision DomainStatus.
Proof. solve_decision. Defined.
#[global] Instance RdapStatus_eq_dec : EqDecision RdapStatus.
Proof. solve_decision. Defined.

Record DomainRecord := mkRecord {
  id : string;
  domain : string;
  core : string;
  status : DomainStatus;
  rdapStatus : RdapStatus;
  createdAt : Z;
  checkedAt : option Z;
  source : DomainSource
}.

(** [{ ...r, status: s }] and friends. *)
Definition with_status (r : DomainRecord) (s : DomainStatus) : DomainRecord :=
  mkRecord (id r) (domain r) (core r) s (rdapStatus r) (createdAt r) (checkedAt r) (source r).
Definition with_rdap (r : DomainRecord) (s : RdapStatus) : DomainRecord :=
  mkRecord (id r) (domain r) (core r) (status r) s (createdAt r) (checkedAt r) (source r).
Definition with_checkedAt (r : DomainRecord) (t : Z) : DomainRecord :=
  mkRecord (id r) (domain r) (core r) (status r) (rdapStatus r) (createdAt r) (Some t) (source r).

Definition is_queued (s : DomainStatus) : bool :=
  match s with Queued => true | _ => false end.
Definition is_queued_or_checking (s : DomainStatus) : bool :=
  match s with Queued | Checking => true | _ => false end.

(** [rdapFinalStatuses = new Set(["available", "taken"])] *)
Definition rdapFinal (s : RdapStatus) : bool :=
  match s with RdapAvailable | RdapTaken => true | _ => false end.

(** [isRdapCandidate(record)] *)
Definition isRdapCandidate (r : DomainRecord) : bool :=
  match status r with
  | Available => negb (rdapFinal (rdapStatus r))
  | _ => false
  end.

(* ------------------------------------------------------------------ *)
(** ** Statistics: recomputeStats and adjustStats *)

Record Stats := mkStats {
  total : Z;
  queueCount : Z;
  totalAvailable : Z;
  totalTaken : Z;
  totalChecked : Z;
  takenOverall : Z
}.

Definition zeroStats : Stats := mkStats 0 0 0 0 0 0.

Definition b2z (b : bool) : Z := if b then 1 else 0.

Definition is_taken (r : DomainRecord) : bool :=
  match status r, rdapStatus r with
  | Taken, _ => true
  | _, RdapTaken => true
  | _, _ => false
  end.
Definition is_available (s : DomainStatus) : bool :=
  match s with Available => true | _ => false end.
Definition is_taken_status (s : DomainStatus) : bool :=
  match s with Taken => true | _ => false end.

(** One iteration of the [snapshot.forEach] in recomputeStats (the
    [total] field is set from [snapshot.length] at the end). *)
Definition count_record (st : Stats) (r : DomainRecord) : Stats :=
  mkStats (total st)
    (queueCount st + b2z (is_queued_or_checking (status r)))
    (totalAvailable st + b2z (is_available (status r)))
    (totalTaken st + b2z (is_taken_status (status r)))
    (totalChecked st + b2z (negb (is_queued_or_checking (status r))))
    (takenOverall st + b2z (is_taken r)).

(** [recomputeStats(snapshot)] *)
Definition recomputeStats (snapshot : list DomainRecord) : Stats :=
  let c := fold_left count_record snapshot zeroStats in
  mkStats (Z.of_nat (length snapshot)) (queueCount c) (totalAvailable c)
    (totalTaken c) (totalChecked c) (takenOverall c).

(** [applyDelta(record, delta)] inside adjustStats. *)
Definition applyDelta (r : DomainRecord) (delta : Z) (st : Stats) : Stats :=
  mkStats (total st)
    (if is_queued_or_checking (status r) then queueCount st + delta else queueCount st)
    (if is_available (status r) then totalAvailable st + delta else totalAvailable st)
    (if is_taken_status (status r) then totalTaken st + delta else totalTaken st)
    (if negb (is_queued_or_checking (status r)) then totalChecked st + delta else totalChecked st)
    (if is_taken r then takenOverall st + delta else takenOverall st).

(** [adjustStats(prev, next)] *)
Definition adjustStats (prev : option DomainRecord) (next : DomainRecord) (st : Stats) : Stats :=
  let st1 := match prev with Some p => applyDelta p (-1) st | None => st end in
  applyDelta next 1 st1.

Definition incr_total (st : Stats) : Stats :=
  mkStats (total st + 1) (queueCount st) (totalAvailable st) (totalTaken st)
    (totalChecked st) (takenOverall st).

(* ------------------------------------------------------------------ *)
(** ** The hook's refs *)

Inductive Checker := Dns | Rdap.
#[global] Instance Checker_eq_dec : EqDecision Checker.
Proof. solve_decision. Defined.

(** Per-stage refs: the queue ([dnsQueueRef] / [rdapQueueRef]), its
    membership set ([dnsQueueSetRef] / [rdapQueueSetRef]), the stage's
    entry of [inFlightRef] and of [stopRequestedRef]. *)
Record StageRefs := mkStage {
  queueRef : list string;
  queueSetRef : gset string;
  inFlight : gset string;
  stopRequested : bool
}.

Record Refs := mkRefs {
  recordsRef : list DomainRecord;
  indexRef : gmap string nat;
  statsRef : Stats;
  dnsRefs : StageRefs;
  rdapRefs : StageRefs
}.

Definition stage_of (c : Checker) (s : Refs) : StageRefs :=
  match c with Dns => dnsRefs s | Rdap => rdapRefs s end.

Definition set_stage (c : Checker) (st : StageRefs) (s : Refs) : Refs :=
  match c with
  | Dns => mkRefs (recordsRef s) (indexRef s) (statsRef s) st (rdapRefs s)
  | Rdap => mkRefs (recordsRef s) (indexRef s) (statsRef s) (dnsRefs s) st
  end.

Definition set_stats (st : Stats) (s : Refs) : Refs :=
  mkRefs (recordsRef s) (indexRef s) st (dnsRefs s) (rdapRefs s).

(** [addToQueue(queueRef, setRef, id)] *)
Definition addToQueue (st : StageRefs) (k : string) : StageRefs :=
  if decide (k ∈ queueSetRef st) then st
  else mkStage (queueRef st ++ [k]) ({[k]} ∪ queueSetRef st) (inFlight st) (stopRequested st).

(** [removeFromQueue(setRef, id)]: lazy removal, the queue array keeps it. *)
Definition removeFromQueue (st : StageRefs) (k : string) : StageRefs :=
  mkStage (queueRef st) (queueSetRef st ∖ {[k]}) (inFlight st) (stopRequested st).

(** The lookup [recordsRef.current[indexRef.current.get(id)]]. *)
Definition find_rec (s : Refs) (k : string) : option DomainRecord :=
  match indexRef s !! k with
  | Some i => recordsRef s !! i
  | None => None
  end.

(** One iteration of [updates.forEach] in upsertRecords.  The assignment
    [recordsRef.current[existingIndex] = item] is stdpp's list insert; it
    agrees with JavaScript whenever [existingIndex] is in range, which
    [index_ok] below guarantees in every state the code reaches. *)
Definition upsertOne (s : Refs) (item : DomainRecord) : Refs :=
  let existingIndex := indexRef s !! id item in
  let prev := match existingIndex with Some i => recordsRef s !! i | None => None end in
  let s1 := match existingIndex with
            | Some i => mkRefs (<[i := item]> (recordsRef s)) (indexRef s) (statsRef s)
                          (dnsRefs s) (rdapRefs s)
            | None => mkRefs (recordsRef s ++ [item])
                          (<[id item := length (recordsRef s)]> (indexRef s))
                          (incr_total (statsRef s)) (dnsRefs s) (rdapRefs s)
            end in
  let s2 := set_stats (adjustStats prev item (statsRef s1)) s1 in
  let prevQueued := match prev with Some p => is_queued (status p) | None => false end in
  let d1 := if prevQueued && negb (is_queued (status item))
            then removeFromQueue (dnsRefs s2) (id item) else dnsRefs s2 in
  let d2 := if is_queued (status item) then addToQueue d1 (id item) else d1 in
  let prevCand := match prev with Some p => isRdapCandidate p | None => false end in
  let nextCand := isRdapCandidate item in
  let r1 := if prevCand && negb nextCand
            then removeFromQueue (rdapRefs s2) (id item) else rdapRefs s2 in
  let r2 := if nextCand then addToQueue r1 (id item) else r1 in
  mkRefs (recordsRef s2) (indexRef s2) (statsRef s2) d2 r2.

(** [upsertRecords(updates)], synchronous part (the trailing
    [syncRender()] and [await putRecords(updates)] do not touch the refs). *)
Definition upsertRecords (s : Refs) (updates : list DomainRecord) : Refs :=
  fold_left upsertOne updates s.

(** The loop of [popCandidate] over the stage's queue. *)
Fixpoint pop_loop (inflight : gset string) (index : gmap string nat)
    (records : list DomainRecord) (q : list string) (set : gset string)
    : option DomainRecord * list string * gset string :=
  match q with
  | [] => (None, [], set)
  | k :: q' =>
      if decide (k ∈ set) then
        if decide (k ∈ inflight) then pop_loop inflight index records q' set
        else match index !! k with
             | None => pop_loop inflight index records q' (set ∖ {[k]})
             | Some idx => (records !! idx, q', set ∖ {[k]})
             end
      else pop_loop inflight index records q' set
  end.

(** [popCandidate()] for stage [c]: the result and the new refs. *)
Definition popCandidate (c : Checker) (s : Refs) : option DomainRecord * Refs :=
  let st := stage_of c s in
  match pop_loop (inFlight st) (indexRef s) (recordsRef s) (queueRef st) (queueSetRef st) with
  | (res, q, set) =>
      (res, set_stage c (mkStage q set (inFlight st) (stopRequested st)) s)
  end.

Definition emptyStage : StageRefs := mkStage [] ∅ ∅ false.

(** The refs when the hook mounts. *)
Definition initRefs : Refs := mkRefs [] ∅ zeroStats emptyStage emptyStage.

(** [new Map(items.map((item, idx) => [item.id, idx]))]: later entries win. *)
Definition build_index (items : list DomainRecord) : gmap string nat :=
  fold_left (fun m '(k, i) => <[k := i]> m) (imap (fun i x => (id x, i)) items) ∅.

(** The [.then] of [getAllRecords()] in the mount effect. *)
Definition loadRecords (s : Refs) (items : list DomainRecord) : Refs :=
  let st := recomputeStats items in
  let qs := fold_left (fun '(d, r) item =>
              (if is_queued (status item) then addToQueue d (id item) else d,
               if isRdapCandidate item then addToQueue r (id item) else r))
              items (dnsRefs s, rdapRefs s) in
  mkRefs items (build_index items) st qs.1 qs.2.

(** The refs part of [handleClear]. *)
Definition clearRefs (s : Refs) : Refs :=
  mkRefs [] ∅ zeroStats
    (mkStage (queueRef (dnsRefs s)) (queueSetRef (dnsRefs s)) (inFlight (dnsRefs s)) true)
    (mkStage (queueRef (rdapRefs s)) (queueSetRef (rdapRefs s)) (inFlight (rdapRefs s)) true).

(* ------------------------------------------------------------------ *)
(** ** Lookups (services/lookupService.ts) *)

(** What [fetch] gives back: a rejected promise (transport failure) or a
    response with an HTTP status; for dns.google also the outcome of
    [response.json()] and the type of [data?.Status] ([None]: absent or not
    a number). *)
Inductive DnsJson := JsonError | JsonStatus (code : option Z).
Inductive DnsOutcome := DnsFetchError | DnsResponse (httpStatus : Z) (body : DnsJson).
Inductive RdapOutcome := RdapFetchError | RdapResponse (httpStatus : Z).

(** [response.ok] *)
Definition http_ok (st : Z) : bool := (200 <=? st) && (st <=? 299).

(** [runRdapLookup(domain)] *)
Definition runRdapLookup (o : RdapOutcome) : RdapStatus :=
  match o with
  | RdapFetchError => RdapUnknown
  | RdapResponse st =>
      if st =? 404 then RdapAvailable
      else if http_ok st then RdapTaken
      else RdapUnknown
  end.

Definition set_result (r : DomainRecord) (s : DomainStatus) (rs : RdapStatus) : DomainRecord :=
  with_rdap (with_status r s) rs.

(** [runDnsLookup(record)]: [now] is [Date.now()], [o] the dns.google
    answer and [ro] the rdap.org answer used in the NXDOMAIN branch. *)
Definition runDnsLookup (record : DomainRecord) (now : Z) (o : DnsOutcome) (ro : RdapOutcome)
    : DomainRecord :=
  let next := with_checkedAt record now in
  match o with
  | DnsFetchError => set_result next Unknown NotChecked
  | DnsResponse st body =>
      if negb (http_ok st) then set_result next Unknown NotChecked
      else match body with
           | JsonError => set_result next Unknown NotChecked
           | JsonStatus None => set_result next Unknown NotChecked
           | JsonStatus (Some code) =>
               if code =? 3 then set_result next Available (runRdapLookup ro)
               else if (code =? 2) || (code =? 5) then set_result next Unknown NotChecked
               else set_result next Taken NotChecked
           end
  end.

(** [runRdapOnly(record)]: [{ ...record, rdapStatus, checkedAt, status: record.status }] *)
Definition runRdapOnly (record : DomainRecord) (now : Z) (ro : RdapOutcome) : DomainRecord :=
  with_checkedAt (with_rdap record (runRdapLookup ro)) now.

(* ------------------------------------------------------------------ *)
(** ** deriveCore (utils/domainUtils.ts) *)

Local Open Scope string_scope.

(** [s.split(".")] *)
Fixpoint split_dot (s : string) : list string :=
  match s with
  | EmptyString => [""]
  | String ch rest =>
      if Ascii.eqb ch (Ascii.ascii_of_nat 46) then "" :: split_dot rest
      else match split_dot rest with
           | p :: ps => String ch p :: ps
           | [] => [String ch ""]
           end
  end.

(** [parts.join(".")] *)
Fixpoint join_dot (parts : list string) : string :=
  match parts with
  | [] => ""
  | [p] => p
  | p :: ps => p ++ "." ++ join_dot ps
  end.

Definition deriveCore (dom : string) : string :=
  let trimmed := if String.prefix "www." dom then String.substring 4 (String.length dom - 4) dom else dom in
  let parts := split_dot trimmed in
  if (length parts <=? 1)%nat then trimmed
  else join_dot (removelast parts).

Local Close Scope string_scope.

(* ------------------------------------------------------------------ *)
(** ** The hook as an interleaving semantics *)

(** [const BATCH_SIZE = 50]: the number of workers a start launches. *)
Definition BATCH_SIZE : nat := 50.

(** The status line, one constructor per message template. *)
Inductive Msg :=
| MsgIdle | MsgLoadFailed | MsgNoNew | MsgAdded (n : nat)
| MsgRunning (c : Checker) | MsgChecked (c : Checker) (n : nat)
| MsgStopRequested (c : Checker) | MsgStopFinishing
| MsgNothingPending (c : Checker) | MsgCheckerIdle (c : Checker) | MsgCleared.

(** Where a worker of [startChecker] is, between two suspension points.
    [before] is the worker's copy of [processedCount] taken at the top of
    the current loop iteration; [r] the candidate it claimed. *)
Inductive WPhase :=
| WHead                                             (* at [while (!stopRequested)] *)
| WDnsLookup (before : nat) (r : DomainRecord)      (* claimed, marked checking, awaiting runDnsLookup *)
| WDnsWritten (before : nat) (r : DomainRecord)     (* result upserted, awaiting putRecords *)
| WRdapLookup (before : nat) (r : DomainRecord)     (* claimed, awaiting runRdapOnly *)
| WRdapWritten (before : nat) (r : DomainRecord)    (* result upserted, awaiting putRecords *)
| WTail (before : nat)                              (* processOne returned *)
| WDone.                                            (* left the loop *)

(** One call of [startChecker]: its workers, its local [processedCount],
    and whether the code after [await Promise.all(workers)] has run. *)
Record Run := mkRun { workers : list WPhase; processedCount : nat; finished : bool }.

Record Sys := mkSys {
  refs : Refs;
  dnsRuns : list Run;
  rdapRuns : list Run;
  runningDns : bool;          (* the React state [running.dns] *)
  runningRdap : bool;         (* the React state [running.rdap] *)
  statusMessage : Msg;
  usedIds : gset string       (* ids handed out so far (by createId or loaded) *)
}.

Definition runs_of (c : Checker) (s : Sys) : list Run :=
  match c with Dns => dnsRuns s | Rdap => rdapRuns s end.
Definition running_of (c : Checker) (s : Sys) : bool :=
  match c with Dns => runningDns s | Rdap => runningRdap s end.

Definition set_refs (r : Refs) (s : Sys) : Sys :=
  mkSys r (dnsRuns s) (rdapRuns s) (runningDns s) (runningRdap s) (statusMessage s) (usedIds s).
Definition set_msg (m : Msg) (s : Sys) : Sys :=
  mkSys (refs s) (dnsRuns s) (rdapRuns s) (runningDns s) (runningRdap s) m (usedIds s).
Definition set_runs (c : Checker) (rs : list Run) (s : Sys) : Sys :=
  match c with
  | Dns => mkSys (refs s) rs (rdapRuns s) (runningDns s) (runningRdap s) (statusMessage s) (usedIds s)
  | Rdap => mkSys (refs s) (dnsRuns s) rs (runningDns s) (runningRdap s) (statusMessage s) (usedIds s)
  end.
Definition set_running (c : Checker) (b : bool) (s : Sys) : Sys :=
  match c with
  | Dns => mkSys (refs s) (dnsRuns s) (rdapRuns s) b (runningRdap s) (statusMessage s) (usedIds s)
  | Rdap => mkSys (refs s) (dnsRuns s) (rdapRuns s) (runningDns s) b (statusMessage s) (usedIds s)
  end.

Definition stop_of (c : Checker) (r : Refs) : bool := stopRequested (stage_of c r).

Definition with_stop (b : bool) (st : StageRefs) : StageRefs :=
  mkStage (queueRef st) (queueSetRef st) (inFlight st) b.
Definition with_inflight (f : gset string) (st : StageRefs) : StageRefs :=
  mkStage (queueRef st) (queueSetRef st) f (stopRequested st).

Definition set_stop (c : Checker) (b : bool) (r : Refs) : Refs :=
  set_stage c (with_stop b (stage_of c r)) r.
Definition update_inflight (c : Checker) (f : gset string -> gset string) (r : Refs) : Refs :=
  set_stage c (with_inflight (f (inFlight (stage_of c r))) (stage_of c r)) r.

Definition update_run (c : Checker) (j : nat) (R : Run) (s : Sys) : Sys :=
  set_runs c (<[j := R]> (runs_of c s)) s.

(** One atomic segment of worker [i] of run [j] of stage [c] (the loop of
    [const workers = Array.from({ length: BATCH_SIZE }).map(...)] together
    with [processOne]).  [o] and [ro] are the answers of dns.google and
    rdap.org, [now] is [Date.now()]. *)
Definition worker_step (c : Checker) (j i : nat) (o : DnsOutcome) (ro : RdapOutcome)
    (now : Z) (s : Sys) : option Sys :=
  match runs_of c s !! j with
  | None => None
  | Some R =>
    match workers R !! i with
    | None => None
    | Some ph =>
      let goto ph' (R' : Run) := mkRun (<[i := ph']> (workers R')) (processedCount R') (finished R') in
      match ph with
      | WHead =>
          if stop_of c (refs s) then Some (update_run c j (goto WDone R) s)
          else
            let before := processedCount R in
            match popCandidate c (refs s) with
            | (None, r1) => Some (set_refs r1 (update_run c j (goto (WTail before) R) s))
            | (Some cand, r1) =>
                let r2 := update_inflight c (fun f => {[id cand]} ∪ f) r1 in
                match c with
                | Dns =>
                    let r3 := upsertRecords r2 [with_status cand Checking] in
                    Some (set_refs r3 (update_run c j (goto (WDnsLookup before cand) R) s))
                | Rdap =>
                    Some (set_refs r2 (update_run c j (goto (WRdapLookup before cand) R) s))
                end
            end
      | WDnsLookup b r =>
          let processed := runDnsLookup (with_status r Checking) now o ro in
          Some (set_refs (upsertRecords (refs s) [processed])
                  (update_run c j (goto (WDnsWritten b r) R) s))
      | WRdapLookup b r =>
          let processed := runRdapOnly r now ro in
          Some (set_refs (upsertRecords (refs s) [processed])
                  (update_run c j (goto (WRdapWritten b r) R) s))
      | WDnsWritten b r | WRdapWritten b r =>
          let n := S (processedCount R) in
          let R' := mkRun (<[i := WTail b]> (workers R)) n (finished R) in
          Some (set_msg (MsgChecked c n)
                  (set_refs (update_inflight c (fun f => f ∖ {[id r]}) (refs s))
                     (update_run c j R' s)))
      | WTail b =>
          if stop_of c (refs s) then Some (update_run c j (goto WDone R) s)
          else
            let progressMade := (b <? processedCount R)%nat in
            let hasMore := negb (size (queueSetRef (stage_of c (refs s))) =? 0)%nat in
            if progressMade || hasMore then Some (update_run c j (goto WHead R) s)
            else Some (update_run c j (goto WDone R) s)
      | WDone => None
      end
    end
  end.

(** [startChecker(checker)] up to the spawning of the workers. *)
Definition startChecker (c : Checker) (s : Sys) : Sys :=
  if running_of c s then s
  else
    let r1 := update_inflight c (fun _ => ∅) (refs s) in
    let r2 := set_stop c false r1 in
    set_msg (MsgRunning c)
      (set_running c true
         (set_refs r2 (set_runs c (runs_of c s ++ [mkRun (repeat WHead BATCH_SIZE) 0 false]) s))).

(** The code of [startChecker] after [await Promise.all(workers)]. *)
Definition finishRun (c : Checker) (j : nat) (s : Sys) : option Sys :=
  match runs_of c s !! j with
  | None => None
  | Some R =>
      if finished R then None
      else if forallb (fun ph => match ph with WDone => true | _ => false end) (workers R) then
        let wasStopped := stop_of c (refs s) in
        let msg := if wasStopped then MsgStopFinishing
                   else if (processedCount R =? 0)%nat then MsgNothingPending c
                   else MsgCheckerIdle c in
        Some (set_msg msg (set_running c false
               (set_refs (set_stop c false (refs s))
                  (update_run c j (mkRun (workers R) (processedCount R) true) s))))
      else None
  end.

(** [stopChecker(checker)] *)
Definition stopChecker (c : Checker) (s : Sys) : Sys :=
  if negb (running_of c s) then s
  else set_msg (MsgStopRequested c) (set_refs (set_stop c true (refs s)) s).

(** [handleClear()]: its synchronous part, and the final message. *)
Definition handleClear (s : Sys) : Sys :=
  mkSys (clearRefs (refs s)) (dnsRuns s) (rdapRuns s) false false MsgCleared (usedIds s).

(** The records built by [enqueueDomains] from the normalized entries:
    entries whose domain is already stored (or earlier in the batch) are
    skipped; each kept entry takes the next id handed out by [createId]. *)
Fixpoint build_new (existing : list string) (entries : list string) (ids : list string)
    (now : Z) : option (list DomainRecord) :=
  match entries with
  | [] => Some []
  | e :: es =>
      if decide (e ∈ existing) then build_new existing es ids now
      else match ids with
           | [] => None
           | k :: ks =>
               match build_new (e :: existing) es ks now with
               | Some rs => Some (mkRecord k e (deriveCore e) Queued NotChecked now None Import :: rs)
               | None => None
               end
           end
  end.

(** [enqueueDomains(rawInput)] from the list of its non-null
    [normalizeDomain] results.  [createId()] yields ids never handed out
    before: the step is refused when the supplied ids are not fresh. *)
Definition enqueueDomains (entries ids : list string) (now : Z) (s : Sys) : option Sys :=
  match build_new (map domain (recordsRef (refs s))) entries ids now with
  | None => None
  | Some toAdd =>
      let newIds := map id toAdd in
      if decide (NoDup newIds /\ Forall (fun k => k ∉ usedIds s) newIds) then
        match toAdd with
        | [] => Some (set_msg MsgNoNew s)
        | _ =>
            Some (mkSys (upsertRecords (refs s) toAdd) (dnsRuns s) (rdapRuns s)
                    (runningDns s) (runningRdap s) (MsgAdded (length toAdd))
                    (list_to_set newIds ∪ usedIds s))
        end
      else None
  end.

Inductive Action :=
| AEnqueue (entries ids : list string) (now : Z)
| AStart (c : Checker)
| AStop (c : Checker)
| AClear
| AWorker (c : Checker) (j i : nat) (o : DnsOutcome) (ro : RdapOutcome) (now : Z)
| AFinish (c : Checker) (j : nat).

Definition step (s : Sys) (a : Action) : option Sys :=
  match a with
  | AEnqueue es ks now => enqueueDomains es ks now s
  | AStart c => Some (startChecker c s)
  | AStop c => Some (stopChecker c s)
  | AClear => Some (handleClear s)
  | AWorker c j i o ro now => worker_step c j i o ro now s
  | AFinish c j => finishRun c j s
  end.

Fixpoint run (s : Sys) (acts : list Action) : option Sys :=
  match acts with
  | [] => Some s
  | a :: acts' => match step s a with Some s' => run s' acts' | None => None end
  end.

(** The hook after the mount effect has loaded [items] from IndexedDB. *)
Definition hydrate (items : list DomainRecord) : Sys :=
  mkSys (loadRecords initRefs items) [] [] false false MsgIdle (list_to_set (map id items)).

(** States the hook can reach: IndexedDB keys the stored items by [id]. *)
Definition reachable (s : Sys) : Prop :=
  exists items acts, NoDup (map id items) /\ run (hydrate items) acts = Some s.

(* ------------------------------------------------------------------ *)
(** ** Sequences of store operations *)

(** The operations on the refs outside the worker pools: a store update
    through upsertRecords (enqueueDomains is one with fresh records), the
    refs part of handleClear, the mount-time load, and a popCandidate. *)
Inductive RefsOp :=
| OpUpsert (updates : list DomainRecord)
| OpClear
| OpLoad (items : list DomainRecord)
| OpPop (c : Checker).

Definition execOp (s : Refs) (op : RefsOp) : Refs :=
  match op with
  | OpUpsert us => upsertRecords s us
  | OpClear => clearRefs s
  | OpLoad items => loadRecords s items
  | OpPop c => (popCandidate c s).2
  end.

Definition execOps (s : Refs) (ops : list RefsOp) : Refs := fold_left execOp ops s.

(** Every index entry points at a record carrying that id. *)
Definition index_ok (s : Refs) : Prop :=
  forall k p, indexRef s !! k = Some p -> exists r, recordsRef s !! p = Some r /\ id r = k.

Definition count_all (l : list DomainRecord) (st : Stats) : Stats :=
  fold_left (fun st r => applyDelta r 1 st) l st.

Definition upd_dns (prev : option DomainRecord) (item : DomainRecord) (d : StageRefs) : StageRefs :=
  let prevQueued := match prev with Some p => is_queued (status p) | None => false end in
  let d1 := if prevQueued && negb (is_queued (status item))
            then removeFromQueue d (id item) else d in
  if is_queued (status item) then addToQueue d1 (id item) else d1.

Definition upd_rdap (prev : option DomainRecord) (item : DomainRecord) (d : StageRefs) : StageRefs :=
  let prevCand := match prev with Some p => isRdapCandidate p | None => false end in
  let r1 := if prevCand && negb (isRdapCandidate item)
            then removeFromQueue d (id item) else d in
  if isRdapCandidate item then addToQueue r1 (id item) else r1.

(** Enqueuing key [k] [n] times in a row with [addToQueue]. *)
Definition enqueueN (st : StageRefs) (k : string) (n : nat) : StageRefs :=
  Nat.iter n (fun st' => addToQueue st' k) st.

(** Number of entries of [k] in a queue array. *)
Definition entries (q : list string) (k : string) : nat := count_occ String.string_dec q k.

(** A sample imported record, used by the concrete scenarios below. *)
Definition sample (k : string) (st : DomainStatus) (rs : RdapStatus) : DomainRecord :=
  mkRecord k (k ++ ".test") k st rs 0 None Import.

(* ------------------------------------------------------------------ *)
(** ** normalizeDomain *)

(** Strings are handled as lists of UTF-16 code units.  [toLowerCase] and
    the whitespace class shared by [String.prototype.trim] and the regex
    [\s] are Unicode tables; they are section variables. *)
Fixpoint drop_while {A} (f : A -> bool) (l : list A) : list A :=
  match l with
  | [] => []
  | x :: l' => if f x then drop_while f l' else l
  end.

Fixpoint take_while {A} (f : A -> bool) (l : list A) : list A :=
  match l with
  | [] => []
  | x :: l' => if f x then x :: take_while f l' else []
  end.

Section NormalizeDomain.
Variable toLowerCase : list Z -> list Z.
Variable is_space : Z -> bool.

Definition trim (s : list Z) : list Z :=
  rev (drop_while is_space (rev (drop_while is_space s))).

Definition is_ascii_letter (c : Z) : bool :=
  ((65 <=? c) && (c <=? 90)) || ((97 <=? c) && (c <=? 122)).

(** [replace(/^[a-z]+:\/\//i, "")] *)
Definition strip_scheme (s : list Z) : list Z :=
  let p := take_while is_ascii_letter s in
  let rest := drop_while is_ascii_letter s in
  match p, rest with
  | _ :: _, c1 :: c2 :: c3 :: rest' =>
      if (c1 =? 58) && (c2 =? 47) && (c3 =? 47) then rest' else s
  | _, _ => s
  end.

(** [replace(/^\/\//, "")] *)
Definition strip_slashes (s : list Z) : list Z :=
  match s with
  | c1 :: c2 :: rest => if (c1 =? 47) && (c2 =? 47) then rest else s
  | _ => s
  end.

Definition is_sep (c : Z) : bool := (c =? 47) || (c =? 63) || (c =? 35).
Definition is_dot (c : Z) : bool := c =? 46.

(** [/^[a-z0-9.-]+$/] on one code unit. *)
Definition allowed (c : Z) : bool :=
  ((97 <=? c) && (c <=? 122)) || ((48 <=? c) && (c <=? 57)) || (c =? 46) || (c =? 45).

Definition dot_com : list Z := [46; 99; 111; 109].

Definition normalizeDomain (value : list Z) : option (list Z) :=
  match value with
  | [] => None
  | _ =>
    let sanitized := toLowerCase (trim value) in
    match sanitized with
    | [] => None
    | _ =>
      let s1 := List.filter (fun c => negb (is_space c)) sanitized in
      let s2 := strip_scheme s1 in
      let s3 := strip_slashes s2 in
      let s4 := take_while (fun c => negb (is_sep c)) s3 in
      let s5 := rev (drop_while is_dot (rev (drop_while is_dot s4))) in
      match s5 with
      | [] => None
      | _ =>
        let s6 := if existsb is_dot s5 then s5 else s5 ++ dot_com in
        match s6 with
        | [] => None
        | _ => if forallb allowed s6 then Some s6 else None
        end
      end
    end
  end.
End NormalizeDomain.

(** ASCII instances of the two tables, for concrete runs. *)
Definition ascii_lower (s : list Z) : list Z :=
  map (fun c => if (65 <=? c) && (c <=? 90) then c + 32 else c) s.
Definition js_space (c : Z) : bool :=
  existsb (Z.eqb c) [9; 10; 11; 12; 13; 32; 160; 5760; 8232; 8233; 8239; 8287; 12288; 65279]
  || ((8192 <=? c) && (c <=? 8202)).

(** The code units of an ASCII string literal. *)
Definition units (s : string) : list Z :=
  map (fun a => Z.of_nat (Ascii.nat_of_ascii a)) (String.list_ascii_of_string s).

(* ------------------------------------------------------------------ *)
(** ** The RDAP rate limiter [withRdapLock] on a time line *)

(** One call of [runRdapLookup], from the resolve stage (inside
    [runDnsLookup]) or the verify stage (inside [runRdapOnly]): the time at
    which it enters [runRdapLookup] and the time its fetch takes.  Calls are
    listed in the order in which they run their synchronous prefix. *)
Record RdapCall := mkCall { caller : Checker; arrival : Z; duration : Z }.

(** [setTimeout(resolve, 500)] in the [finally] block. *)
Definition COOL_DOWN : Z := 500.

(** Version with [withRdapLock]: a call waits for the promise [previous]
    left in [rdapLock] by the call before it, runs its task, waits the
    cool-down and only then resolves its own lock promise.  [lock] is the
    time at which [rdapLock] resolves ([None]: [Promise.resolve()]).  The
    result lists (start of the task, end of the task) per call. *)
Fixpoint schedule_locked (lock : option Z) (calls : list RdapCall) : list (Z * Z) :=
  match calls with
  | [] => []
  | c :: cs =>
      let start := match lock with None => arrival c | Some R => Z.max (arrival c) R end in
      let fin := start + duration c in
      (start, fin) :: schedule_locked (Some (fin + COOL_DOWN)) cs
  end.

(** Version without the lock: the fetch starts when the call is made. *)
Definition schedule_unlocked (calls : list RdapCall) : list (Z * Z) :=
  map (fun c => (arrival c, arrival c + duration c)) calls.

(** A queued record whose name does not resolve (DNS [Status] 3) and whose
    RDAP lookup answers 404, run through one resolve-stage worker. *)
Definition nxdomain_trace : list Action :=
  [AStart Dns;
   AWorker Dns 0 0 DnsFetchError RdapFetchError 1;
   AWorker Dns 0 0 (DnsResponse 200 (JsonStatus (Some 3))) (RdapResponse 404) 2].

(** Phases in which a worker holds a claimed item. *)
Definition holding (ph : WPhase) : bool :=
  match ph with
  | WDnsLookup _ _ | WRdapLookup _ _ | WDnsWritten _ _ | WRdapWritten _ _ => true
  | _ => false
  end.

(** The phase a holding worker moves to. *)
Definition next_phase (ph : WPhase) : WPhase :=
  match ph with
  | WDnsLookup b r => WDnsWritten b r
  | WRdapLookup b r => WRdapWritten b r
  | WDnsWritten b _ | WRdapWritten b _ => WTail b
  | _ => ph
  end.

Definition phase_of (c : Checker) (j i : nat) (s : Sys) : option WPhase :=
  runs_of c s !! j ≫= fun R => workers R !! i.

(** A record available after DNS whose RDAP lookup keeps failing, run
    through one verify-stage worker: claim, failed lookup, release, loop
    test, claim again. *)
Definition rdap_failure_trace : list Action :=
  [AStart Rdap;
   AWorker Rdap 0 0 DnsFetchError RdapFetchError 1;
   AWorker Rdap 0 0 DnsFetchError RdapFetchError 2;
   AWorker Rdap 0 0 DnsFetchError RdapFetchError 3;
   AWorker Rdap 0 0 DnsFetchError RdapFetchError 4;
   AWorker Rdap 0 0 DnsFetchError RdapFetchError 5].

(** [p] followed by the character of code [48 + i]: distinct names. *)
Definition numbered (p : string) (i : nat) : string :=
  p ++ String (Ascii.ascii_of_nat (48 + i)) EmptyString.

(** Clear while a resolve-stage worker holds a lookup, start again, add 51
    names: the 50 new workers claim 50 of them, and the old worker, which
    still runs, finishes its lookup, goes round its loop and claims the
    51st. *)
Definition clear_restart_trace : list Action :=
  [AEnqueue ["a.test"] ["A"] 0; AStart Dns; AWorker Dns 0 0 DnsFetchError RdapFetchError 0;
   AClear; AStart Dns;
   AEnqueue (map (numbered "d.test") (seq 0 51)) (map (numbered "B") (seq 0 51)) 1] ++
  map (fun i => AWorker Dns 1 i DnsFetchError RdapFetchError 2) (seq 0 50) ++
  [AWorker Dns 0 0 (DnsResponse 200 (JsonStatus (Some 0))) RdapFetchError 3;
   AWorker Dns 0 0 DnsFetchError RdapFetchError 3;
   AWorker Dns 0 0 DnsFetchError RdapFetchError 3;
   AWorker Dns 0 0 DnsFetchError RdapFetchError 3].

(* ------------------------------------------------------------------ *)
(** ** The invariant of the reachable states *)

(** Membership set of a stage's queue. *)
Definition qset (c : Checker) (r : Refs) : gset string := queueSetRef (stage_of c r).

(** The record a worker holds while its lookup is pending. *)
Definition lookup_rec (ph : WPhase) : option DomainRecord :=
  match ph with
  | WDnsLookup _ r | WRdapLookup _ r => Some r
  | _ => None
  end.

Definition all_phases (s : Sys) : list WPhase := concat (map workers (dnsRuns s ++ rdapRuns s)).

Definition holders (s : Sys) : list DomainRecord := omap lookup_rec (all_phases s).

(** A key in the resolve queue's set is stored as queued; a key in the
    verify queue's set is stored as verify-eligible. *)
Definition refs_inv (r : Refs) : Prop :=
  index_ok r /\
  (forall k x, k ∈ qset Dns r -> find_rec r k = Some x -> is_queued (status x) = true) /\
  (forall k x, k ∈ qset Rdap r -> find_rec r k = Some x -> isRdapCandidate x = true).

Record Inv (s : Sys) : Prop := {
  inv_refs : refs_inv (refs s);
  inv_hold : forall h, h ∈ holders s ->
      (id h ∉ qset Dns (refs s)) /\ (id h ∉ qset Rdap (refs s)) /\ id h ∈ usedIds s;
  inv_nodup : NoDup (map id (holders s));
  inv_rdap_hold : forall b r, WRdapLookup b r ∈ all_phases s -> isRdapCandidate r = true;
  inv_used_sets : forall c k, k ∈ qset c (refs s) -> k ∈ usedIds s;
  inv_used_recs : forall x, x ∈ recordsRef (refs s) -> id x ∈ usedIds s
}.

(** A key no later step can touch: in no queue set, held by no worker,
    and already handed out. *)
Definition idle (s : Sys) (k : string) : Prop :=
  (k ∉ qset Dns (refs s)) /\ (k ∉ qset Rdap (refs s)) /\ (k ∉ map id (holders s)) /\ k ∈ usedIds s.

(** A stored record that is not verify-eligible ("x", taken) next to one
    that is ("y", available), with the verify stage started. *)
Definition skip_items : list DomainRecord :=
  [sample "x" Taken NotChecked; sample "y" Available NotChecked].
Definition skip_state : Sys := startChecker Rdap (hydrate skip_items).
Definition skip_after : Sys :=
  from_option (fun t => t) skip_state (worker_step Rdap 0 0 DnsFetchError RdapFetchError 1 skip_state).

(** A queued record "b" claimed by a resolve-stage worker, and the
    write-back of a DNS answer with [Status] 0. *)
Definition positive_items : list DomainRecord := [sample "b" Queued NotChecked].
Definition positive_acts : list Action :=
  [AStart Dns; AWorker Dns 0 0 DnsFetchError RdapFetchError 1].
Definition positive_claimed : Sys :=
  from_option (fun t => t) (hydrate positive_items) (run (hydrate positive_items) positive_acts).
Definition positive_answer : DnsOutcome := DnsResponse 200 (JsonStatus (Some 0)).
Definition positive_written : Sys :=
  from_option (fun t => t) positive_claimed
    (worker_step Dns 0 0 positive_answer RdapFetchError 2 positive_claimed).

(* ------------------------------------------------------------------ *)
(** ** parseDomainInput (utils/domainUtils.ts) *)

(** [/[\n,]+/] on one code unit. *)
Definition is_entry_sep (c : Z) : bool := (c =? 10) || (c =? 44).

(** [raw.split(/[\n,]+/)]: a maximal run of separators is one match.
    [cur] is the current piece, reversed; [insep] tells whether the last
    code unit read was a separator. *)

Fixpoint split_entries (l cur : list Z) (insep : bool) : list (list Z) :=
  match l with
  | [] => [rev cur]
  | c :: l' =>
      if is_entry_sep c then
        if insep then split_entries l' cur true
        else rev cur :: split_entries l' [] true
      else split_entries l' (c :: cur) false
  end.

(** [.filter(Boolean)] on strings: the empty string is falsy. *)

Definition nonempty (e : list Z) : bool := match e with [] => false | _ => true end.

(** [parseDomainInput(raw)]: [is_space] is the whitespace class of
    [String.prototype.trim]. *)

Definition parseDomainInput (is_space : Z -> bool) (raw : list Z) : list (list Z) :=
  List.filter nonempty (map (trim is_space) (split_entries raw [] false)).

(** Splitting at every separator, each one ending a piece (runs of
    separators give empty pieces); used to reason about [split_entries]. *)

Fixpoint split_each (l : list Z) : list (list Z) :=
  match l with
  | [] => [[]]
  | c :: l' =>
      if is_entry_sep c then [] :: split_each l'
      else match split_each l' with
           | p :: ps => (c :: p) :: ps
           | [] => [[c]]
           end
  end.

(** Glue [p] onto the first piece of [ps]. *)

Definition prepend (p : list Z) (ps : list (list Z)) : list (list Z) :=
  match ps with
  | q :: qs => (p ++ q) :: qs
  | [] => [p]
  end.

(** The trimming and filtering half of parseDomainInput, on pieces. *)

Definition keep_pieces (is_space : Z -> bool) (ps : list (list Z)) : list (list Z) :=
  List.filter nonempty (map (trim is_space) ps).

(* ------------------------------------------------------------------ *)
(** ** The counters of the earlier hook versions *)

Definition len {A} (l : list A) : Z := Z.of_nat (length l).

(** The counters of the earlier hook versions, each a
    [records.filter(...).length] memo, with [total] the array length. *)

Definition filterStats (records : list DomainRecord) : Stats :=
  mkStats (len records)
    (len (List.filter (fun item => is_queued_or_checking (status item)) records))
    (len (List.filter (fun item => is_available (status item)) records))
    (len (List.filter (fun item => is_taken_status (status item)) records))
    (len (List.filter (fun item => negb (is_queued_or_checking (status item))) records))
    (len (List.filter is_taken records)).

(* ------------------------------------------------------------------ *)
(** ** The earlier hook versions: the JavaScript Map merge of upsertRecords and the batch loop of handleStart *)

(** A JavaScript [Map] keyed by strings, as its entries in insertion
    order; [map.set(k, v)] overwrites an entry in place or appends one. *)
Fixpoint map_set {V} (m : list (string * V)) (k : string) (v : V) : list (string * V) :=
  match m with
  | [] => [(k, v)]
  | (k', v') :: m' => if decide (k = k') then (k', v) :: m' else (k', v') :: map_set m' k v
  end.

(** [items.forEach((item) => map.set(item.id, item))]. *)

Definition set_all (m : list (string * DomainRecord)) (items : list DomainRecord)
    : list (string * DomainRecord) :=
  fold_left (fun m item => map_set m (id item) item) items m.

(** The [setRecords] updater of [upsertRecords] in the earlier hook
    versions: [new Map(prev.map((item) => [item.id, item]))], then
    [map.set(item.id, item)] for each update, then
    [Array.from(map.values())]; an empty [updates] returns before. *)

Definition upsertMerged (prev updates : list DomainRecord) : list DomainRecord :=
  match updates with
  | [] => prev
  | _ => map snd (set_all (set_all [] prev) updates)
  end.

(** [list.find((item) => item.id === k)] *)

Definition find_id (k : string) (l : list DomainRecord) : option DomainRecord :=
  List.find (fun r => bool_decide (id r = k)) l.

(** The last element of [l] with id [k]. *)

Definition last_id (k : string) (l : list DomainRecord) : option DomainRecord := find_id k (rev l).

(** [map.get(k)]. *)

Definition assoc {V} (k : string) (m : list (string * V)) : option V :=
  snd <$> List.find (fun p => bool_decide (p.1 = k)) m.

(** [Array.from(map.keys())]. *)

Definition keys {V} (m : list (string * V)) : list string := map fst m.

(** Each entry is keyed by the [id] of its value. *)

Definition wf_map (m : list (string * DomainRecord)) : Prop := Forall (fun p => id p.2 = p.1) m.

Definition batchCandidates (rdapOnly : bool) (snapshot : list DomainRecord) : list DomainRecord :=
  if rdapOnly
  then List.filter (fun item => is_available (status item) && negb (rdapFinal (rdapStatus item))) snapshot
  else List.filter (fun item => is_queued (status item)) snapshot.

(** The lookup a pass runs on one record of its batch: [clock] gives the
    [Date.now()] it reads, [answer] the outcomes of its fetches. *)

Definition batchLookup (rdapOnly : bool) (clock : string -> Z)
    (answer : string -> DnsOutcome * RdapOutcome) (record : DomainRecord) : DomainRecord :=
  if rdapOnly then runRdapOnly record (clock (id record)) (answer (id record)).2
  else runDnsLookup record (clock (id record)) (answer (id record)).1 (answer (id record)).2.

(** One pass of that loop from the snapshot [records]: [None] is the
    [break] on an empty pool.  Each [setRecords] updater is taken to have
    run by the time the [await] that follows it returns. *)

Definition batchPass (rdapOnly : bool) (clock : string -> Z)
    (answer : string -> DnsOutcome * RdapOutcome) (records : list DomainRecord)
    : option (list DomainRecord) :=
  match batchCandidates rdapOnly records with
  | [] => None
  | candidates =>
      let batch := firstn BATCH_SIZE candidates in
      let records1 := upsertMerged records (map (fun item => with_status item Checking) batch) in
      let processed := map (batchLookup rdapOnly clock answer) batch in
      Some (upsertMerged records1 processed)
  end.

(* ------------------------------------------------------------------ *)
(** ** DomainCheckerPage: pagination, sortRecords (utils/domainUtils.ts) and the IndexedDB store (services/storage.ts) *)

(** [const PAGE_SIZE = 20]. *)
Definition PAGE_SIZE : Z := 20.

(** How [Array.prototype.slice] reads an integer index against the
    length: a negative index counts from the end, and both are clamped to
    [0..len]. *)

Definition slice_index (len k : Z) : Z :=
  if k <? 0 then Z.max (len + k) 0 else Z.min k len.

(** [l.slice(start, end)] on integer arguments. *)

Definition js_slice {A} (l : list A) (start end_ : Z) : list A :=
  let len := Z.of_nat (length l) in
  let from := slice_index len start in
  let to := slice_index len end_ in
  take (Z.to_nat (to - from)) (drop (Z.to_nat from) l).

(** [Math.max(1, Math.ceil(n / PAGE_SIZE))] for an array length [n]
    (the quotient of two such integers rounds up exactly as over the
    rationals). *)

Definition totalPages (n : Z) : Z := Z.max 1 (- (- n / PAGE_SIZE)).
(** [Math.min(page, totalPages)]. *)

Definition safePage (page n : Z) : Z := Z.min page (totalPages n).
(** [sortedRecords.slice((safePage - 1) * PAGE_SIZE, safePage * PAGE_SIZE)]. *)

Definition pagedRecords {A} (sorted : list A) (page : Z) : list A :=
  let sp := safePage page (Z.of_nat (length sorted)) in
  js_slice sorted ((sp - 1) * PAGE_SIZE) (sp * PAGE_SIZE).
(** [showingStart] and [showingEnd] of the table footer. *)

Definition showingStart (page n : Z) : Z := (safePage page n - 1) * PAGE_SIZE + 1.

Definition showingEnd (page n : Z) : Z := Z.min (safePage page n * PAGE_SIZE) n.

(** The writes of [page]: [setPage(1)] in handleSort, the Prev and Next
    buttons ([setPage((prev) => Math.max(1, prev - 1))],
    [setPage((prev) => Math.min(totalPages, prev + 1))]) and the effect
    [if (page > totalPages) setPage(totalPages)]; [n] is the length of
    [sortedRecords] when the write runs. *)

Inductive PageAction :=
| PageSort
| PagePrev
| PageNext (n : Z)
| PageClamp (n : Z).

Definition pageStep (page : Z) (a : PageAction) : Z :=
  match a with
  | PageSort => 1
  | PagePrev => Z.max 1 (page - 1)
  | PageNext n => Z.min (totalPages n) (page + 1)
  | PageClamp n => if totalPages n <? page then totalPages n else page
  end.

(** [page] after a sequence of writes from [useState(1)]. *)

Definition pageAfter (acts : list PageAction) : Z := fold_left pageStep acts 1.

Definition allPages {A} (sorted : list A) : list A :=
  concat (map (fun k => pagedRecords sorted (Z.of_nat k))
              (seq 1 (Z.to_nat (totalPages (Z.of_nat (length sorted)))))).

Inductive SortField := SortDomain | SortCore | SortCreatedAt.

Inductive SortDirection := Asc | Desc.

(** [localeCompare] is left abstract: it only matters for the text
    fields. *)

Section SortRecords.
Variable localeCompare : string -> string -> Z.

(** The comparator passed to [sort]. *)

Definition compareRecords (field : SortField) (direction : SortDirection)
    (a b : DomainRecord) : Z :=
  let result := match field with
                | SortCreatedAt => createdAt a - createdAt b
                | SortDomain => localeCompare (domain a) (domain b)
                | SortCore => localeCompare (core a) (core b)
                end in
  match direction with Asc => result | Desc => - result end.

(** [Array.prototype.sort] is stable; for a comparator that is a total
    preorder every stable sort returns the same array, and insertion sort
    is one.  [insert_sorted] puts [x] before the first element it does not
    compare greater than. *)
Fixpoint insert_sorted (cmp : DomainRecord -> DomainRecord -> Z) (x : DomainRecord)
    (l : list DomainRecord) : list DomainRecord :=
  match l with
  | [] => [x]
  | y :: l' => if cmp x y <=? 0 then x :: l else y :: insert_sorted cmp x l'
  end.

Fixpoint sort_by (cmp : DomainRecord -> DomainRecord -> Z) (l : list DomainRecord) :
    list DomainRecord :=
  match l with
  | [] => []
  | x :: l' => insert_sorted cmp x (sort_by cmp l')
  end.

(** [sortRecords(records, field, direction)]: [[...records].sort(cmp)]. *)
Definition sortRecords (records : list DomainRecord) (field : SortField)
    (direction : SortDirection) : list DomainRecord :=
  sort_by (compareRecords field direction) records.

End SortRecords.

(** The comparator of sortRecords on a numeric key, ascending. *)
Definition key_compare (key : DomainRecord -> Z) (a b : DomainRecord) : Z := key a - key b.

Abbreviation Store := (gmap string DomainRecord).

(** [putRecords(records)]: returns at once on an empty array, otherwise
    one transaction doing [store.put(record)] for each record in order. *)

Definition putRecords (db : Store) (records : list DomainRecord) : Store :=
  match records with
  | [] => db
  | _ => fold_left (fun db record => <[id record := record]> db) records db
  end.

(** [clearAllRecords()]: [store.clear()]. *)

Definition clearAllRecords (db : Store) : Store := ∅.

(** Every record sits under its own [id] (the [keyPath]). *)

Definition store_keyed (db : Store) : Prop :=
  forall k r, db !! k = Some r -> id r = k.

(** The store write that goes with an operation on the refs: upsertRecords
    ends in [await putRecords(updates)] and handleClear in
    [await clearAllRecords()]; popCandidate writes nothing and the
    mount-time load only reads. *)

Definition storeOp (db : Store) (op : RefsOp) : Store :=
  match op with
  | OpUpsert updates => putRecords db updates
  | OpClear => clearAllRecords db
  | OpLoad _ => db
  | OpPop _ => db
  end.

(** Whether an operation is the mount-time load. *)

Definition is_load (op : RefsOp) : bool :=
  match op with OpLoad _ => true | _ => false end.

(* ------------------------------------------------------------------ *)
(** ** Sample inputs for the further properties *)

Definition enqueue_items : list DomainRecord := [sample "a" Taken NotChecked].

Definition enqueue_entries : list string := ["a.test"; "b.test"; "c.test"; "b.test"].

Definition merge_prev : list DomainRecord := [sample "a" Queued NotChecked; sample "b" Queued NotChecked].

Definition merge_updates : list DomainRecord :=
  [sample "c" Queued NotChecked; sample "a" Checking NotChecked; sample "a" Taken NotChecked].

Definition pass_records : list DomainRecord :=
  [sample "a" Queued NotChecked; sample "b" Available NotChecked; sample "c" Queued NotChecked].

Definition pass_clock : string -> Z := fun _ => 9.

Definition pass_answer : string -> DnsOutcome * RdapOutcome :=
  fun _ => (DnsResponse 200 (JsonStatus (Some 3)), RdapResponse 500).

Definition page_acts : list PageAction := [PageNext 45; PageNext 45; PageNext 45].

Definition sort_input : list DomainRecord :=
  [mkRecord "x" "x.test" "x" Queued NotChecked 5 None Import;
   mkRecord "y" "y.test" "y" Queued NotChecked 3 None Import;
   mkRecord "z" "z.test" "z" Queued NotChecked 5 None Import].

Definition sync_db : gmap string DomainRecord := {[ "a" := sample "a" Taken NotChecked ]}.

Definition sync_ops : list RefsOp :=
  [OpUpsert [sample "b" Queued NotChecked]; OpClear; OpUpsert [sample "c" Available RdapUnknown]].

(* ================================================================== *)
(** * Proofs *)

(** ** Statistics *)

Lemma count_record_applyDelta st r : count_record st r = applyDelta r 1 st.
Proof.
  destruct st; unfold count_record, applyDelta, b2z; simpl.
  f_equal; repeat case_match; simpl in *; try discriminate; lia.
Qed.

Lemma applyDelta_comm a b da db st :
  applyDelta a da (applyDelta b db st) = applyDelta b db (applyDelta a da st).
Proof.
  destruct st; unfold applyDelta; simpl. f_equal; repeat case_match; lia.
Qed.

Lemma applyDelta_cancel r st : applyDelta r (-1) (applyDelta r 1 st) = st.
Proof.
  destruct st; unfold applyDelta; simpl. f_equal; repeat case_match; lia.
Qed.

Lemma applyDelta_total r d st : total (applyDelta r d st) = total st.
Proof. reflexivity. Qed.

Lemma applyDelta_incr_total r d st :
  applyDelta r d (incr_total st) = incr_total (applyDelta r d st).
Proof. reflexivity. Qed.

Lemma fold_count_record l st : fold_left count_record l st = count_all l st.
Proof.
  revert st; induction l as [|r l IH]; intros st; simpl; [done|].
  rewrite count_record_applyDelta. apply IH.
Qed.

Lemma count_all_applyDelta l x d st :
  count_all l (applyDelta x d st) = applyDelta x d (count_all l st).
Proof.
  revert st; induction l as [|r l IH]; intros st; simpl; [done|].
  rewrite applyDelta_comm. apply IH.
Qed.

Lemma count_all_app l1 l2 st : count_all (l1 ++ l2) st = count_all l2 (count_all l1 st).
Proof. unfold count_all. apply fold_left_app. Qed.

Lemma count_all_total l st : total (count_all l st) = total st.
Proof.
  revert st; induction l as [|r l IH]; intros st; simpl; [done|]. rewrite IH. reflexivity.
Qed.

(** Replacing the record at position [i]. *)
Lemma count_all_insert l i p item st :
  l !! i = Some p ->
  count_all (<[i := item]> l) st = applyDelta item 1 (applyDelta p (-1) (count_all l st)).
Proof.
  intros Hi.
  destruct (list_elem_of_split_length l i p Hi) as (l1 & l2 & -> & Hlen).
  rewrite insert_app_r_alt by lia. replace (i - length l1)%nat with 0%nat by lia. simpl.
  rewrite !count_all_app. simpl.
  rewrite <- !count_all_applyDelta. f_equal.
  rewrite applyDelta_cancel. reflexivity.
Qed.

Definition stats_ok (s : Refs) : Prop := statsRef s = recomputeStats (recordsRef s).

Lemma recomputeStats_count l :
  recomputeStats l = mkStats (Z.of_nat (length l)) (queueCount (count_all l zeroStats))
    (totalAvailable (count_all l zeroStats)) (totalTaken (count_all l zeroStats))
    (totalChecked (count_all l zeroStats)) (takenOverall (count_all l zeroStats)).
Proof. unfold recomputeStats. rewrite fold_count_record. reflexivity. Qed.

(** [recomputeStats l] is [count_all l] started from the counters with
    [total = length l]. *)
Lemma recomputeStats_alt l :
  recomputeStats l = count_all l (mkStats (Z.of_nat (length l)) 0 0 0 0 0).
Proof.
  rewrite recomputeStats_count.
  assert (Hgen : forall st t, count_all l (mkStats t (queueCount st) (totalAvailable st)
            (totalTaken st) (totalChecked st) (takenOverall st))
          = mkStats t (queueCount (count_all l st)) (totalAvailable (count_all l st))
            (totalTaken (count_all l st)) (totalChecked (count_all l st))
            (takenOverall (count_all l st))).
  { induction l as [|r l IH]; intros st t; simpl; [done|].
    specialize (IH (applyDelta r 1 st) t). rewrite <- IH. reflexivity. }
  specialize (Hgen zeroStats (Z.of_nat (length l))). simpl in Hgen. rewrite Hgen. reflexivity.
Qed.

Lemma count_all_incr_total l st : count_all l (incr_total st) = incr_total (count_all l st).
Proof.
  revert st; induction l as [|r l IH]; intros st; simpl; [done|].
  rewrite applyDelta_incr_total. apply IH.
Qed.

(** ** The store under upsertOne *)

Lemma index_ok_inj s k k' p :
  index_ok s -> indexRef s !! k = Some p -> indexRef s !! k' = Some p -> k = k'.
Proof.
  intros Hok H1 H2.
  destruct (Hok _ _ H1) as (r & Hr & <-). destruct (Hok _ _ H2) as (r' & Hr' & <-).
  congruence.
Qed.

Lemma upsertOne_prev s item :
  (match indexRef s !! id item with Some i => recordsRef s !! i | None => None end)
  = find_rec s (id item).
Proof. reflexivity. Qed.

Lemma upsertOne_dns s item : dnsRefs (upsertOne s item) = upd_dns (find_rec s (id item)) item (dnsRefs s).
Proof. unfold upsertOne, find_rec. destruct (indexRef s !! id item); reflexivity. Qed.

Lemma upsertOne_rdap s item : rdapRefs (upsertOne s item) = upd_rdap (find_rec s (id item)) item (rdapRefs s).
Proof. unfold upsertOne, find_rec. destruct (indexRef s !! id item); reflexivity. Qed.

Lemma upsertOne_stage c s item :
  stage_of c (upsertOne s item) =
  match c with
  | Dns => upd_dns (find_rec s (id item)) item (dnsRefs s)
  | Rdap => upd_rdap (find_rec s (id item)) item (rdapRefs s)
  end.
Proof. destruct c; [apply upsertOne_dns | apply upsertOne_rdap]. Qed.

Lemma upsertOne_records s item :
  recordsRef (upsertOne s item) =
  match indexRef s !! id item with
  | Some i => <[i := item]> (recordsRef s)
  | None => recordsRef s ++ [item]
  end.
Proof. unfold upsertOne. destruct (indexRef s !! id item); reflexivity. Qed.

Lemma upsertOne_index s item :
  indexRef (upsertOne s item) =
  match indexRef s !! id item with
  | Some _ => indexRef s
  | None => <[id item := length (recordsRef s)]> (indexRef s)
  end.
Proof. unfold upsertOne. destruct (indexRef s !! id item); reflexivity. Qed.

Lemma upsertOne_statsRef s item :
  statsRef (upsertOne s item) =
  adjustStats (find_rec s (id item)) item
    (match indexRef s !! id item with
     | Some _ => statsRef s
     | None => incr_total (statsRef s)
     end).
Proof. unfold upsertOne, find_rec. destruct (indexRef s !! id item); reflexivity. Qed.

Lemma upsertOne_index_ok s item : index_ok s -> index_ok (upsertOne s item).
Proof.
  intros Hok k p. rewrite upsertOne_index, upsertOne_records.
  destruct (indexRef s !! id item) as [i|] eqn:E.
  - intros Hk.
    destruct (decide (p = i)) as [->|Hne].
    + destruct (Hok _ _ E) as (r & Hr & _).
      exists item. split; [apply list_lookup_insert_eq; eapply lookup_lt_Some; eauto|].
      symmetry. eapply index_ok_inj; eauto.
    + destruct (Hok _ _ Hk) as (r & Hr & Hid). exists r. split; [|done].
      rewrite list_lookup_insert_ne; [done|congruence].
  - intros Hk.
    destruct (decide (k = id item)) as [->|Hne].
    + rewrite lookup_insert_eq in Hk. injection Hk as <-.
      exists item. rewrite lookup_app_r by lia. rewrite Nat.sub_diag. done.
    + rewrite lookup_insert_ne in Hk by congruence.
      destruct (Hok _ _ Hk) as (r & Hr & Hid). exists r.
      split; [|done]. rewrite lookup_app_l; [done|]. eapply lookup_lt_Some; eauto.
Qed.

Lemma upsertOne_find s item k :
  index_ok s ->
  find_rec (upsertOne s item) k = if decide (k = id item) then Some item else find_rec s k.
Proof.
  intros Hok. unfold find_rec at 1. rewrite upsertOne_index, upsertOne_records.
  unfold find_rec.
  destruct (indexRef s !! id item) as [i|] eqn:E.
  - destruct (decide (k = id item)) as [->|Hne].
    + rewrite E. destruct (Hok _ _ E) as (r & Hr & _).
      apply list_lookup_insert_eq. eapply lookup_lt_Some; eauto.
    + destruct (indexRef s !! k) as [p|] eqn:Ek; [|done].
      rewrite list_lookup_insert_ne; [done|].
      intros ->. apply Hne. eapply index_ok_inj; eauto.
  - destruct (decide (k = id item)) as [->|Hne].
    + rewrite lookup_insert_eq. rewrite lookup_app_r by lia. rewrite Nat.sub_diag. done.
    + rewrite lookup_insert_ne by congruence.
      destruct (indexRef s !! k) as [p|] eqn:Ek; [|done].
      destruct (Hok _ _ Ek) as (r & Hr & _).
      rewrite lookup_app_l; [done|]. eapply lookup_lt_Some; eauto.
Qed.

Lemma upsertOne_stats_ok s item : index_ok s -> stats_ok s -> stats_ok (upsertOne s item).
Proof.
  unfold stats_ok. intros Hok Hst.
  rewrite upsertOne_statsRef, upsertOne_records. unfold find_rec.
  destruct (indexRef s !! id item) as [i|] eqn:E.
  - destruct (Hok _ _ E) as (p & Hp & _). rewrite Hp. unfold adjustStats.
    rewrite Hst, !recomputeStats_alt, length_insert.
    rewrite (count_all_insert _ _ _ _ _ Hp). reflexivity.
  - unfold adjustStats. rewrite Hst, !recomputeStats_alt, count_all_app. simpl.
    rewrite <- count_all_incr_total. f_equal. f_equal.
    unfold incr_total. simpl. rewrite length_app. simpl. f_equal. lia.
Qed.

Lemma upsertRecords_ok s us :
  index_ok s -> stats_ok s -> index_ok (upsertRecords s us) /\ stats_ok (upsertRecords s us).
Proof.
  unfold upsertRecords. revert s; induction us as [|u us IH]; intros s Hok Hst; simpl; [done|].
  apply IH; [by apply upsertOne_index_ok | by apply upsertOne_stats_ok].
Qed.

(** Stage refs of popCandidate. *)
Lemma popCandidate_store c s :
  recordsRef (popCandidate c s).2 = recordsRef s /\ indexRef (popCandidate c s).2 = indexRef s /\
  statsRef (popCandidate c s).2 = statsRef s.
Proof.
  unfold popCandidate.
  destruct (pop_loop _ _ _ _ _) as [[res q] set]. destruct c; simpl; auto.
Qed.

Lemma build_index_ok items : index_ok (mkRefs items (build_index items) zeroStats emptyStage emptyStage).
Proof.
  unfold index_ok, build_index; simpl.
  assert (Hgen : forall (pre : list DomainRecord) (l : list DomainRecord) (m : gmap string nat),
    (forall k p, m !! k = Some p -> exists r, (pre ++ l) !! p = Some r /\ id r = k) ->
    forall k p, fold_left (fun m '(k, i) => <[k := i]> m)
                   (imap (fun i x => (id x, i + length pre)%nat) l) m !! k = Some p ->
                exists r, (pre ++ l) !! p = Some r /\ id r = k).
  { intros pre l. revert pre. induction l as [|x l IH]; intros pre m Hm k p Hk; simpl in *; [eauto|].
    specialize (IH (pre ++ [x]) (<[id x := (0 + length pre)%nat]> m)).
    rewrite <- app_assoc in IH. apply IH.
    - intros k' p' Hk'. destruct (decide (k' = id x)) as [->|Hne].
      + rewrite lookup_insert_eq in Hk'. injection Hk' as <-. exists x.
        rewrite lookup_app_r by lia. rewrite Nat.sub_diag. done.
      + rewrite lookup_insert_ne in Hk' by congruence. by apply Hm.
    - rewrite <- Hk. f_equal. f_equal.
      apply imap_ext. intros i y _. simpl. rewrite length_app. simpl. f_equal. lia. }
  intros k p Hk. apply (Hgen [] items ∅); [intros ??; rewrite lookup_empty; done|].
  rewrite <- Hk. f_equal. f_equal. apply imap_ext. intros i y _. simpl. f_equal. lia.
Qed.

Lemma loadRecords_ok s items : index_ok (loadRecords s items) /\ stats_ok (loadRecords s items).
Proof.
  unfold loadRecords. destruct (fold_left _ _ _) as [d r]. split; [|reflexivity].
  pose proof (build_index_ok items) as H. exact H.
Qed.

Lemma execOp_ok s op : index_ok s -> stats_ok s -> index_ok (execOp s op) /\ stats_ok (execOp s op).
Proof.
  intros Hok Hst. destruct op as [us| |items|c]; simpl.
  - by apply upsertRecords_ok.
  - split; [intros ?? H; simpl in H; rewrite lookup_empty in H; done | reflexivity].
  - apply loadRecords_ok.
  - destruct (popCandidate_store c s) as (H1 & H2 & H3). unfold index_ok, stats_ok.
    rewrite H1, H2, H3. split; assumption.
Qed.

Lemma index_ok_init : index_ok initRefs.
Proof. intros k p H. simpl in H. rewrite lookup_empty in H. done. Qed.

Lemma stats_ok_init : stats_ok initRefs.
Proof. reflexivity. Qed.

Lemma execOps_ok ops s :
  index_ok s -> stats_ok s -> index_ok (execOps s ops) /\ stats_ok (execOps s ops).
Proof.
  unfold execOps. revert s; induction ops as [|op ops IH]; intros s Hok Hst; simpl; [done|].
  destruct (execOp_ok s op Hok Hst). by apply IH.
Qed.

(** C3 (stats correctness).  After any sequence of store updates
    (single-item or batch upserts, enqueues being upserts of new records),
    clears, loads and dequeues from the mount state, the counters kept
    incrementally in [statsRef] equal [recomputeStats] of the records; and
    each upsert moves the counters by [adjustStats] from the previous
    counters and the previous and new record only (plus one on [total]
    for a new key), never by a rescan. *)
Theorem stats_equal_rescan (ops : list RefsOp) :
  statsRef (execOps initRefs ops) = recomputeStats (recordsRef (execOps initRefs ops)) /\
  (forall (s : Refs) (item : DomainRecord),
     statsRef (upsertOne s item) =
     adjustStats (find_rec s (id item)) item
       (match indexRef s !! id item with
        | Some _ => statsRef s
        | None => incr_total (statsRef s)
        end)).
Proof.
  split.
  - apply (execOps_ok ops initRefs index_ok_init stats_ok_init).
  - intros s item. apply upsertOne_statsRef.
Qed.

(** ** The dedup queue *)

Lemma addToQueue_idem st k : addToQueue (addToQueue st k) k = addToQueue st k.
Proof.
  unfold addToQueue. destruct (decide (k ∈ queueSetRef st)) as [H|H]; simpl.
  - rewrite decide_True by done. reflexivity.
  - rewrite decide_True by set_solver. reflexivity.
Qed.

Lemma enqueueN_once st k n : (1 <= n)%nat -> enqueueN st k n = addToQueue st k.
Proof.
  intros Hn. induction n as [|n IH]; [lia|].
  destruct n as [|n]; [reflexivity|].
  simpl. change (addToQueue (enqueueN st k (S n)) k = addToQueue st k).
  rewrite IH by lia. apply addToQueue_idem.
Qed.

Lemma addToQueue_entries st k :
  entries (queueRef (addToQueue st k)) k =
  (entries (queueRef st) k + if decide (k ∈ queueSetRef st) then 0 else 1)%nat.
Proof.
  unfold addToQueue, entries. destruct (decide (k ∈ queueSetRef st)); simpl; [lia|].
  rewrite count_occ_app. simpl. destruct (String.string_dec k k); [lia|congruence].
Qed.

Lemma addToQueue_member st k : k ∈ queueSetRef (addToQueue st k).
Proof.
  unfold addToQueue. destruct (decide (k ∈ queueSetRef st)); simpl; [done|set_solver].
Qed.

(** C5, as the code has it.  Enqueuing a key [n >= 1] times with no
    intervening dequeue or removal has exactly the effect of one enqueue:
    nothing when the key is in the membership set, otherwise one entry
    appended at the tail and the key marked; so it adds one entry when the
    key was not in the membership set and none otherwise, and the key ends
    in the membership set. *)
Theorem enqueue_dedup (st : StageRefs) (k : string) (n : nat) (Hn : (1 <= n)%nat) :
  enqueueN st k n = addToQueue st k /\
  entries (queueRef (enqueueN st k n)) k =
    (entries (queueRef st) k + if decide (k ∈ queueSetRef st) then 0 else 1)%nat /\
  queueRef (enqueueN st k n) =
    queueRef st ++ (if decide (k ∈ queueSetRef st) then [] else [k]) /\
  k ∈ queueSetRef (enqueueN st k n).
Proof.
  rewrite enqueueN_once by done. split; [done|]. split; [apply addToQueue_entries|].
  split; [|apply addToQueue_member].
  unfold addToQueue. destruct (decide (k ∈ queueSetRef st)); simpl; [by rewrite app_nil_r|done].
Qed.

Lemma enqueue_dedup_witness :
  (1 <= 3)%nat /\
  enqueueN emptyStage "k" 3 = addToQueue emptyStage "k" /\
  entries (queueRef (enqueueN emptyStage "k" 3)) "k" = 1%nat.
Proof.
  split; [lia|]. split.
  - apply (enqueue_dedup emptyStage "k" 3). lia.
  - vm_compute. reflexivity.
Defined.

(** C5 as stated fails: after the verify-stage entry of ["x"] was removed
    lazily (its status left [available] and came back), the array still
    holds the old entry, and one enqueue leaves two entries for ["x"]. *)
Lemma enqueue_dedup_counterexample :
  ~ (forall (st : StageRefs) (k : string) (n : nat), (1 <= n)%nat ->
       entries (queueRef (enqueueN st k n)) k = 1%nat).
Proof.
  intros H.
  specialize (H (rdapRefs (execOps initRefs
                   [OpLoad [sample "x" Available NotChecked];
                    OpUpsert [sample "x" Taken NotChecked]])) "x" 1%nat ltac:(lia)).
  vm_compute in H. discriminate H.
Qed.

(** ** normalizeDomain *)

Lemma drop_while_suffix {A} (f : A -> bool) l : exists p, l = p ++ drop_while f l.
Proof.
  induction l as [|x l [p Hp]]; simpl; [by exists []|].
  destruct (f x); [exists (x :: p); simpl; congruence | by exists []].
Qed.

Lemma drop_while_head {A} (f : A -> bool) l x r : drop_while f l = x :: r -> f x = false.
Proof.
  induction l as [|y l IH]; simpl; [done|].
  destruct (f y) eqn:E; [apply IH | intros [= -> _]; done].
Qed.

Lemma drop_while_in {A} (f : A -> bool) l x r : drop_while f l = x :: r -> In x l.
Proof.
  induction l as [|y l IH]; simpl; [done|].
  destruct (f y); [intros H; right; by apply IH | intros [= -> _]; by left].
Qed.

Lemma drop_while_id {A} (f : A -> bool) l : (forall x r, l = x :: r -> f x = false) -> drop_while f l = l.
Proof. destruct l as [|x r]; simpl; [done|]. intros H. by rewrite (H x r eq_refl). Qed.

Lemma drop_while_none {A} (f : A -> bool) l : Forall (fun x => f x = false) l -> drop_while f l = l.
Proof. intros H. apply drop_while_id. intros x r ->. by inversion H. Qed.

Lemma take_while_all {A} (f : A -> bool) l : Forall (fun x => f x = true) l -> take_while f l = l.
Proof. induction 1 as [|x l Hx _ IH]; simpl; [done|]. by rewrite Hx, IH. Qed.

Lemma rev_drop_while_prefix (f : Z -> bool) t : exists q, t = rev (drop_while f (rev t)) ++ q.
Proof.
  destruct (drop_while_suffix f (rev t)) as [p Hp]. exists (rev p).
  rewrite <- rev_app_distr, <- Hp. by rewrite rev_involutive.
Qed.

Section NormalizeProofs.
Variable toLowerCase : list Z -> list Z.
Variable is_space : Z -> bool.
(** Lower-casing leaves a string of [a-z0-9.-] unchanged. *)
Hypothesis lower_fixes : forall s, forallb allowed s = true -> toLowerCase s = s.
(** None of [a-z0-9.-] is white space. *)
Hypothesis allowed_not_space : forall c, allowed c = true -> is_space c = false.

Lemma normalizeDomain_wf s d :
  normalizeDomain toLowerCase is_space s = Some d ->
  forallb allowed d = true /\ d <> [] /\ In 46 d /\
  (forall r, d <> 46 :: r) /\ (forall r, d <> r ++ [46]).
Proof.
  unfold normalizeDomain.
  destruct s as [|c0 s0]; [done|].
  destruct (toLowerCase (trim is_space (c0 :: s0))) as [|c1 s1]; [done|].
  set (s4 := take_while _ _).
  set (t := drop_while is_dot s4).
  destruct (rev_drop_while_prefix is_dot t) as [q Hq].
  set (s5 := rev (drop_while is_dot (rev t))) in *.
  assert (Hlead : forall r, s5 <> 46 :: r).
  { intros r Hr. rewrite Hr in Hq. simpl in Hq.
    unfold t in Hq. pose proof (drop_while_head is_dot s4 _ _ Hq). done. }
  assert (Htrail : forall r, s5 <> r ++ [46]).
  { intros r Hr. unfold s5 in Hr.
    apply (f_equal (@rev Z)) in Hr. rewrite rev_involutive, rev_app_distr in Hr.
    simpl in Hr. pose proof (drop_while_head is_dot _ _ _ Hr). done. }
  clearbody s5. destruct s5 as [|x5 r5] eqn:E5; [done|].
  destruct (existsb is_dot (x5 :: r5)) eqn:Hdot.
  - destruct (forallb allowed (x5 :: r5)) eqn:Ha; [|done]. intros [= <-].
    repeat split; [done|done| |done|done].
    apply existsb_exists in Hdot as [y [Hy Hy']]. unfold is_dot in Hy'.
    apply Z.eqb_eq in Hy'. by subst y.
  - simpl app. destruct (forallb allowed _) eqn:Ha; [|done]. intros [= <-].
    repeat split; [done|done| | |].
    + rewrite app_comm_cons. apply in_or_app. right. by left.
    + intros r Hr. injection Hr as -> _. by apply (Hlead r5).
    + intros r Hr.
      assert (Hx : (x5 :: r5 ++ [46; 99; 111]) ++ [109] = r ++ [46])
        by (rewrite <- Hr; simpl; by rewrite <- app_assoc).
      apply app_inj_tail in Hx as [_ ?]. done.
Qed.

Lemma normalizeDomain_fixed d :
  forallb allowed d = true -> d <> [] -> In 46 d ->
  (forall r, d <> 46 :: r) -> (forall r, d <> r ++ [46]) ->
  normalizeDomain toLowerCase is_space d = Some d.
Proof.
  intros Ha Hne Hin Hlead Htrail.
  assert (Hall : Forall (fun c => allowed c = true) d)
    by (apply List.Forall_forall; intros x Hx; by apply (proj1 (forallb_forall _ _) Ha)).
  assert (Hsp : Forall (fun c => is_space c = false) d)
    by (eapply Forall_impl; [exact Hall | exact allowed_not_space]).
  assert (Htrim : trim is_space d = d).
  { unfold trim. rewrite (drop_while_none _ d Hsp).
    rewrite drop_while_none; [apply rev_involutive|]. by apply Forall_rev. }
  assert (Hfilt : List.filter (fun c => negb (is_space c)) d = d).
  { clear -Hsp. induction Hsp as [|x l Hx _ IH]; simpl; [done|]. by rewrite Hx, IH. }
  assert (Hno : forall c, In c d -> allowed c = true)
    by (by apply List.Forall_forall).
  assert (Hscheme : strip_scheme d = d).
  { unfold strip_scheme.
    destruct (take_while is_ascii_letter d); [done|].
    destruct (drop_while is_ascii_letter d) as [|c1 [|c2 [|c3 r]]] eqn:E; try done.
    apply drop_while_in in E. apply Hno in E.
    destruct (c1 =? 58) eqn:E58; [|done]. apply Z.eqb_eq in E58. subst c1. done. }
  assert (Hslash : strip_slashes d = d).
  { unfold strip_slashes. destruct d as [|c1 [|c2 r]]; try done.
    destruct (c1 =? 47) eqn:E47; [|done]. apply Z.eqb_eq in E47. subst c1.
    by specialize (Hno 47 (or_introl eq_refl)). }
  assert (Htake : take_while (fun c => negb (is_sep c)) d = d).
  { apply take_while_all. eapply Forall_impl; [exact Hall|]. intros x Hx.
    unfold allowed in Hx. unfold is_sep.
    destruct (x =? 47) eqn:A; [apply Z.eqb_eq in A; subst; done|].
    destruct (x =? 63) eqn:B; [apply Z.eqb_eq in B; subst; done|].
    destruct (x =? 35) eqn:C; [apply Z.eqb_eq in C; subst; done|]. done. }
  assert (Hdots : rev (drop_while is_dot (rev (drop_while is_dot d))) = d).
  { rewrite (drop_while_id is_dot d).
    - rewrite drop_while_id; [apply rev_involutive|].
      intros x r Hr. apply (f_equal (@rev Z)) in Hr. rewrite rev_involutive in Hr.
      simpl in Hr. unfold is_dot. destruct (x =? 46) eqn:E; [|done].
      apply Z.eqb_eq in E. subst x. by destruct (Htrail (rev r)).
    - intros x r Hr. unfold is_dot. destruct (x =? 46) eqn:E; [|done].
      apply Z.eqb_eq in E. subst x. by destruct (Hlead r). }
  assert (Hdot : existsb is_dot d = true).
  { apply existsb_exists. exists 46. split; [done|reflexivity]. }
  unfold normalizeDomain.
  destruct d as [|c r] eqn:Ed; [done|]. rewrite <- Ed in *.
  rewrite Htrim, lower_fixes by done. rewrite Ed. rewrite <- Ed.
  rewrite Hfilt, Hscheme, Hslash, Htake, Hdots, Hdot, Ed. rewrite <- Ed.
  rewrite Ha, Ed. reflexivity.
Qed.
End NormalizeProofs.

Lemma allowed_range c :
  allowed c = true -> (97 <= c <= 122) \/ (48 <= c <= 57) \/ c = 46 \/ c = 45.
Proof.
  unfold allowed. intros H.
  rewrite !Bool.orb_true_iff, !Bool.andb_true_iff, !Z.leb_le, !Z.eqb_eq in H. lia.
Qed.

Lemma ascii_lower_fixes s : forallb allowed s = true -> ascii_lower s = s.
Proof.
  induction s as [|c s IH]; simpl; [done|]. intros H.
  apply andb_prop in H as [Hc Hs]. rewrite (IH Hs).
  apply allowed_range in Hc.
  destruct (Z.leb_spec 65 c), (Z.leb_spec c 90); simpl; try reflexivity; lia.
Qed.

Lemma js_space_allowed c : allowed c = true -> js_space c = false.
Proof.
  intros H. apply allowed_range in H. unfold js_space. simpl existsb.
  repeat match goal with |- context [Z.eqb c ?n] => destruct (Z.eqb_spec c n); [lia|] end.
  destruct (Z.leb_spec 8192 c); [lia|]. reflexivity.
Qed.

(** C10.  For any lower-casing function that leaves strings over
    [a-z0-9.-] unchanged and any white-space class that contains none of
    those characters (both hold of JavaScript's), whenever
    [normalizeDomain s] returns a value [d]: every code unit of [d] is in
    [a-z0-9.-] and [d] is non-empty (so it matches /^[a-z0-9.-]+$/), [d]
    contains a ".", [d] neither starts nor ends with ".", and
    [normalizeDomain d = d]. *)
Theorem normalizeDomain_idempotent_wf
    (toLowerCase : list Z -> list Z) (is_space : Z -> bool)
    (lower_fixes : forall s, forallb allowed s = true -> toLowerCase s = s)
    (allowed_not_space : forall c, allowed c = true -> is_space c = false)
    (s d : list Z) (H : normalizeDomain toLowerCase is_space s = Some d) :
  forallb allowed d = true /\ d <> [] /\ In 46 d /\
  (forall r, d <> 46 :: r) /\ (forall r, d <> r ++ [46]) /\
  normalizeDomain toLowerCase is_space d = Some d.
Proof.
  destruct (normalizeDomain_wf toLowerCase is_space s d H) as (Ha & Hne & Hin & Hl & Ht).
  repeat split; try assumption.
  by apply normalizeDomain_fixed.
Qed.

Lemma normalizeDomain_idempotent_wf_witness :
  normalizeDomain ascii_lower js_space (units " HTTPS://WWW.Example.org/path?q ")
    = Some (units "www.example.org") /\
  normalizeDomain ascii_lower js_space (units "www.example.org")
    = Some (units "www.example.org").
Proof.
  split; [vm_compute; reflexivity|].
  apply (normalizeDomain_idempotent_wf ascii_lower js_space ascii_lower_fixes js_space_allowed
           (units " HTTPS://WWW.Example.org/path?q ") (units "www.example.org")).
  vm_compute. reflexivity.
Defined.

(** ** Resolve stage and rdapStatus *)

(** C8 (code_bug).  The resolve stage writes the RDAP verdict: for every
    record, [runDnsLookup] with a DNS answer of [Status] 3 sets [rdapStatus]
    to the result of [runRdapLookup] (available on a 404), and in the hook
    a queued record whose verify stage never ran ends with
    [rdapStatus = "available"] after one resolve-stage worker handles it. *)
Theorem resolve_stage_sets_rdapStatus :
  (forall (r : DomainRecord) (now : Z) (ro : RdapOutcome),
     rdapStatus (runDnsLookup r now (DnsResponse 200 (JsonStatus (Some 3))) ro) = runRdapLookup ro) /\
  runRdapLookup (RdapResponse 404) = RdapAvailable /\
  (run (hydrate [sample "x" Queued NotChecked]) nxdomain_trace
     ≫= fun s => find_rec (refs s) "x")
  = Some (mkRecord "x" "x.test" "x" Available RdapAvailable 0 (Some 2) Import).
Proof.
  split; [intros; reflexivity|]. split; [reflexivity|].
  vm_compute. reflexivity.
Qed.

(** ** The RDAP rate limiter *)

Lemma schedule_locked_after R cs :
  Forall (fun c => 0 <= duration c) cs ->
  Forall (fun p => R <= p.1) (schedule_locked (Some R) cs).
Proof.
  revert R. induction cs as [|c cs IH]; intros R Hd; simpl; [constructor|].
  inversion Hd as [|? ? Hc Hcs]; subst. constructor; simpl; [lia|].
  eapply Forall_impl; [apply IH; exact Hcs|]. simpl. intros p Hp. unfold COOL_DOWN in Hp. lia.
Qed.

Lemma schedule_locked_length lock cs : length (schedule_locked lock cs) = length cs.
Proof. revert lock. induction cs; intros; simpl; auto. Qed.

Lemma schedule_locked_call lock cs k s f :
  schedule_locked lock cs !! k = Some (s, f) ->
  exists c, cs !! k = Some c /\ arrival c <= s /\ f = s + duration c.
Proof.
  revert lock k. induction cs as [|c cs IH]; intros lock k H; [done|].
  destruct k as [|k]; simpl in H.
  - injection H as <- <-. exists c. split; [done|]. destruct lock; simpl; lia.
  - apply IH in H. done.
Qed.

Lemma schedule_locked_order lock cs i j si fi sj fj :
  Forall (fun c => 0 <= duration c) cs ->
  (i < j)%nat ->
  schedule_locked lock cs !! i = Some (si, fi) ->
  schedule_locked lock cs !! j = Some (sj, fj) ->
  fi + COOL_DOWN <= sj.
Proof.
  revert lock i j. induction cs as [|c cs IH]; intros lock i j Hd Hij Hi Hj; [done|].
  inversion Hd as [|? ? Hc Hcs]; subst.
  destruct i as [|i], j as [|j]; try lia; simpl in Hi, Hj.
  - injection Hi as <- <-.
    match type of Hj with
    | schedule_locked (Some ?R) _ !! _ = _ => pose proof (schedule_locked_after R cs Hcs) as Ha
    end.
    rewrite List.Forall_forall in Ha.
    apply (Ha (sj, fj)). apply list_elem_of_In. by eapply list_elem_of_lookup_2.
  - eapply IH; [exact Hcs| |exact Hi|exact Hj]. lia.
Qed.

(** C6, restricted to the lookupService that defines [withRdapLock].
    For every sequence of RDAP lookups with non-negative durations, from
    any mix of the two stages: each lookup gets one task slot that starts
    no earlier than the call and lasts its duration, and for any two
    lookups, the later one starts only after the earlier one's task ended
    and the 500 ms cool-down elapsed, so at most one task runs at a
    time. *)
Theorem rdap_lock_serializes (calls : list RdapCall)
    (Hd : Forall (fun c => 0 <= duration c) calls) :
  length (schedule_locked None calls) = length calls /\
  (forall k s f, schedule_locked None calls !! k = Some (s, f) ->
     exists c, calls !! k = Some c /\ arrival c <= s /\ f = s + duration c) /\
  (forall i j si fi sj fj, (i < j)%nat ->
     schedule_locked None calls !! i = Some (si, fi) ->
     schedule_locked None calls !! j = Some (sj, fj) ->
     fi + COOL_DOWN <= sj).
Proof.
  split; [apply schedule_locked_length|]. split.
  - intros k s f H. by eapply schedule_locked_call.
  - intros i j si fi sj fj Hij Hi Hj. by eapply schedule_locked_order.
Qed.

Lemma rdap_lock_serializes_witness :
  schedule_locked None [mkCall Dns 0 100; mkCall Rdap 0 100] = [(0, 100); (600, 700)] /\
  100 + COOL_DOWN <= 600.
Proof.
  split; [reflexivity|].
  apply (proj2 (proj2 (rdap_lock_serializes [mkCall Dns 0 100; mkCall Rdap 0 100]
           ltac:(repeat constructor; simpl; lia))) 0%nat 1%nat 0 100 600 700).
  - exact (Nat.lt_0_succ 0).
  - reflexivity.
  - reflexivity.
Defined.

(** C6 as stated fails: the other lookupService's [runRdapLookup] calls
    [fetch] directly, so a resolve-stage and a verify-stage lookup made at
    the same time run together. *)
Lemma rdap_lock_serializes_counterexample :
  ~ (forall (calls : list RdapCall) i j si fi sj fj,
       Forall (fun c => 0 <= duration c) calls -> (i < j)%nat ->
       schedule_unlocked calls !! i = Some (si, fi) ->
       schedule_unlocked calls !! j = Some (sj, fj) ->
       fi + COOL_DOWN <= sj).
Proof.
  intros H.
  specialize (H [mkCall Dns 0 100; mkCall Rdap 0 100] 0%nat 1%nat 0 100 0 100
               ltac:(repeat constructor; simpl; lia) ltac:(lia) eq_refl eq_refl).
  unfold COOL_DOWN in H. lia.
Qed.

(** ** Stopping a stage *)

Lemma runs_of_update_run c j R s : runs_of c (update_run c j R s) = <[j := R]> (runs_of c s).
Proof. by destruct c. Qed.

Lemma runs_of_set_refs c r s : runs_of c (set_refs r s) = runs_of c s.
Proof. by destruct c. Qed.

Lemma runs_of_set_msg c m s : runs_of c (set_msg m s) = runs_of c s.
Proof. by destruct c. Qed.

Lemma running_of_set_refs c r s : running_of c (set_refs r s) = running_of c s.
Proof. by destruct c. Qed.

Lemma running_of_set_msg c m s : running_of c (set_msg m s) = running_of c s.
Proof. by destruct c. Qed.

Lemma set_stop_twice c b r : set_stop c b (set_stop c b r) = set_stop c b r.
Proof. by destruct c, r. Qed.

Lemma refs_set_refs r s : refs (set_refs r s) = r.
Proof. reflexivity. Qed.

Lemma phase_of_update c j i R ph s :
  runs_of c s !! j = Some R -> workers R !! i = Some ph ->
  forall ph' n f,
  phase_of c j i (update_run c j (mkRun (<[i := ph']> (workers R)) n f) s) = Some ph'.
Proof.
  intros HR Hi ph' n f. unfold phase_of. rewrite runs_of_update_run.
  rewrite list_lookup_insert_eq by (eapply lookup_lt_Some; eauto). simpl.
  rewrite list_lookup_insert_eq by (eapply lookup_lt_Some; eauto). reflexivity.
Qed.

(** C9.  [stopChecker c] on a stage that is not running leaves the whole
    state unchanged; calling it twice is the same as calling it once; on a
    running stage it only sets that stage's stop flag and the status
    message.  A worker holding a claimed item (lookup pending or result
    written) always takes its next step, to the phase the code prescribes,
    whatever the stop flag; the flag is read only at the head and tail of
    the loop, where a stopped worker exits without claiming. *)
Theorem stop_idempotent_graceful (c : Checker) (s : Sys) :
  (running_of c s = false -> stopChecker c s = s) /\
  stopChecker c (stopChecker c s) = stopChecker c s /\
  (running_of c s = true ->
     stopChecker c s = set_msg (MsgStopRequested c) (set_refs (set_stop c true (refs s)) s)) /\
  (forall j i o ro now ph, phase_of c j i s = Some ph -> holding ph = true ->
     exists s', worker_step c j i o ro now s = Some s' /\ phase_of c j i s' = Some (next_phase ph)) /\
  (forall j i o ro now ph, phase_of c j i s = Some ph ->
     (ph = WHead \/ exists b, ph = WTail b) -> stop_of c (refs s) = true ->
     exists s', worker_step c j i o ro now s = Some s' /\ phase_of c j i s' = Some WDone /\
                refs s' = refs s).
Proof.
  split; [intros H; unfold stopChecker; by rewrite H|].
  split.
  { unfold stopChecker. destruct (running_of c s) eqn:Hr; simpl; [|by rewrite Hr].
    rewrite running_of_set_msg, running_of_set_refs, Hr. simpl.
    rewrite set_stop_twice. by destruct c. }
  split; [intros H; unfold stopChecker; by rewrite H|].
  split.
  - intros j i o ro now ph Hph Hh. unfold phase_of in Hph.
    destruct (runs_of c s !! j) as [R|] eqn:HR; [|done]. simpl in Hph.
    unfold worker_step. rewrite HR, Hph.
    destruct ph; try discriminate Hh; eexists; split; try reflexivity;
      simpl; try rewrite runs_of_set_msg; try rewrite runs_of_set_refs;
      eapply phase_of_update; eauto.
  - intros j i o ro now ph Hph Hk Hs. unfold phase_of in Hph.
    destruct (runs_of c s !! j) as [R|] eqn:HR; [|done]. simpl in Hph.
    unfold worker_step. rewrite HR, Hph.
    destruct Hk as [->|[b ->]]; rewrite Hs; eexists; (split; [reflexivity|]);
      (split; [eapply phase_of_update; eauto|]); by destruct c.
Qed.

(** ** Transport failures *)

(** C2, as the code has it.  A transport failure of the resolve-stage
    lookup writes status [unknown] and rdapStatus [not_checked], and the
    write-back appends no queue entry and adds nothing to either
    membership set.  A transport failure of the verify-stage lookup writes
    rdapStatus [unknown] and keeps the status; a record that was
    [available] stays verify-eligible, and the write-back puts its key
    back in the verify queue's membership set. *)
Theorem transport_failure_writeback (s : Refs) (r : DomainRecord) (now : Z) (ro : RdapOutcome) :
  let pd := runDnsLookup r now DnsFetchError ro in
  status pd = Unknown /\ rdapStatus pd = NotChecked /\
  queueRef (dnsRefs (upsertRecords s [pd])) = queueRef (dnsRefs s) /\
  queueRef (rdapRefs (upsertRecords s [pd])) = queueRef (rdapRefs s) /\
  queueSetRef (dnsRefs (upsertRecords s [pd])) ⊆ queueSetRef (dnsRefs s) /\
  queueSetRef (rdapRefs (upsertRecords s [pd])) ⊆ queueSetRef (rdapRefs s) /\
  let pr := runRdapOnly r now RdapFetchError in
  rdapStatus pr = RdapUnknown /\ status pr = status r /\
  (status r = Available ->
     isRdapCandidate pr = true /\ id r ∈ queueSetRef (rdapRefs (upsertRecords s [pr]))).
Proof.
  intros pd. simpl upsertRecords.
  assert (Hq : is_queued (status pd) = false) by reflexivity.
  assert (Hc : isRdapCandidate pd = false) by reflexivity.
  rewrite upsertOne_dns, upsertOne_rdap. unfold upd_dns, upd_rdap.
  rewrite Hq, Hc. change (id pd) with (id r).
  split; [reflexivity|]. split; [reflexivity|].
  split; [destruct (_ && _); reflexivity|].
  split; [destruct (_ && _); reflexivity|].
  split; [destruct (_ && _); simpl; set_solver|].
  split; [destruct (_ && _); simpl; set_solver|].
  set (pr := runRdapOnly r now RdapFetchError). split; [reflexivity|]. split; [reflexivity|].
  intros Ha. assert (Hpr : isRdapCandidate pr = true)
    by (unfold pr, isRdapCandidate; simpl; by rewrite Ha).
  split; [exact Hpr|].
  rewrite upsertOne_rdap. unfold upd_rdap. rewrite Hpr. apply addToQueue_member.
Qed.

(** C2 as stated fails: in a verify-stage run on a record [x] that is
    [available] with rdapStatus [not_checked], the lookup fails, the
    write-back re-enqueues [x], and the same worker claims [x] again for a
    second lookup. *)
Lemma transport_failure_counterexample :
  (run (hydrate [sample "x" Available NotChecked]) rdap_failure_trace
     ≫= fun s => phase_of Rdap 0 0 s)
  = Some (WRdapLookup 1 (mkRecord "x" "x.test" "x" Available RdapUnknown 0 (Some 2) Import)).
Proof. vm_compute. reflexivity. Qed.

(** ** Claiming *)

Lemma pop_loop_subset inflight index records q set res q' set' :
  pop_loop inflight index records q set = (res, q', set') -> set' ⊆ set.
Proof.
  revert set. induction q as [|k q IH]; intros set H; simpl in H; [by injection H as _ _ <-|].
  repeat case_decide; try (by apply IH).
  destruct (index !! k); [injection H as _ _ <-; set_solver|].
  apply IH in H. set_solver.
Qed.

Lemma pop_loop_some inflight index records q set r q' set' :
  pop_loop inflight index records q set = (Some r, q', set') ->
  exists k idx, k ∈ set /\ (k ∉ inflight) /\ index !! k = Some idx /\
    records !! idx = Some r /\ (k ∉ set') /\ set' ⊆ set.
Proof.
  revert set. induction q as [|k q IH]; intros set H; simpl in H; [done|].
  repeat case_decide; try (by apply IH).
  destruct (index !! k) as [idx|] eqn:Hk.
  - injection H as Hr _ <-. exists k, idx. repeat split; try done; set_solver.
  - apply IH in H as (k' & idx & ? & ? & ? & ? & ? & ?).
    exists k', idx. repeat split; try done; set_solver.
Qed.

Lemma stage_of_set_stage c c' st s :
  stage_of c (set_stage c' st s) = if decide (c = c') then st else stage_of c s.
Proof. by destruct c, c'. Qed.

(** What a successful [popCandidate] hands out, in a store whose index
    points at records with the indexed id. *)
Lemma popCandidate_some c s r s' :
  index_ok s -> popCandidate c s = (Some r, s') ->
  id r ∈ queueSetRef (stage_of c s) /\ (id r ∉ inFlight (stage_of c s)) /\
  find_rec s (id r) = Some r /\
  (id r ∉ queueSetRef (stage_of c s')) /\
  queueSetRef (stage_of c s') ⊆ queueSetRef (stage_of c s) /\
  inFlight (stage_of c s') = inFlight (stage_of c s) /\
  stopRequested (stage_of c s') = stopRequested (stage_of c s) /\
  (forall c', c' <> c -> stage_of c' s' = stage_of c' s) /\
  recordsRef s' = recordsRef s /\ indexRef s' = indexRef s /\ statsRef s' = statsRef s.
Proof.
  intros Hok. unfold popCandidate.
  destruct (pop_loop _ _ _ _ _) as [[res q] set] eqn:Hp. intros [= -> <-].
  apply pop_loop_some in Hp as (k & idx & Hin & Hnf & Hk & Hr & Hout & Hsub).
  destruct (Hok k idx Hk) as (r' & Hr' & Hid). rewrite Hr in Hr'. injection Hr' as <-. subst k.
  rewrite !stage_of_set_stage, decide_True by done. simpl.
  repeat split; try done.
  - unfold find_rec. by rewrite Hk.
  - intros c' Hc'. rewrite stage_of_set_stage, decide_False by done. reflexivity.
  - by destruct c.
  - by destruct c.
  - by destruct c.
Qed.

(** C1 (code_bug).  [handleClear] marks both stages idle at once while
    their workers are still running, and a new [startChecker] empties the
    in-flight set and clears the stop flag: the old pool keeps claiming
    next to the new one.  After this trace the resolve stage's in-flight
    set holds 51 keys, more than the pool size [BATCH_SIZE] of 50. *)
Theorem clear_restart_inflight_exceeds_pool :
  (run (hydrate []) clear_restart_trace ≫= fun s => Some (size (inFlight (dnsRefs (refs s)))))
  = Some 51%nat /\ (BATCH_SIZE < 51)%nat.
Proof. split; [vm_compute; reflexivity | unfold BATCH_SIZE; lia]. Qed.

(** ** Membership sets under store updates *)

Lemma addToQueue_elem st k x : x ∈ queueSetRef (addToQueue st k) <-> x = k \/ x ∈ queueSetRef st.
Proof. unfold addToQueue. case_decide; simpl; set_solver. Qed.

Lemma removeFromQueue_elem st k x : x ∈ queueSetRef (removeFromQueue st k) <-> x <> k /\ x ∈ queueSetRef st.
Proof. simpl. set_solver. Qed.

Lemma upd_dns_other prev item d x :
  x <> id item -> x ∈ queueSetRef (upd_dns prev item d) <-> x ∈ queueSetRef d.
Proof.
  intros Hx. unfold upd_dns.
  destruct (is_queued (status item)); [rewrite addToQueue_elem|];
    destruct (_ && _); rewrite ?removeFromQueue_elem; naive_solver.
Qed.

Lemma upd_rdap_other prev item d x :
  x <> id item -> x ∈ queueSetRef (upd_rdap prev item d) <-> x ∈ queueSetRef d.
Proof.
  intros Hx. unfold upd_rdap.
  destruct (isRdapCandidate item); [rewrite addToQueue_elem|];
    destruct (_ && _); rewrite ?removeFromQueue_elem; naive_solver.
Qed.

Lemma upd_dns_self prev item d :
  id item ∈ queueSetRef (upd_dns prev item d) <->
  is_queued (status item) = true \/
  (id item ∈ queueSetRef d /\ match prev with Some p => is_queued (status p) | None => false end = false).
Proof.
  unfold upd_dns. destruct (is_queued (status item)) eqn:Hq.
  - rewrite addToQueue_elem. naive_solver.
  - destruct prev as [p|]; [destruct (is_queued (status p))|]; cbn [andb negb];
      rewrite ?removeFromQueue_elem; naive_solver.
Qed.

Lemma upd_rdap_self prev item d :
  id item ∈ queueSetRef (upd_rdap prev item d) <->
  isRdapCandidate item = true \/
  (id item ∈ queueSetRef d /\ match prev with Some p => isRdapCandidate p | None => false end = false).
Proof.
  unfold upd_rdap. destruct (isRdapCandidate item) eqn:Hq.
  - rewrite addToQueue_elem. naive_solver.
  - destruct prev as [p|]; [destruct (isRdapCandidate p)|]; cbn [andb negb];
      rewrite ?removeFromQueue_elem; naive_solver.
Qed.

Lemma qset_upsertOne_other c s item x :
  x <> id item -> x ∈ qset c (upsertOne s item) <-> x ∈ qset c s.
Proof.
  intros Hx. unfold qset. rewrite upsertOne_stage.
  destruct c; [apply upd_dns_other | apply upd_rdap_other]; done.
Qed.

Lemma qset_upsertOne_sub c s item x :
  x ∈ qset c (upsertOne s item) -> x = id item \/ x ∈ qset c s.
Proof.
  destruct (decide (x = id item)) as [->|Hx]; [by left|].
  rewrite qset_upsertOne_other by done. by right.
Qed.

Lemma elem_of_insert_list {A} (l : list A) i (y x : A) : x ∈ <[i := y]> l -> x = y \/ x ∈ l.
Proof.
  intros Hx. apply list_elem_of_lookup in Hx as [n Hn].
  destruct (decide (n = i)) as [->|Hne].
  - destruct (decide (i < length l)%nat).
    + rewrite list_lookup_insert_eq in Hn by done. left. congruence.
    + rewrite list_insert_ge in Hn by lia. right. by eapply list_elem_of_lookup_2.
  - rewrite list_lookup_insert_ne in Hn by done. right. by eapply list_elem_of_lookup_2.
Qed.

Lemma records_upsertOne s item x :
  x ∈ recordsRef (upsertOne s item) -> x = item \/ x ∈ recordsRef s.
Proof.
  rewrite upsertOne_records. destruct (indexRef s !! id item).
  - apply elem_of_insert_list.
  - rewrite elem_of_app, list_elem_of_singleton. naive_solver.
Qed.

Lemma find_rec_in s k x : index_ok s -> find_rec s k = Some x -> x ∈ recordsRef s /\ id x = k.
Proof.
  intros Hok. unfold find_rec. destruct (indexRef s !! k) as [p|] eqn:Hk; [|done].
  intros Hx. destruct (Hok k p Hk) as (r & Hr & Hid). rewrite Hr in Hx. injection Hx as <-.
  split; [by eapply list_elem_of_lookup_2 | done].
Qed.

Lemma upsertOne_refs_inv s item :
  refs_inv s ->
  (find_rec s (id item) = None -> (id item ∉ qset Dns s) /\ (id item ∉ qset Rdap s)) ->
  refs_inv (upsertOne s item).
Proof.
  intros (Hok & HA & HB) Hpre. split; [by apply upsertOne_index_ok|]. split.
  - intros k x Hk Hx. rewrite upsertOne_find in Hx by done.
    case_decide as Heq; [injection Hx as <-; subst k|].
    + unfold qset in Hk. rewrite upsertOne_stage in Hk. simpl in Hk. apply upd_dns_self in Hk.
      destruct Hk as [?|[Hin Hp]]; [done|].
      destruct (find_rec s (id item)) as [p|] eqn:Hf.
      * by rewrite (HA _ _ Hin Hf) in Hp.
      * by destruct (Hpre eq_refl).
    + rewrite qset_upsertOne_other in Hk by done. by apply (HA k).
  - intros k x Hk Hx. rewrite upsertOne_find in Hx by done.
    case_decide as Heq; [injection Hx as <-; subst k|].
    + unfold qset in Hk. rewrite upsertOne_stage in Hk. simpl in Hk. apply upd_rdap_self in Hk.
      destruct Hk as [?|[Hin Hp]]; [done|].
      destruct (find_rec s (id item)) as [p|] eqn:Hf.
      * by rewrite (HB _ _ Hin Hf) in Hp.
      * by destruct (Hpre eq_refl).
    + rewrite qset_upsertOne_other in Hk by done. by apply (HB k).
Qed.

Lemma find_rec_same s s' k :
  recordsRef s' = recordsRef s -> indexRef s' = indexRef s -> find_rec s' k = find_rec s k.
Proof. intros Hr Hi. unfold find_rec. by rewrite Hr, Hi. Qed.

Lemma refs_inv_shrink s s' :
  refs_inv s -> recordsRef s' = recordsRef s -> indexRef s' = indexRef s ->
  qset Dns s' ⊆ qset Dns s -> qset Rdap s' ⊆ qset Rdap s -> refs_inv s'.
Proof.
  intros (Hok & HA & HB) Hr Hi HD HR. split; [|split].
  - intros k p Hk. rewrite Hi in Hk. rewrite Hr. by apply Hok.
  - intros k x Hk Hx. rewrite (find_rec_same s s' k) in Hx by done. apply (HA k); [set_solver|done].
  - intros k x Hk Hx. rewrite (find_rec_same s s' k) in Hx by done. apply (HB k); [set_solver|done].
Qed.

(** ** Worker phases under one update *)

Lemma runs_split (runs : list Run) j R :
  runs !! j = Some R ->
  concat (map workers runs) =
    concat (map workers (take j runs)) ++ workers R ++ concat (map workers (drop (S j) runs)) /\
  forall R', concat (map workers (<[j := R']> runs)) =
    concat (map workers (take j runs)) ++ workers R' ++ concat (map workers (drop (S j) runs)).
Proof.
  intros H. split.
  - rewrite <- (take_drop_middle runs j R H) at 1. by rewrite map_app, concat_app.
  - intros R'. rewrite insert_take_drop by (eapply lookup_lt_Some; eauto).
    by rewrite map_app, concat_app.
Qed.

Lemma phases_split (w : list WPhase) i ph :
  w !! i = Some ph ->
  w = take i w ++ ph :: drop (S i) w /\
  forall ph', <[i := ph']> w = take i w ++ ph' :: drop (S i) w.
Proof.
  intros H. split; [by rewrite take_drop_middle|].
  intros ph'. apply insert_take_drop. eapply lookup_lt_Some; eauto.
Qed.

Lemma all_phases_update c j i R ph s :
  runs_of c s !! j = Some R -> workers R !! i = Some ph ->
  exists L1 L2, all_phases s = L1 ++ ph :: L2 /\
    forall ph' n f, all_phases (update_run c j (mkRun (<[i := ph']> (workers R)) n f) s) = L1 ++ ph' :: L2.
Proof.
  intros HR Hi. destruct (phases_split _ _ _ Hi) as [Hw Hw'].
  unfold all_phases. destruct c; simpl in HR |- *.
  - destruct (runs_split _ _ _ HR) as [E E'].
    eexists (concat (map workers (take j (dnsRuns s))) ++ take i (workers R)),
            (drop (S i) (workers R) ++ concat (map workers (drop (S j) (dnsRuns s))) ++
             concat (map workers (rdapRuns s))).
    split.
    + rewrite map_app, concat_app, E. rewrite Hw at 1. by rewrite <- !app_assoc.
    + intros ph' n f. rewrite map_app, concat_app, E'. simpl. rewrite Hw'.
      by rewrite <- !app_assoc.
  - destruct (runs_split _ _ _ HR) as [E E'].
    eexists (concat (map workers (dnsRuns s)) ++ concat (map workers (take j (rdapRuns s))) ++
             take i (workers R)),
            (drop (S i) (workers R) ++ concat (map workers (drop (S j) (rdapRuns s)))).
    split.
    + rewrite map_app, concat_app, E. rewrite Hw at 1. by rewrite <- !app_assoc.
    + intros ph' n f. rewrite map_app, concat_app, E'. simpl. rewrite Hw'.
      by rewrite <- !app_assoc.
Qed.

Lemma holders_perm L1 ph L2 :
  omap lookup_rec (L1 ++ ph :: L2) ≡ₚ option_list (lookup_rec ph) ++ omap lookup_rec (L1 ++ L2).
Proof.
  rewrite !omap_app. simpl. destruct (lookup_rec ph); simpl; [|done].
  symmetry. apply Permutation_middle.
Qed.

Lemma elem_of_holders_split L1 ph L2 h :
  h ∈ omap lookup_rec (L1 ++ ph :: L2) <-> lookup_rec ph = Some h \/ h ∈ omap lookup_rec (L1 ++ L2).
Proof.
  rewrite (holders_perm L1 ph L2), elem_of_app.
  destruct (lookup_rec ph); simpl; rewrite ?list_elem_of_singleton; set_solver.
Qed.

Lemma refs_update_run c j R s : refs (update_run c j R s) = refs s.
Proof. by destruct c. Qed.
Lemma usedIds_update_run c j R s : usedIds (update_run c j R s) = usedIds s.
Proof. by destruct c. Qed.

(** Preservation of [Inv] by a step that changes one worker's phase. *)
Lemma Inv_frame s s' L1 L2 ph ph' :
  Inv s -> all_phases s = L1 ++ ph :: L2 -> all_phases s' = L1 ++ ph' :: L2 ->
  usedIds s' = usedIds s -> refs_inv (refs s') ->
  (forall h, h ∈ omap lookup_rec (L1 ++ L2) ->
     (id h ∉ qset Dns (refs s')) /\ (id h ∉ qset Rdap (refs s'))) ->
  (forall h, lookup_rec ph' = Some h ->
     (id h ∉ qset Dns (refs s')) /\ (id h ∉ qset Rdap (refs s')) /\ id h ∈ usedIds s /\
     id h ∉ map id (omap lookup_rec (L1 ++ L2))) ->
  (forall b r, ph' = WRdapLookup b r -> isRdapCandidate r = true) ->
  (forall c k, k ∈ qset c (refs s') -> k ∈ usedIds s) ->
  (forall x, x ∈ recordsRef (refs s') -> id x ∈ usedIds s) ->
  Inv s'.
Proof.
  intros [Hr Hh Hnd Hrd Hus Hur] E E' Hu Hr' Hold Hnew Hrd' Hus' Hur'.
  assert (Hsub : forall h, h ∈ omap lookup_rec (L1 ++ L2) -> h ∈ holders s).
  { intros h Hh'. unfold holders. rewrite E, elem_of_holders_split. by right. }
  constructor.
  - done.
  - intros h. unfold holders. rewrite E', elem_of_holders_split, Hu.
    intros [Hp|Hp].
    + destruct (Hnew h Hp) as (? & ? & ? & _). done.
    + destruct (Hold h Hp). split; [done|]. split; [done|]. apply (Hh h (Hsub h Hp)).
  - unfold holders in *. rewrite E' , (holders_perm L1 ph' L2), fmap_app.
    rewrite E, (holders_perm L1 ph L2), fmap_app in Hnd.
    apply NoDup_app in Hnd as (_ & _ & Hnd).
    destruct (lookup_rec ph') as [h|] eqn:Hp; simpl; [|done].
    apply NoDup_cons. split; [|done]. apply (Hnew h eq_refl).
  - intros b r. rewrite E', elem_of_app, elem_of_cons.
    intros [H|[H|H]]; [| by apply (Hrd' b r) |];
      apply (Hrd b); rewrite E, elem_of_app, elem_of_cons; auto.
  - intros c k. rewrite Hu. apply Hus'.
  - intros x. rewrite Hu. apply Hur'.
Qed.

Lemma qset_update_inflight c c' f r : qset c' (update_inflight c f r) = qset c' r.
Proof. by destruct c, c'. Qed.
Lemma records_update_inflight c f r : recordsRef (update_inflight c f r) = recordsRef r.
Proof. by destruct c. Qed.
Lemma index_update_inflight c f r : indexRef (update_inflight c f r) = indexRef r.
Proof. by destruct c. Qed.
Lemma find_update_inflight c f r k : find_rec (update_inflight c f r) k = find_rec r k.
Proof. apply find_rec_same; [apply records_update_inflight | apply index_update_inflight]. Qed.

Lemma qset_set_stop c c' b r : qset c' (set_stop c b r) = qset c' r.
Proof. by destruct c, c'. Qed.
Lemma records_set_stop c b r : recordsRef (set_stop c b r) = recordsRef r.
Proof. by destruct c. Qed.
Lemma index_set_stop c b r : indexRef (set_stop c b r) = indexRef r.
Proof. by destruct c. Qed.

Lemma qset_popCandidate c c' r : qset c' (popCandidate c r).2 ⊆ qset c' r.
Proof.
  unfold popCandidate, qset.
  destruct (pop_loop _ _ _ _ _) as [[res q] set] eqn:Hp. simpl.
  rewrite stage_of_set_stage. case_decide; [subst c'; simpl | done].
  by eapply pop_loop_subset.
Qed.

Lemma refs_inv_popCandidate c r : refs_inv r -> refs_inv (popCandidate c r).2.
Proof.
  intros H. destruct (popCandidate_store c r) as (Hr & Hi & _).
  apply (refs_inv_shrink r); try done; apply qset_popCandidate.
Qed.

Lemma refs_inv_update_inflight c f r : refs_inv r -> refs_inv (update_inflight c f r).
Proof.
  intros H. apply (refs_inv_shrink r); try done;
    rewrite ?records_update_inflight, ?index_update_inflight, ?qset_update_inflight; done.
Qed.

Lemma all_phases_set_msg m s : all_phases (set_msg m s) = all_phases s.
Proof. reflexivity. Qed.
Lemma all_phases_set_refs r s : all_phases (set_refs r s) = all_phases s.
Proof. reflexivity. Qed.

(** A step that changes one worker's phase between non-holding phases
    and only shrinks the membership sets. *)
Lemma Inv_frame_shrink s s' L1 L2 ph ph' :
  Inv s -> all_phases s = L1 ++ ph :: L2 -> all_phases s' = L1 ++ ph' :: L2 ->
  usedIds s' = usedIds s -> lookup_rec ph' = None ->
  recordsRef (refs s') = recordsRef (refs s) -> indexRef (refs s') = indexRef (refs s) ->
  (forall c, qset c (refs s') ⊆ qset c (refs s)) ->
  Inv s'.
Proof.
  intros HI E E' Hu Hph' Hr Hi Hq.
  assert (Hsub : forall h, h ∈ omap lookup_rec (L1 ++ L2) -> h ∈ holders s).
  { intros h Hh'. unfold holders. rewrite E, elem_of_holders_split. by right. }
  apply (Inv_frame s s' L1 L2 ph ph'); try done.
  - apply (refs_inv_shrink (refs s)); [apply HI|done|done|apply Hq|apply Hq].
  - intros h Hh. destruct (inv_hold s HI h (Hsub h Hh)) as (? & ? & _).
    pose proof (Hq Dns). pose proof (Hq Rdap). set_solver.
  - by rewrite Hph'.
  - by intros b r ->.
  - intros c k Hk. apply (inv_used_sets s HI c). by apply (Hq c).
  - intros x. rewrite Hr. apply (inv_used_recs s HI).
Qed.

(** A holder writing back the record of the key it holds. *)
Lemma Inv_frame_write s s' L1 L2 ph ph' h item :
  Inv s -> all_phases s = L1 ++ ph :: L2 -> all_phases s' = L1 ++ ph' :: L2 ->
  usedIds s' = usedIds s -> lookup_rec ph = Some h -> lookup_rec ph' = None ->
  refs s' = upsertOne (refs s) item -> id item = id h ->
  Inv s'.
Proof.
  intros HI E E' Hu Hph Hph' Hr Hid.
  assert (Hh : h ∈ holders s) by (unfold holders; rewrite E, elem_of_holders_split; by left).
  destruct (inv_hold s HI h Hh) as (HnD & HnR & Hused).
  assert (Hsub : forall h', h' ∈ omap lookup_rec (L1 ++ L2) -> h' ∈ holders s).
  { intros h' Hh'. unfold holders. rewrite E, elem_of_holders_split. by right. }
  assert (Hne : forall h', h' ∈ omap lookup_rec (L1 ++ L2) -> id h' <> id h).
  { intros h' Hh' Heq. pose proof (inv_nodup s HI) as Hnd. unfold holders in Hnd.
    rewrite E, (holders_perm L1 ph L2), Hph in Hnd. simpl in Hnd.
    apply NoDup_cons in Hnd as [Hn _]. apply Hn. rewrite <- Heq.
    by apply list_elem_of_fmap_2. }
  apply (Inv_frame s s' L1 L2 ph ph'); try done.
  - rewrite Hr. apply upsertOne_refs_inv; [apply HI|]. rewrite Hid. by intros _.
  - intros h' Hh'. destruct (inv_hold s HI h' (Hsub h' Hh')) as (? & ? & _).
    rewrite Hr, !qset_upsertOne_other by (rewrite Hid; by apply Hne). done.
  - by rewrite Hph'.
  - by intros b r ->.
  - intros c k. rewrite Hr. intros Hk. apply qset_upsertOne_sub in Hk as [->|Hk].
    + by rewrite Hid.
    + by apply (inv_used_sets s HI c).
  - intros x. rewrite Hr. intros Hx. apply records_upsertOne in Hx as [->|Hx].
    + by rewrite Hid.
    + by apply (inv_used_recs s HI).
Qed.

Lemma id_runDnsLookup r now o ro : id (runDnsLookup r now o ro) = id r.
Proof.
  unfold runDnsLookup. destruct o as [|st body]; [reflexivity|].
  destruct (negb (http_ok st)); [reflexivity|].
  destruct body as [|[code|]]; try reflexivity.
  destruct (code =? 3); [reflexivity|]. destruct (_ || _); reflexivity.
Qed.

Lemma id_runRdapOnly r now ro : id (runRdapOnly r now ro) = id r.
Proof. reflexivity. Qed.

Lemma queued_not_candidate x : is_queued (status x) = true -> isRdapCandidate x = false.
Proof. unfold isRdapCandidate. by destruct (status x). Qed.

Lemma Inv_worker_step c j i o ro now s s' :
  Inv s -> worker_step c j i o ro now s = Some s' -> Inv s'.
Proof.
  intros HI H. unfold worker_step in H.
  destruct (runs_of c s !! j) as [R|] eqn:HR; [|done].
  destruct (workers R !! i) as [ph|] eqn:Hi; [|done].
  destruct (all_phases_update c j i R ph s HR Hi) as (L1 & L2 & E & E').
  destruct (inv_refs s HI) as (Hok & HA & HB).
  assert (Hsub : forall h, h ∈ omap lookup_rec (L1 ++ L2) -> h ∈ holders s).
  { intros h Hh'. unfold holders. rewrite E, elem_of_holders_split. by right. }
  destruct ph as [| b r | b r | b r | b r | b |].
  - (* WHead *)
    destruct (stop_of c (refs s)) eqn:Hs.
    { injection H as <-.
      eapply (Inv_frame_shrink s _ L1 L2 _ WDone HI E); [apply E' | | | | | ];
        rewrite ?refs_update_run, ?usedIds_update_run; done. }
    destruct (popCandidate c (refs s)) as [[cand|] r1] eqn:Hp.
    2:{ injection H as <-.
        destruct (popCandidate_store c (refs s)) as (Hr1 & Hi1 & _). rewrite Hp in Hr1, Hi1.
        eapply (Inv_frame_shrink s _ L1 L2 _ (WTail (processedCount R)) HI E);
          [apply E' | | | | | ]; cbn [refs usedIds set_refs]; rewrite ?usedIds_update_run; try done.
        intros c'. pose proof (qset_popCandidate c c' (refs s)) as Hq. by rewrite Hp in Hq. }
    destruct (popCandidate_some c (refs s) cand r1 Hok Hp)
      as (Hin & Hnf & Hfind & Hout & Hsq & _ & _ & Hother & Hr1 & Hi1 & _).
    assert (Hq1 : forall c' x, x ∈ qset c' r1 -> x ∈ qset c' (refs s)).
    { intros c' x. pose proof (qset_popCandidate c c' (refs s)) as Hq. rewrite Hp in Hq. set_solver. }
    assert (Hused : id cand ∈ usedIds s) by (by apply (inv_used_sets s HI c)).
    assert (Hnh : id cand ∉ map id (omap lookup_rec (L1 ++ L2))).
    { intros Hc. apply list_elem_of_fmap in Hc as (h & Heq & Hh).
      destruct (inv_hold s HI h (Hsub h Hh)) as (HD & HR' & _).
      rewrite <- Heq in HD, HR'. destruct c; [apply HD | apply HR']; exact Hin. }
    destruct c.
    + (* claim for the resolve stage *)
      injection H as <-.
      set (r2 := update_inflight Dns (fun f => {[id cand]} ∪ f) r1).
      set (item := with_status cand Checking).
      assert (Hidi : id item = id cand) by reflexivity.
      assert (Hqd : is_queued (status cand) = true) by (apply (HA (id cand)); done).
      assert (HnR : id cand ∉ qset Rdap (refs s)).
      { intros Hc. pose proof (HB _ _ Hc Hfind) as Hc'. by rewrite queued_not_candidate in Hc'. }
      assert (Hf2 : find_rec r2 (id cand) = Some cand).
      { unfold r2. rewrite find_update_inflight, (find_rec_same (refs s) r1); done. }
      assert (Hq3 : forall c' x, x ∈ qset c' (upsertOne r2 item) -> x <> id cand /\ x ∈ qset c' (refs s)).
      { intros c' x Hx. destruct (decide (x = id cand)) as [->|Hne].
        - exfalso. unfold qset in Hx. rewrite upsertOne_stage, Hidi, Hf2 in Hx.
          destruct c'.
          + apply (proj1 (upd_dns_self (Some cand) item _)) in Hx as [Hx|[Hx _]]; [done|].
            unfold r2 in Hx. change (id cand ∈ qset Dns (update_inflight Dns (fun f => {[id cand]} ∪ f) r1)) in Hx.
            rewrite qset_update_inflight in Hx. done.
          + apply (proj1 (upd_rdap_self (Some cand) item _)) in Hx as [Hx|[Hx _]]; [done|].
            change (id cand ∈ qset Rdap r2) in Hx. unfold r2 in Hx.
            rewrite qset_update_inflight in Hx. apply HnR, Hq1. exact Hx.
        - split; [done|]. rewrite qset_upsertOne_other in Hx by done.
          unfold r2 in Hx. rewrite qset_update_inflight in Hx. by apply Hq1. }
      apply (Inv_frame s _ L1 L2 WHead (WDnsLookup (processedCount R) cand) HI E);
        [apply E' | (cbn [usedIds set_refs set_msg]; rewrite ?usedIds_update_run; reflexivity) | | | | | | ].
      * change (refs_inv (upsertOne r2 item)). apply upsertOne_refs_inv.
        -- apply refs_inv_update_inflight.
           pose proof (refs_inv_popCandidate Dns (refs s) (inv_refs s HI)) as Hinv.
           by rewrite Hp in Hinv.
        -- rewrite Hidi, Hf2. done.
      * intros h Hh. destruct (inv_hold s HI h (Hsub h Hh)) as (HD & HR' & _). simpl.
        split; intros Hc; apply Hq3 in Hc as [_ Hc]; done.
      * intros h [= <-]. simpl. split; [|split; [|split]]; try done;
          intros Hc; apply Hq3 in Hc as [Hc _]; done.
      * done.
      * intros c' k Hk. apply (inv_used_sets s HI c'). by apply (Hq3 c' k).
      * intros x Hx. change (x ∈ recordsRef (upsertOne r2 item)) in Hx.
        apply records_upsertOne in Hx as [->|Hx]; [done|].
        unfold r2 in Hx. rewrite records_update_inflight, Hr1 in Hx. by apply (inv_used_recs s HI).
    + (* claim for the verify stage *)
      injection H as <-.
      set (r2 := update_inflight Rdap (fun f => {[id cand]} ∪ f) r1).
      assert (Hcand : isRdapCandidate cand = true) by (apply (HB (id cand)); done).
      assert (HnD : id cand ∉ qset Dns (refs s)).
      { intros Hc. pose proof (HA _ _ Hc Hfind) as Hc'.
        by rewrite (queued_not_candidate cand Hc') in Hcand. }
      assert (Hq2 : forall c' x, x ∈ qset c' r2 -> x ∈ qset c' (refs s)).
      { intros c' x. unfold r2. rewrite qset_update_inflight. apply Hq1. }
      apply (Inv_frame s _ L1 L2 WHead (WRdapLookup (processedCount R) cand) HI E);
        [apply E' | (cbn [usedIds set_refs set_msg]; rewrite ?usedIds_update_run; reflexivity) | | | | | | ].
      * change (refs_inv r2). apply refs_inv_update_inflight.
        pose proof (refs_inv_popCandidate Rdap (refs s) (inv_refs s HI)) as Hinv.
        by rewrite Hp in Hinv.
      * intros h Hh. destruct (inv_hold s HI h (Hsub h Hh)) as (HD & HR' & _). simpl.
        split; intros Hc; apply Hq2 in Hc; done.
      * intros h [= <-]. split; [|split; [|split]].
        -- intros Hc. apply HnD. exact (Hq2 Dns _ Hc).
        -- change (id cand ∉ qset Rdap r2). unfold r2. rewrite qset_update_inflight. exact Hout.
        -- exact Hused.
        -- exact Hnh.
      * by intros b r [= _ <-].
      * intros c' k Hk. apply (inv_used_sets s HI c'). by apply (Hq2 c' k).
      * intros x Hx. change (x ∈ recordsRef r2) in Hx. unfold r2 in Hx.
        rewrite records_update_inflight, Hr1 in Hx. by apply (inv_used_recs s HI).
  - (* WDnsLookup *)
    injection H as <-.
    eapply (Inv_frame_write s _ L1 L2 _ (WDnsWritten b r) r _ HI E);
      [apply E' | (cbn [usedIds set_refs set_msg]; rewrite ?usedIds_update_run; reflexivity) | reflexivity | reflexivity | reflexivity | ].
    rewrite id_runDnsLookup. reflexivity.
  - (* WDnsWritten *)
    injection H as <-.
    eapply (Inv_frame_shrink s _ L1 L2 _ (WTail b) HI E); [apply E' | | | | | ];
      cbn [refs usedIds set_refs set_msg]; rewrite ?usedIds_update_run; try done;
      rewrite ?records_update_inflight, ?index_update_inflight; try done.
    intros c'. rewrite qset_update_inflight. done.
  - (* WRdapLookup *)
    injection H as <-.
    eapply (Inv_frame_write s _ L1 L2 _ (WRdapWritten b r) r _ HI E);
      [apply E' | (cbn [usedIds set_refs set_msg]; rewrite ?usedIds_update_run; reflexivity) | reflexivity | reflexivity | reflexivity | ].
    reflexivity.
  - (* WRdapWritten *)
    injection H as <-.
    eapply (Inv_frame_shrink s _ L1 L2 _ (WTail b) HI E); [apply E' | | | | | ];
      cbn [refs usedIds set_refs set_msg]; rewrite ?usedIds_update_run; try done;
      rewrite ?records_update_inflight, ?index_update_inflight; try done.
    intros c'. rewrite qset_update_inflight. done.
  - (* WTail *)
    destruct (stop_of c (refs s)); [|destruct (_ || _)]; injection H as <-;
      [eapply (Inv_frame_shrink s _ L1 L2 _ WDone HI E)
      |eapply (Inv_frame_shrink s _ L1 L2 _ WHead HI E)
      |eapply (Inv_frame_shrink s _ L1 L2 _ WDone HI E)];
      [apply E' | | | | | | apply E' | | | | | | apply E' | | | | | ];
      rewrite ?refs_update_run, ?usedIds_update_run; done.
  - done.
Qed.

(** ** The other actions *)

Lemma all_phases_update_same c j R R' s :
  runs_of c s !! j = Some R -> workers R' = workers R ->
  all_phases (update_run c j R' s) = all_phases s.
Proof.
  intros HR Hw. unfold all_phases. destruct c; simpl in *;
    destruct (runs_split _ _ _ HR) as [E E']; rewrite !map_app, !concat_app, E', Hw, <- E; done.
Qed.

Lemma all_phases_set_running c b s : all_phases (set_running c b s) = all_phases s.
Proof. by destruct c. Qed.

Lemma all_phases_append c R s :
  exists L1 L2, all_phases s = L1 ++ L2 /\
    all_phases (set_runs c (runs_of c s ++ [R]) s) = L1 ++ workers R ++ L2.
Proof.
  unfold all_phases. destruct c; simpl.
  - exists (concat (map workers (dnsRuns s))), (concat (map workers (rdapRuns s))).
    rewrite !map_app, !concat_app. simpl. by rewrite app_nil_r, <- app_assoc.
  - exists (concat (map workers (dnsRuns s ++ rdapRuns s))), [].
    rewrite app_nil_r. split; [done|].
    rewrite ?app_assoc, !map_app, !concat_app. simpl. rewrite ?app_nil_r, ?map_app, ?concat_app. done.
Qed.

Lemma omap_repeat_head n : omap lookup_rec (repeat WHead n) = [].
Proof. induction n; simpl; auto. Qed.

(** Preservation by a step that adds or keeps only non-holding phases,
    keeps the used ids, and only shrinks the sets and the records. *)
Lemma Inv_frame_gen s s' :
  Inv s -> holders s' = holders s ->
  (forall b r, WRdapLookup b r ∈ all_phases s' -> WRdapLookup b r ∈ all_phases s) ->
  usedIds s' = usedIds s -> refs_inv (refs s') ->
  (forall c, qset c (refs s') ⊆ qset c (refs s)) ->
  (forall x, x ∈ recordsRef (refs s') -> x ∈ recordsRef (refs s)) ->
  Inv s'.
Proof.
  intros HI Hh Hrd Hu Hr Hq Hrec. constructor.
  - done.
  - intros h. rewrite Hh, Hu. intros Hin. destruct (inv_hold s HI h Hin) as (? & ? & ?).
    pose proof (Hq Dns). pose proof (Hq Rdap). set_solver.
  - rewrite Hh. apply HI.
  - intros b r H. apply (inv_rdap_hold s HI b r). by apply Hrd.
  - intros c k Hk. rewrite Hu. apply (inv_used_sets s HI c). by apply (Hq c).
  - intros x Hx. rewrite Hu. apply (inv_used_recs s HI). by apply Hrec.
Qed.

Lemma refs_inv_clear r : refs_inv (clearRefs r).
Proof.
  split; [|split].
  - intros k p H. simpl in H. by rewrite lookup_empty in H.
  - intros k x _ H. unfold find_rec in H. simpl in H. by rewrite lookup_empty in H.
  - intros k x _ H. unfold find_rec in H. simpl in H. by rewrite lookup_empty in H.
Qed.

Lemma Inv_start c s : Inv s -> Inv (startChecker c s).
Proof.
  intros HI. unfold startChecker. destruct (running_of c s); [done|].
  set (R0 := mkRun (repeat WHead BATCH_SIZE) 0 false).
  destruct (all_phases_append c R0 s) as (L1 & L2 & E & E').
  apply (Inv_frame_gen s); try done.
  - unfold holders. rewrite all_phases_set_msg, all_phases_set_running, all_phases_set_refs, E', E.
    rewrite !omap_app. unfold R0. cbn [workers]. by rewrite omap_repeat_head.
  - intros b r. rewrite all_phases_set_msg, all_phases_set_running, all_phases_set_refs, E', E.
    rewrite !elem_of_app. intros [H|[H|H]]; auto.
    unfold R0 in H. cbn [workers] in H. apply list_elem_of_In, repeat_spec in H. done.
  - by destruct c.
  - destruct c; simpl; apply (refs_inv_shrink (refs s)); try done; apply HI.
  - intros c'. destruct c, c'; done.
  - intros x. by destruct c.
Qed.

Lemma Inv_stop c s : Inv s -> Inv (stopChecker c s).
Proof.
  intros HI. unfold stopChecker. destruct (running_of c s); [|done].
  apply (Inv_frame_gen s); try done.
  - simpl. apply (refs_inv_shrink (refs s)); [apply HI| | | |];
      rewrite ?records_set_stop, ?index_set_stop, ?qset_set_stop; done.
  - intros c'. simpl. by rewrite qset_set_stop.
  - intros x. simpl. by rewrite records_set_stop.
Qed.

Lemma Inv_clear s : Inv s -> Inv (handleClear s).
Proof.
  intros HI. apply (Inv_frame_gen s); try done; try apply refs_inv_clear.
  - intros c. by destruct c.
  - intros x Hx. simpl in Hx. by apply elem_of_nil in Hx.
Qed.

Lemma Inv_finish c j s s' : Inv s -> finishRun c j s = Some s' -> Inv s'.
Proof.
  intros HI H. unfold finishRun in H.
  destruct (runs_of c s !! j) as [R|] eqn:HR; [|done].
  destruct (finished R); [done|]. destruct (forallb _ _); [|done]. injection H as <-.
  assert (E : all_phases (update_run c j (mkRun (workers R) (processedCount R) true) s) = all_phases s)
    by (by apply all_phases_update_same with R).
  apply (Inv_frame_gen s); try done.
  - unfold holders. by rewrite all_phases_set_msg, all_phases_set_running, all_phases_set_refs, E.
  - intros b r. by rewrite all_phases_set_msg, all_phases_set_running, all_phases_set_refs, E.
  - destruct c; simpl; rewrite ?usedIds_update_run; reflexivity.
  - destruct c; cbn [refs set_refs set_msg set_running]; rewrite ?refs_update_run;
      (apply (refs_inv_shrink (refs s)); [apply HI| | | |];
       rewrite ?records_set_stop, ?index_set_stop, ?qset_set_stop; done).
  - intros c'. destruct c; cbn [refs set_refs set_msg set_running]; rewrite ?refs_update_run;
      rewrite ?qset_set_stop; done.
  - intros x. destruct c; cbn [refs set_refs set_msg set_running]; rewrite ?refs_update_run;
      rewrite ?records_set_stop; done.
Qed.

Lemma upsertRecords_fresh r us :
  refs_inv r -> NoDup (map id us) ->
  (forall u, u ∈ us -> (id u ∉ qset Dns r) /\ (id u ∉ qset Rdap r)) ->
  refs_inv (upsertRecords r us) /\
  (forall c k, k ∉ map id us -> (k ∈ qset c (upsertRecords r us) <-> k ∈ qset c r)) /\
  (forall c k, k ∈ qset c (upsertRecords r us) -> k ∈ qset c r \/ k ∈ map id us) /\
  (forall x, x ∈ recordsRef (upsertRecords r us) -> x ∈ recordsRef r \/ x ∈ us).
Proof.
  revert r. induction us as [|u us IH]; intros r Hr Hnd Hf.
  - split; [done|]. split; [done|]. split; intros; auto.
  - simpl in Hnd. apply NoDup_cons in Hnd as [Hnu Hnd].
    change (upsertRecords r (u :: us)) with (upsertRecords (upsertOne r u) us).
    assert (Hr1 : refs_inv (upsertOne r u)).
    { apply upsertOne_refs_inv; [done|]. intros _. apply Hf. apply elem_of_cons. by left. }
    edestruct (IH (upsertOne r u)) as (H1 & H2 & H3 & H4); [done|done| |].
    { intros v Hv. assert (Hne : id v <> id u).
      { intros E. apply Hnu. rewrite <- E. by apply list_elem_of_fmap_2. }
      rewrite !qset_upsertOne_other by done. apply Hf. apply elem_of_cons. by right. }
    split; [done|]. split; [|split].
    + intros c k Hk. simpl in Hk. apply not_elem_of_cons in Hk as [Hk1 Hk2].
      rewrite H2 by done. by apply qset_upsertOne_other.
    + intros c k Hk. apply H3 in Hk as [Hk|Hk].
      * apply qset_upsertOne_sub in Hk as [->|Hk]; [right; simpl; apply elem_of_cons; by left|by left].
      * right. simpl. apply elem_of_cons. by right.
    + intros x Hx. apply H4 in Hx as [Hx|Hx].
      * apply records_upsertOne in Hx as [->|Hx]; [right; apply elem_of_cons; by left|by left].
      * right. apply elem_of_cons. by right.
Qed.

Lemma Inv_set_msg m s : Inv s -> Inv (set_msg m s).
Proof. intros []. constructor; done. Qed.

Lemma Inv_enqueue es ks now s s' : Inv s -> enqueueDomains es ks now s = Some s' -> Inv s'.
Proof.
  intros HI H. unfold enqueueDomains in H.
  destruct (build_new _ es ks now) as [toAdd|]; [|done].
  destruct (decide _) as [[Hnd Hfr]|]; [|done].
  assert (Hs : s' = set_msg MsgNoNew s \/
               s' = mkSys (upsertRecords (refs s) toAdd) (dnsRuns s) (rdapRuns s)
                      (runningDns s) (runningRdap s) (MsgAdded (length toAdd))
                      (list_to_set (map id toAdd) ∪ usedIds s))
    by (destruct toAdd; injection H as <-; auto).
  clear H. destruct Hs as [-> | ->]; [by apply Inv_set_msg|].
  assert (Hnew : forall k, k ∈ map id toAdd -> k ∉ usedIds s).
  { intros k Hk. rewrite List.Forall_forall in Hfr. apply Hfr. by apply list_elem_of_In. }
  destruct (upsertRecords_fresh (refs s) toAdd) as (H1 & H2 & H3 & H4); [apply HI|done| |].
  { intros u Hu. assert (Hk := Hnew (id u) (list_elem_of_fmap_2 id _ _ Hu)).
    split; intros Hin; apply Hk; exact (inv_used_sets s HI _ _ Hin). }
  constructor.
  - exact H1.
  - intros h Hh. destruct (inv_hold s HI h Hh) as (Ha & Hb & Hc).
    assert (Hn : id h ∉ map id toAdd) by (intros Hin; exact (Hnew _ Hin Hc)).
    cbn [refs usedIds]. rewrite !H2 by done. split; [done|]. split; [done|]. set_solver.
  - apply HI.
  - apply HI.
  - intros c k Hk. cbn [refs usedIds] in *. apply H3 in Hk as [Hk|Hk].
    + pose proof (inv_used_sets s HI c k Hk). set_solver.
    + rewrite elem_of_union, elem_of_list_to_set. by left.
  - intros x Hx. cbn [refs usedIds] in *. apply H4 in Hx as [Hx|Hx].
    + pose proof (inv_used_recs s HI x Hx). set_solver.
    + rewrite elem_of_union, elem_of_list_to_set. left. by apply list_elem_of_fmap_2.
Qed.

Lemma Inv_step s a s' : Inv s -> step s a = Some s' -> Inv s'.
Proof.
  intros HI H. destruct a; simpl in H.
  - by apply (Inv_enqueue entries0 ids now s).
  - injection H as <-. by apply Inv_start.
  - injection H as <-. by apply Inv_stop.
  - injection H as <-. by apply Inv_clear.
  - by apply (Inv_worker_step c j i o ro now s).
  - by apply (Inv_finish c j s).
Qed.

Lemma Inv_run s acts s' : Inv s -> run s acts = Some s' -> Inv s'.
Proof.
  revert s. induction acts as [|a acts IH]; intros s HI H; simpl in H.
  - by injection H as <-.
  - destruct (step s a) as [s1|] eqn:E; [|done]. apply (IH s1); [|done].
    by apply (Inv_step s a).
Qed.

Lemma run_app s acts1 acts2 :
  run s (acts1 ++ acts2) = run s acts1 ≫= fun s1 => run s1 acts2.
Proof.
  revert s. induction acts1 as [|a acts1 IH]; intros s; simpl; [done|].
  destruct (step s a); [apply IH|done].
Qed.

Lemma load_qsets s items k :
  (k ∈ qset Dns (loadRecords s items) <->
     k ∈ queueSetRef (dnsRefs s) \/ exists x, x ∈ items /\ is_queued (status x) = true /\ id x = k) /\
  (k ∈ qset Rdap (loadRecords s items) <->
     k ∈ queueSetRef (rdapRefs s) \/ exists x, x ∈ items /\ isRdapCandidate x = true /\ id x = k).
Proof.
  revert s. induction items as [|x items IH]; intros s.
  - split; split; try (intros H; by left);
      intros [H|(? & H & _)]; [done|by apply elem_of_nil in H|done|by apply elem_of_nil in H].
  - set (s1 := mkRefs [] ∅ zeroStats
                 (if is_queued (status x) then addToQueue (dnsRefs s) (id x) else dnsRefs s)
                 (if isRdapCandidate x then addToQueue (rdapRefs s) (id x) else rdapRefs s)).
    change (qset Dns (loadRecords s (x :: items))) with (qset Dns (loadRecords s1 items)).
    change (qset Rdap (loadRecords s (x :: items))) with (qset Rdap (loadRecords s1 items)).
    destruct (IH s1) as [E1 E2]. rewrite E1, E2. unfold s1; cbn [dnsRefs rdapRefs].
    split; split.
    + intros [Hk|(y & Hy & Hyq & <-)]; [|right; exists y; split; [by apply elem_of_cons; right|done]].
      destruct (is_queued (status x)) eqn:Hq; [apply addToQueue_elem in Hk as [->|Hk]|].
      * right. exists x. split; [apply elem_of_cons; by left|done].
      * by left.
      * by left.
    + intros [Hk|(y & Hy & Hyq & <-)].
      * left. destruct (is_queued _); [apply addToQueue_elem; by right|done].
      * apply elem_of_cons in Hy as [->|Hy].
        -- left. rewrite Hyq. apply addToQueue_elem. by left.
        -- right. by exists y.
    + intros [Hk|(y & Hy & Hyq & <-)]; [|right; exists y; split; [by apply elem_of_cons; right|done]].
      destruct (isRdapCandidate x) eqn:Hq; [apply addToQueue_elem in Hk as [->|Hk]|].
      * right. exists x. split; [apply elem_of_cons; by left|done].
      * by left.
      * by left.
    + intros [Hk|(y & Hy & Hyq & <-)].
      * left. destruct (isRdapCandidate x); [apply addToQueue_elem; by right|done].
      * apply elem_of_cons in Hy as [->|Hy].
        -- left. rewrite Hyq. apply addToQueue_elem. by left.
        -- right. by exists y.
Qed.

Lemma NoDup_map_id_inj (l : list DomainRecord) x y :
  NoDup (map id l) -> x ∈ l -> y ∈ l -> id x = id y -> x = y.
Proof.
  induction l as [|z l IH]; intros Hnd Hx Hy E; [by apply elem_of_nil in Hx|].
  simpl in Hnd. apply NoDup_cons in Hnd as [Hz Hnd].
  apply elem_of_cons in Hx as [->|Hx]; apply elem_of_cons in Hy as [->|Hy]; auto.
  - exfalso. apply Hz. rewrite E. by apply list_elem_of_fmap_2.
  - exfalso. apply Hz. rewrite <- E. by apply list_elem_of_fmap_2.
Qed.

Lemma Inv_hydrate items : NoDup (map id items) -> Inv (hydrate items).
Proof.
  intros Hnd. assert (Hok : index_ok (loadRecords initRefs items)).
  { intros k p H. exact (build_index_ok items k p H). }
  constructor.
  - split; [done|]. split.
    + intros k x Hk Hx. apply (proj1 (load_qsets initRefs items k)) in Hk as [Hk|(y & Hy & Hyq & <-)];
        [simpl in Hk; set_solver|].
      destruct (find_rec_in _ _ _ Hok Hx) as [Hxin Hid].
      by rewrite (NoDup_map_id_inj items x y Hnd Hxin Hy Hid).
    + intros k x Hk Hx. apply (proj2 (load_qsets initRefs items k)) in Hk as [Hk|(y & Hy & Hyq & <-)];
        [simpl in Hk; set_solver|].
      destruct (find_rec_in _ _ _ Hok Hx) as [Hxin Hid].
      by rewrite (NoDup_map_id_inj items x y Hnd Hxin Hy Hid).
  - intros h Hh. unfold holders, all_phases in Hh. simpl in Hh. by apply elem_of_nil in Hh.
  - unfold holders, all_phases. simpl. constructor.
  - intros b r Hh. unfold all_phases in Hh. simpl in Hh. by apply elem_of_nil in Hh.
  - intros c k Hk. cbn [refs usedIds hydrate]. rewrite elem_of_list_to_set.
    assert (exists y, y ∈ items /\ id y = k) as (y & Hy & <-).
    { destruct c; [apply (proj1 (load_qsets initRefs items k)) in Hk
                  |apply (proj2 (load_qsets initRefs items k)) in Hk];
        destruct Hk as [Hk|(y & Hy & _ & <-)]; [simpl in Hk; set_solver|eauto|simpl in Hk; set_solver|eauto]. }
    by apply list_elem_of_fmap_2.
  - intros x Hx. cbn [refs usedIds hydrate]. rewrite elem_of_list_to_set.
    by apply list_elem_of_fmap_2.
Qed.

Lemma reachable_Inv s : reachable s -> Inv s.
Proof.
  intros (items & acts & Hnd & Hr). apply (Inv_run (hydrate items) acts); [|done].
  by apply Inv_hydrate.
Qed.

Lemma reachable_step s a s' : reachable s -> step s a = Some s' -> reachable s'.
Proof.
  intros (items & acts & Hnd & Hr) H. exists items, (acts ++ [a]). split; [done|].
  rewrite run_app, Hr. simpl. by rewrite H.
Qed.

Lemma reachable_run s acts s' : reachable s -> run s acts = Some s' -> reachable s'.
Proof.
  intros (items & acts0 & Hnd & Hr) H. exists items, (acts0 ++ acts). split; [done|].
  by rewrite run_app, Hr.
Qed.

(** ** Idle keys *)

Lemma find_upsertRecords_other r us k :
  index_ok r -> k ∉ map id us -> find_rec (upsertRecords r us) k = find_rec r k.
Proof.
  revert r. induction us as [|u us IH]; intros r Hok Hk; [done|].
  simpl in Hk. apply not_elem_of_cons in Hk as [Hk1 Hk2].
  change (upsertRecords r (u :: us)) with (upsertRecords (upsertOne r u) us).
  rewrite IH; [|by apply upsertOne_index_ok|done]. rewrite upsertOne_find by done.
  by rewrite decide_False.
Qed.

Lemma holders_start c s : holders (startChecker c s) = holders s.
Proof.
  unfold startChecker. destruct (running_of c s); [done|].
  destruct (all_phases_append c (mkRun (repeat WHead BATCH_SIZE) 0 false) s) as (L1 & L2 & E & E').
  unfold holders. rewrite all_phases_set_msg, all_phases_set_running, all_phases_set_refs, E', E, !omap_app.
  cbn [workers]. by rewrite omap_repeat_head.
Qed.

Lemma holders_finish c j s s' : finishRun c j s = Some s' -> holders s' = holders s.
Proof.
  intros H. unfold finishRun in H.
  destruct (runs_of c s !! j) as [R|] eqn:HR; [|done].
  destruct (finished R); [done|]. destruct (forallb _ _); [|done]. injection H as <-.
  unfold holders. rewrite all_phases_set_msg, all_phases_set_running, all_phases_set_refs.
  by rewrite (all_phases_update_same c j R).
Qed.

Lemma idle_holders s s' L1 L2 ph ph' k :
  all_phases s = L1 ++ ph :: L2 -> all_phases s' = L1 ++ ph' :: L2 ->
  k ∉ map id (holders s) -> (forall h, lookup_rec ph' = Some h -> id h <> k) ->
  k ∉ map id (holders s').
Proof.
  intros E E' Hk Hph' Hin. apply list_elem_of_fmap in Hin as (h & -> & Hh).
  unfold holders in Hh. rewrite E', elem_of_holders_split in Hh.
  destruct Hh as [Hh|Hh]; [by apply (Hph' h)|].
  apply Hk. apply list_elem_of_fmap_2. unfold holders. rewrite E, elem_of_holders_split. by right.
Qed.

Lemma idle_holder_ne s L1 L2 ph k h :
  all_phases s = L1 ++ ph :: L2 -> k ∉ map id (holders s) -> lookup_rec ph = Some h -> id h <> k.
Proof.
  intros E Hk Hh <-. apply Hk. apply list_elem_of_fmap_2. unfold holders.
  rewrite E, elem_of_holders_split. by left.
Qed.

Lemma find_upsertOne_other r item k :
  index_ok r -> k <> id item -> find_rec (upsertRecords r [item]) k = find_rec r k.
Proof.
  intros Hok Hk. apply find_upsertRecords_other; [done|].
  simpl. rewrite elem_of_cons. intros [H|H]; [done|by apply elem_of_nil in H].
Qed.

Lemma qset_upsert1_other c r item k :
  k <> id item -> k ∈ qset c (upsertRecords r [item]) <-> k ∈ qset c r.
Proof. apply qset_upsertOne_other. Qed.

Lemma idle_worker_step c j i o ro now s s' k :
  Inv s -> idle s k -> worker_step c j i o ro now s = Some s' ->
  idle s' k /\ find_rec (refs s') k = find_rec (refs s) k.
Proof.
  intros HI Hidle H. unfold idle in *. destruct Hidle as (Hk1 & Hk2 & Hk3 & Hk4).
  unfold worker_step in H.
  destruct (runs_of c s !! j) as [R|] eqn:HR; [|done].
  destruct (workers R !! i) as [ph|] eqn:Hi; [|done].
  destruct (all_phases_update c j i R ph s HR Hi) as (L1 & L2 & E & E').
  destruct (inv_refs s HI) as (Hok & HA & HB).
  assert (Hnone : forall ph', lookup_rec ph' = None -> forall h, lookup_rec ph' = Some h -> id h <> k)
    by congruence.
  destruct ph as [| b r | b r | b r | b r | b |].
  - (* WHead *)
    destruct (stop_of c (refs s)) eqn:Hs.
    { injection H as <-. rewrite refs_update_run. split; [|done].
      split; [done|]. split; [done|]. split.
      - eapply idle_holders; [exact E|apply E'|done|by apply Hnone].
      - by rewrite usedIds_update_run. }
    destruct (popCandidate c (refs s)) as [[cand|] r1] eqn:Hp.
    2:{ injection H as <-.
        destruct (popCandidate_store c (refs s)) as (Hr1 & Hi1 & _). rewrite Hp in Hr1, Hi1.
        pose proof (qset_popCandidate c Dns (refs s)) as HqD.
        pose proof (qset_popCandidate c Rdap (refs s)) as HqR. rewrite Hp in HqD, HqR.
        cbn [refs set_refs]. split; [|by apply find_rec_same].
        split; [set_solver|]. split; [set_solver|]. split.
        - eapply idle_holders; [exact E|apply E'|done|by apply Hnone].
        - cbn [usedIds set_refs]. by rewrite usedIds_update_run. }
    destruct (popCandidate_some c (refs s) cand r1 Hok Hp)
      as (Hin & _ & _ & _ & Hsq & _ & _ & Hother & Hr1 & Hi1 & _).
    pose proof (qset_popCandidate c Dns (refs s)) as HqD.
    pose proof (qset_popCandidate c Rdap (refs s)) as HqR. rewrite Hp in HqD, HqR.
    assert (Hne : id cand <> k).
    { intros <-. destruct c; [apply Hk1|apply Hk2]; exact Hin. }
    assert (Hf1 : find_rec r1 k = find_rec (refs s) k) by (by apply find_rec_same).
    destruct c.
    + set (r2 := update_inflight Dns (fun f => {[id cand]} ∪ f) r1).
      assert (Hs' : s' = set_refs (upsertRecords r2 [with_status cand Checking])
        (update_run Dns j (mkRun (<[i := WDnsLookup (processedCount R) cand]> (workers R))
                                 (processedCount R) (finished R)) s))
        by (injection H; intros <-; reflexivity).
      clear H. subst s'.
      assert (Hok2 : index_ok r2).
      { intros k' p Hp'. unfold r2 in *. rewrite index_update_inflight, Hi1 in Hp'.
        rewrite records_update_inflight, Hr1. by apply Hok. }
      cbn [refs set_refs]. split.
      * split; [|split; [|split]].
        -- rewrite qset_upsert1_other by done. unfold r2. rewrite qset_update_inflight. set_solver.
        -- rewrite qset_upsert1_other by done. unfold r2. rewrite qset_update_inflight. set_solver.
        -- eapply idle_holders; [exact E|apply E'|done|]. intros h [= <-]. done.
        -- cbn [usedIds set_refs]. by rewrite usedIds_update_run.
      * rewrite find_upsertOne_other by done. unfold r2. by rewrite find_update_inflight.
    + assert (Hs' : s' = set_refs (update_inflight Rdap (fun f => {[id cand]} ∪ f) r1)
        (update_run Rdap j (mkRun (<[i := WRdapLookup (processedCount R) cand]> (workers R))
                                 (processedCount R) (finished R)) s))
        by (injection H; intros <-; reflexivity).
      clear H. subst s'.
      cbn [refs set_refs]. split.
      * split; [|split; [|split]].
        -- rewrite qset_update_inflight. set_solver.
        -- rewrite qset_update_inflight. set_solver.
        -- eapply idle_holders; [exact E|apply E'|done|]. intros h [= <-]. done.
        -- cbn [usedIds set_refs]. by rewrite usedIds_update_run.
      * by rewrite find_update_inflight.
  - (* WDnsLookup *)
    assert (Hs' : s' = set_refs (upsertRecords (refs s) [runDnsLookup (with_status r Checking) now o ro])
      (update_run c j (mkRun (<[i := WDnsWritten b r]> (workers R)) (processedCount R) (finished R)) s))
      by (injection H; intros <-; reflexivity).
    clear H. subst s'.
    assert (Hne : id r <> k) by (by apply (idle_holder_ne s L1 L2 (WDnsLookup b r))).
    set (item := runDnsLookup (with_status r Checking) now o ro).
    assert (Hid : id item = id r) by (unfold item; by rewrite id_runDnsLookup).
    cbn [refs set_refs]. split.
    + split; [|split; [|split]].
      * rewrite qset_upsert1_other by congruence. done.
      * rewrite qset_upsert1_other by congruence. done.
      * eapply idle_holders; [exact E|apply E'|done|by apply Hnone].
      * cbn [usedIds set_refs]. by rewrite usedIds_update_run.
    + apply find_upsertOne_other; [done|congruence].
  - (* WDnsWritten *)
    injection H as <-. cbn [refs set_refs set_msg]. split.
    + split; [|split; [|split]].
      * by rewrite qset_update_inflight.
      * by rewrite qset_update_inflight.
      * eapply idle_holders; [exact E|apply E'|done|by apply Hnone].
      * cbn [usedIds set_refs set_msg]. by rewrite usedIds_update_run.
    + by rewrite find_update_inflight.
  - (* WRdapLookup *)
    assert (Hs' : s' = set_refs (upsertRecords (refs s) [runRdapOnly r now ro])
      (update_run c j (mkRun (<[i := WRdapWritten b r]> (workers R)) (processedCount R) (finished R)) s))
      by (injection H; intros <-; reflexivity).
    clear H. subst s'.
    assert (Hne : id r <> k) by (by apply (idle_holder_ne s L1 L2 (WRdapLookup b r))).
    set (item := runRdapOnly r now ro).
    assert (Hid : id item = id r) by (unfold item; by rewrite id_runRdapOnly).
    cbn [refs set_refs]. split.
    + split; [|split; [|split]].
      * rewrite qset_upsert1_other by congruence. done.
      * rewrite qset_upsert1_other by congruence. done.
      * eapply idle_holders; [exact E|apply E'|done|by apply Hnone].
      * cbn [usedIds set_refs]. by rewrite usedIds_update_run.
    + apply find_upsertOne_other; [done|congruence].
  - (* WRdapWritten *)
    injection H as <-. cbn [refs set_refs set_msg]. split.
    + split; [|split; [|split]].
      * by rewrite qset_update_inflight.
      * by rewrite qset_update_inflight.
      * eapply idle_holders; [exact E|apply E'|done|by apply Hnone].
      * cbn [usedIds set_refs set_msg]. by rewrite usedIds_update_run.
    + by rewrite find_update_inflight.
  - (* WTail *)
    assert (Hs' : s' = update_run c j (mkRun (<[i := WDone]> (workers R)) (processedCount R) (finished R)) s \/
                  s' = update_run c j (mkRun (<[i := WHead]> (workers R)) (processedCount R) (finished R)) s).
    { destruct (stop_of c (refs s)); [injection H as <-; by left|].
      destruct (_ || _); injection H as <-; auto. }
    clear H. destruct Hs' as [-> | ->]; rewrite refs_update_run; (split; [|done]);
      (split; [done|]); (split; [done|]); split;
      try (eapply idle_holders; [exact E|apply E'|done|by apply Hnone]);
      by rewrite usedIds_update_run.
  - done.
Qed.

Lemma qset_upsertRecords_other c r us k :
  k ∉ map id us -> k ∈ qset c (upsertRecords r us) <-> k ∈ qset c r.
Proof.
  revert r. induction us as [|u us IH]; intros r Hk; [done|].
  simpl in Hk. apply not_elem_of_cons in Hk as [Hk1 Hk2].
  change (upsertRecords r (u :: us)) with (upsertRecords (upsertOne r u) us).
  rewrite IH by done. by apply qset_upsertOne_other.
Qed.

Lemma find_set_stop c b r k : find_rec (set_stop c b r) k = find_rec r k.
Proof. apply find_rec_same; [apply records_set_stop | apply index_set_stop]. Qed.

Lemma finish_refs c j s s' :
  finishRun c j s = Some s' -> refs s' = set_stop c false (refs s) /\ usedIds s' = usedIds s.
Proof.
  intros H. unfold finishRun in H.
  destruct (runs_of c s !! j) as [R|] eqn:HR; [|done].
  destruct (finished R); [done|]. destruct (forallb _ _); [|done]. injection H as <-.
  destruct c; split; reflexivity.
Qed.

Lemma idle_step s a s' k :
  Inv s -> idle s k -> step s a = Some s' ->
  idle s' k /\ (find_rec (refs s') k = find_rec (refs s) k \/ find_rec (refs s') k = None).
Proof.
  intros HI Hidle H. destruct a; simpl in H.
  - (* enqueue *)
    unfold enqueueDomains in H.
    destruct (build_new _ entries0 ids now) as [toAdd|]; [|done].
    destruct (decide _) as [[Hnd Hfr]|]; [|done].
    assert (Hs : s' = set_msg MsgNoNew s \/
                 s' = mkSys (upsertRecords (refs s) toAdd) (dnsRuns s) (rdapRuns s)
                        (runningDns s) (runningRdap s) (MsgAdded (length toAdd))
                        (list_to_set (map id toAdd) ∪ usedIds s))
      by (destruct toAdd; injection H as <-; auto).
    clear H. destruct Hs as [-> | ->]; [split; [exact Hidle|by left]|].
    unfold idle in *. destruct Hidle as (Hk1 & Hk2 & Hk3 & Hk4).
    assert (Hn : k ∉ map id toAdd).
    { intros Hin. rewrite List.Forall_forall in Hfr.
      apply (Hfr k); [by apply list_elem_of_In|done]. }
    cbn [refs usedIds]. split.
    + rewrite !qset_upsertRecords_other by done. split; [done|]. split; [done|].
      split; [exact Hk3|set_solver].
    + left. apply find_upsertRecords_other; [apply HI|done].
  - (* start *)
    injection H as <-. unfold idle in *. rewrite holders_start.
    unfold startChecker in *. destruct (running_of c s); [split; [done|by left]|].
    destruct Hidle as (Hk1 & Hk2 & Hk3 & Hk4).
    cbn [refs usedIds set_msg set_refs].
    assert (Hu : usedIds (set_running c true (set_refs (set_stop c false (update_inflight c (fun _ => ∅) (refs s)))
               (set_runs c (runs_of c s ++ [mkRun (repeat WHead BATCH_SIZE) 0 false]) s))) = usedIds s)
      by (by destruct c).
    assert (Hr : refs (set_running c true (set_refs (set_stop c false (update_inflight c (fun _ => ∅) (refs s)))
               (set_runs c (runs_of c s ++ [mkRun (repeat WHead BATCH_SIZE) 0 false]) s))) =
               set_stop c false (update_inflight c (fun _ => ∅) (refs s)))
      by (by destruct c).
    rewrite Hu, Hr, !qset_set_stop, !qset_update_inflight, find_set_stop, find_update_inflight.
    split; [done|by left].
  - (* stop *)
    injection H as <-. unfold stopChecker. destruct (negb (running_of c s)); [split; [done|by left]|].
    unfold idle in *. cbn [refs usedIds set_msg set_refs].
    rewrite !qset_set_stop, find_set_stop. split; [exact Hidle|by left].
  - (* clear *)
    injection H as <-. unfold idle in *. split; [|right; reflexivity].
    destruct Hidle as (Hk1 & Hk2 & Hk3 & Hk4). split; [exact Hk1|]. split; [exact Hk2|].
    split; [exact Hk3|exact Hk4].
  - (* worker *)
    destruct (idle_worker_step c j i o ro now s s' k HI Hidle H) as [H1 H2]. split; [done|by left].
  - (* finish *)
    destruct (finish_refs c j s s' H) as [Hr Hu]. unfold idle in *.
    rewrite (holders_finish c j s s' H), Hr, Hu, !qset_set_stop, find_set_stop.
    split; [exact Hidle|by left].
Qed.

Lemma idle_run s acts s' k :
  Inv s -> idle s k -> run s acts = Some s' ->
  idle s' k /\ (find_rec (refs s') k = find_rec (refs s) k \/ find_rec (refs s') k = None).
Proof.
  revert s. induction acts as [|a acts IH]; intros s HI Hidle H; simpl in H.
  - injection H as <-. split; [done|by left].
  - destruct (step s a) as [s1|] eqn:E; [|done].
    destruct (idle_step s a s1 k HI Hidle E) as [Hi1 Hf1].
    destruct (IH s1 (Inv_step s a s1 HI E) Hi1 H) as [Hi2 Hf2].
    split; [done|]. destruct Hf2 as [Hf2|Hf2]; [rewrite Hf2; exact Hf1|by right].
Qed.

Lemma phase_of_set_refs c j i r s : phase_of c j i (set_refs r s) = phase_of c j i s.
Proof. unfold phase_of. by rewrite runs_of_set_refs. Qed.

(** ** Verify-stage claims *)

(** C4: when a verify-stage worker reaches the queue of a reachable state
    and claims a record [r] for its RDAP lookup, [r] is the record stored
    under its id and is verify-eligible; so a key whose stored record is no
    longer eligible (here [k] with record [x]) is skipped, and the worker
    never runs the RDAP lookup for it. *)
Theorem rdap_claim_skips_ineligible s j i o ro now s' k x b r :
  reachable s -> phase_of Rdap j i s = Some WHead ->
  find_rec (refs s) k = Some x -> isRdapCandidate x = false ->
  worker_step Rdap j i o ro now s = Some s' ->
  phase_of Rdap j i s' = Some (WRdapLookup b r) ->
  id r <> k /\ find_rec (refs s) (id r) = Some r /\ isRdapCandidate r = true.
Proof.
  intros Hreach Hph Hx Hnc H Hph'.
  destruct (inv_refs s (reachable_Inv s Hreach)) as (Hok & _ & HB).
  unfold phase_of in Hph. unfold worker_step in H.
  destruct (runs_of Rdap s !! j) as [R|] eqn:HR; [|done]. simpl in Hph.
  rewrite Hph in H. cbv beta iota zeta in H.
  destruct (stop_of Rdap (refs s)).
  { assert (Hs : s' = update_run Rdap j
                   (mkRun (<[i := WDone]> (workers R)) (processedCount R) (finished R)) s)
      by (injection H; intros <-; reflexivity).
    subst s'. by rewrite (phase_of_update Rdap j i R WHead s HR Hph) in Hph'. }
  destruct (popCandidate Rdap (refs s)) as [[cand|] r1] eqn:Hp.
  - assert (Hs : s' = set_refs (update_inflight Rdap (fun f => {[id cand]} ∪ f) r1)
                   (update_run Rdap j (mkRun (<[i := WRdapLookup (processedCount R) cand]> (workers R))
                                        (processedCount R) (finished R)) s))
      by (injection H; intros <-; reflexivity).
    subst s'. rewrite phase_of_set_refs, (phase_of_update Rdap j i R WHead s HR Hph) in Hph'.
    injection Hph' as <- <-.
    destruct (popCandidate_some Rdap (refs s) cand r1 Hok Hp) as (Hin & _ & Hfind & _).
    assert (Hc : isRdapCandidate cand = true) by (exact (HB (id cand) cand Hin Hfind)).
    split; [|by split].
    intros E. rewrite E, Hx in Hfind. injection Hfind as ->. congruence.
  - assert (Hs : s' = set_refs r1 (update_run Rdap j
                   (mkRun (<[i := WTail (processedCount R)]> (workers R)) (processedCount R) (finished R)) s))
      by (injection H; intros <-; reflexivity).
    subst s'. by rewrite phase_of_set_refs, (phase_of_update Rdap j i R WHead s HR Hph) in Hph'.
Qed.

Lemma rdap_claim_skips_ineligible_witness :
  phase_of Rdap 0 0 skip_after = Some (WRdapLookup 0 (sample "y" Available NotChecked)) /\
  id (sample "y" Available NotChecked) <> "x".
Proof.
  split; [vm_compute; reflexivity|].
  apply (proj1 (rdap_claim_skips_ineligible skip_state 0 0 DnsFetchError RdapFetchError 1 skip_after
           "x" (sample "x" Taken NotChecked) 0 (sample "y" Available NotChecked)
           ltac:(exists skip_items, [AStart Rdap];
                 split; [apply (bool_decide_unpack _); vm_compute; exact I|vm_compute; reflexivity])
           ltac:(vm_compute; reflexivity) ltac:(vm_compute; reflexivity) ltac:(vm_compute; reflexivity)
           ltac:(vm_compute; reflexivity) ltac:(vm_compute; reflexivity))).
Defined.

(** ** Authoritative-positive answers *)

(** C7: when the resolve-stage lookup of a held record [r] in a reachable
    state gets an ok DNS response whose numeric [Status] is neither 3, 2 nor
    5, the write-back stores under [id r] a record [x] that is "taken"
    with rdapStatus "not_checked"; in every state reached afterwards the
    record stored under [id r], if any, is still [x], so it is never
    verify-eligible. *)
Theorem authoritative_positive_never_eligible s j i b r st code ro now s1 :
  reachable s -> phase_of Dns j i s = Some (WDnsLookup b r) ->
  http_ok st = true -> code <> 3 -> code <> 2 -> code <> 5 ->
  worker_step Dns j i (DnsResponse st (JsonStatus (Some code))) ro now s = Some s1 ->
  exists x, find_rec (refs s1) (id r) = Some x /\ status x = Taken /\ rdapStatus x = NotChecked /\
    forall acts s2 y, run s1 acts = Some s2 -> find_rec (refs s2) (id r) = Some y ->
      y = x /\ isRdapCandidate y = false.
Proof.
  intros Hreach Hph Hok Hc3 Hc2 Hc5 H.
  pose proof (reachable_Inv s Hreach) as HI.
  assert (HI1 : Inv s1) by (exact (Inv_worker_step _ _ _ _ _ _ _ _ HI H)).
  unfold phase_of in Hph. unfold worker_step in H.
  destruct (runs_of Dns s !! j) as [R|] eqn:HR; [|done]. simpl in Hph.
  rewrite Hph in H. cbv beta iota zeta in H.
  set (x := runDnsLookup (with_status r Checking) now (DnsResponse st (JsonStatus (Some code))) ro) in H.
  assert (Hx : status x = Taken /\ rdapStatus x = NotChecked /\ id x = id r).
  { unfold x, runDnsLookup. rewrite Hok. cbn [negb].
    destruct (code =? 3) eqn:E3; [apply Z.eqb_eq in E3; contradiction|].
    destruct (code =? 2) eqn:E2; [apply Z.eqb_eq in E2; contradiction|].
    destruct (code =? 5) eqn:E5; [apply Z.eqb_eq in E5; contradiction|].
    cbn [orb]. repeat split. }
  destruct Hx as (Hst & Hrs & Hid).
  assert (Hnc : isRdapCandidate x = false) by (unfold isRdapCandidate; by rewrite Hst).
  assert (Hs : s1 = set_refs (upsertRecords (refs s) [x])
                 (update_run Dns j (mkRun (<[i := WDnsWritten b r]> (workers R))
                                      (processedCount R) (finished R)) s))
    by (injection H; intros <-; reflexivity).
  clear H.
  destruct (all_phases_update Dns j i R _ s HR Hph) as (L1 & L2 & E & E').
  assert (Hhold : r ∈ holders s) by (unfold holders; rewrite E, elem_of_holders_split; by left).
  destruct (inv_hold s HI r Hhold) as (HnD & HnR & Hused).
  assert (Hnh : id r ∉ map id (omap lookup_rec (L1 ++ L2))).
  { pose proof (inv_nodup s HI) as Hnd. unfold holders in Hnd.
    rewrite E, (holders_perm L1 (WDnsLookup b r) L2) in Hnd. simpl in Hnd.
    by apply NoDup_cons in Hnd as [Hn _]. }
  assert (Hfind : find_rec (refs s1) (id r) = Some x).
  { rewrite Hs. change (find_rec (upsertOne (refs s) x) (id r) = Some x).
    rewrite upsertOne_find by apply HI. by rewrite decide_True. }
  assert (Hidle : idle s1 (id r)).
  { unfold idle. split; [|split; [|split]].
    - rewrite Hs. change (id r ∉ queueSetRef (stage_of Dns (upsertOne (refs s) x))).
      rewrite upsertOne_stage, <- Hid, upd_dns_self, Hst. rewrite Hid.
      intros [Hq|[Hq _]]; [done|exact (HnD Hq)].
    - rewrite Hs. change (id r ∉ queueSetRef (stage_of Rdap (upsertOne (refs s) x))).
      rewrite upsertOne_stage, <- Hid, upd_rdap_self, Hnc. rewrite Hid.
      intros [Hq|[Hq _]]; [done|exact (HnR Hq)].
    - intros Hin. apply list_elem_of_fmap in Hin as (h & Heq & Hh).
      unfold holders in Hh. rewrite Hs, all_phases_set_refs, E', elem_of_holders_split in Hh.
      destruct Hh as [Hh|Hh]; [done|].
      apply Hnh. rewrite Heq. by apply list_elem_of_fmap_2.
    - rewrite Hs. cbn [usedIds set_refs]. by rewrite usedIds_update_run. }
  exists x. split; [done|]. split; [done|]. split; [done|].
  intros acts s2 y Hrun Hy.
  destruct (idle_run s1 acts s2 (id r) HI1 Hidle Hrun) as [_ [Hf|Hf]]; rewrite Hf in Hy; [|done].
  rewrite Hfind in Hy. injection Hy as <-. by split.
Qed.

Lemma authoritative_positive_never_eligible_witness :
  find_rec (refs positive_written) "b" =
    Some (mkRecord "b" "b.test" "b" Taken NotChecked 0 (Some 2) Import) /\
  exists x, find_rec (refs positive_written) "b" = Some x /\ status x = Taken /\
    rdapStatus x = NotChecked /\
    forall acts s2 y, run positive_written acts = Some s2 -> find_rec (refs s2) "b" = Some y ->
      y = x /\ isRdapCandidate y = false.
Proof.
  split; [vm_compute; reflexivity|].
  exact (authoritative_positive_never_eligible positive_claimed 0 0 0 (sample "b" Queued NotChecked)
           200 0 RdapFetchError 2 positive_written
           ltac:(exists positive_items, positive_acts;
                 split; [apply (bool_decide_unpack _); vm_compute; exact I|vm_compute; reflexivity])
           ltac:(vm_compute; reflexivity) ltac:(vm_compute; reflexivity)
           ltac:(lia) ltac:(lia) ltac:(lia) ltac:(vm_compute; reflexivity)).
Defined.


(* ================================================================== *)
(** * Further properties of the code *)

Section ParseProofs.
Variable is_space : Z -> bool.

Local Abbreviation keep := (keep_pieces is_space).

Lemma keep_app a b : keep (a ++ b) = keep a ++ keep b.
Proof. unfold keep_pieces. rewrite map_app. apply List.filter_app. Qed.

Lemma keep_cons p ps : keep (p :: ps) = keep [p] ++ keep ps.
Proof. apply (keep_app [p] ps). Qed.

Lemma trim_nil : trim is_space [] = [].
Proof. reflexivity. Qed.

Lemma keep_nil_piece ps : keep ([] :: ps) = keep ps.
Proof. reflexivity. Qed.

Lemma split_each_ne l : split_each l <> [].
Proof.
  induction l as [|c l IH]; simpl; [done|].
  destruct (is_entry_sep c); [done|]. destruct (split_each l); done.
Qed.

Lemma split_entries_each l cur b :
  (b = true -> cur = []) ->
  keep (split_entries l cur b) = keep (prepend (rev cur) (split_each l)).
Proof.
  revert cur b. induction l as [|c l IH]; intros cur b Hb; simpl.
  - by rewrite app_nil_r.
  - destruct (is_entry_sep c) eqn:Ec.
    + destruct b.
      * rewrite Hb by done. simpl. rewrite IH by done. simpl.
        destruct (split_each l) as [|q qs] eqn:E; [by destruct (split_each_ne l)|]. done.
      * simpl. rewrite app_nil_r, (keep_cons (rev cur) (split_entries _ _ _)),
          (keep_cons (rev cur) (split_each l)).
        f_equal. rewrite IH by done. simpl.
        destruct (split_each l) as [|q qs] eqn:E; [by destruct (split_each_ne l)|]. done.
    + rewrite IH by done. simpl.
      destruct (split_each l) as [|q qs] eqn:E; [by destruct (split_each_ne l)|].
      simpl. by rewrite <- app_assoc.
Qed.

Lemma parse_each raw : parseDomainInput is_space raw = keep (split_each raw).
Proof.
  unfold parseDomainInput. fold (keep (split_entries raw [] false)).
  rewrite split_entries_each by done. simpl.
  destruct (split_each raw) as [|q qs] eqn:E; [by destruct (split_each_ne raw)|]. done.
Qed.

Lemma split_each_app a b c :
  is_entry_sep c = true -> split_each (a ++ c :: b) = split_each a ++ split_each b.
Proof.
  intros Hc. induction a as [|x a IH]; simpl; [by rewrite Hc|].
  destruct (is_entry_sep x); [by rewrite IH|].
  rewrite IH. destruct (split_each a) as [|q qs] eqn:E; [by destruct (split_each_ne a)|]. done.
Qed.

Lemma split_each_head l q qs : split_each l = q :: qs -> exists v, l = q ++ v.
Proof.
  revert q qs. induction l as [|c l IH]; intros q qs E; simpl in E.
  - injection E as <- <-. by exists [].
  - destruct (is_entry_sep c).
    + injection E as <- <-. by exists (c :: l).
    + destruct (split_each l) as [|q' qs'] eqn:E'.
      * by destruct (split_each_ne l).
      * injection E as <- <-. destruct (IH q' qs' eq_refl) as [v ->]. by exists v.
Qed.

Lemma split_each_pieces l p :
  p ∈ split_each l -> Forall (fun c => is_entry_sep c = false) p /\ exists u v, l = u ++ p ++ v.
Proof.
  revert p. induction l as [|c l IH]; intros p Hp; simpl in Hp.
  - apply list_elem_of_singleton in Hp as ->. split; [constructor|]. by exists [], [].
  - destruct (is_entry_sep c) eqn:Ec.
    + apply elem_of_cons in Hp as [->|Hp].
      * split; [constructor|]. by exists [], (c :: l).
      * destruct (IH p Hp) as [Hf (u & v & ->)]. split; [done|]. by exists (c :: u), v.
    + destruct (split_each l) as [|q qs] eqn:E.
      * by destruct (split_each_ne l).
      * apply elem_of_cons in Hp as [->|Hp].
        -- destruct (IH q) as [Hf _]; [apply elem_of_cons; by left|].
           split; [by constructor|].
           destruct (split_each_head l q qs E) as [v ->]. by exists [], v.
        -- destruct (IH p) as [Hf (u & v & ->)]; [apply elem_of_cons; by right|].
           split; [done|]. by exists (c :: u), v.
Qed.

Lemma trim_infix x : exists u v, x = u ++ trim is_space x ++ v.
Proof.
  destruct (drop_while_suffix is_space x) as [p Hp].
  destruct (rev_drop_while_prefix is_space (drop_while is_space x)) as [q Hq].
  exists p, q. unfold trim. rewrite <- Hq. exact Hp.
Qed.

Lemma trim_idem x : trim is_space (trim is_space x) = trim is_space x.
Proof.
  unfold trim at 2 3.
  set (t := drop_while is_space x). set (z := drop_while is_space (rev t)).
  destruct (rev_drop_while_prefix is_space t) as [q Hq]. fold z in Hq.
  unfold trim. rewrite (drop_while_id is_space (rev z)).
  - rewrite rev_involutive. rewrite (drop_while_id is_space z); [done|].
    intros y r Hz. by apply (drop_while_head is_space (rev t) y r).
  - intros y r Hz. rewrite Hz in Hq.
    apply (drop_while_head is_space x y (r ++ q)). fold t. rewrite Hq. done.
Qed.

End ParseProofs.

(** X1. Every entry parseDomainInput returns is nonempty, already trimmed,
    contains no newline or comma, and occurs verbatim in the raw input. *)
Theorem parseDomainInput_entries (is_space : Z -> bool) (raw e : list Z) :
  e ∈ parseDomainInput is_space raw ->
  e <> [] /\ Forall (fun c => is_entry_sep c = false) e /\ trim is_space e = e /\
  exists u v, raw = u ++ e ++ v.
Proof.
  rewrite parse_each. unfold keep_pieces. intros He.
  apply list_elem_of_In, List.filter_In in He as [He Hne].
  apply List.in_map_iff in He as (p & <- & Hp).
  apply list_elem_of_In, split_each_pieces in Hp as [Hf (u & v & ->)].
  destruct (trim_infix is_space p) as (u' & v' & Hp).
  split; [by destruct (trim is_space p)|]. split; [|split].
  - rewrite Hp in Hf. apply Forall_app in Hf as [_ Hf]. by apply Forall_app in Hf as [Hf _].
  - apply trim_idem.
  - exists (u ++ u'), (v' ++ v). rewrite Hp at 1. by rewrite <- !app_assoc.
Qed.

(** X2. A newline or comma splits the input: parseDomainInput of [a ++ c ::
    b], with [c] a separator, is parseDomainInput of [a] followed by
    parseDomainInput of [b]. *)
Theorem parseDomainInput_app (is_space : Z -> bool) (a b : list Z) (c : Z) :
  is_entry_sep c = true ->
  parseDomainInput is_space (a ++ c :: b) = parseDomainInput is_space a ++ parseDomainInput is_space b.
Proof.
  intros Hc. rewrite !parse_each, split_each_app by done. apply keep_app.
Qed.

Lemma parseDomainInput_entries_witness :
  let e := units "a.com" in let raw := units " a.com ,, b.com" in
  e ∈ parseDomainInput js_space raw /\
  (e <> [] /\ Forall (fun c => is_entry_sep c = false) e /\ trim js_space e = e /\
   exists u v, raw = u ++ e ++ v).
Proof.
  split; [apply (bool_decide_unpack _); vm_compute; exact I|].
  apply parseDomainInput_entries. apply (bool_decide_unpack _); vm_compute; exact I.
Defined.

Lemma parseDomainInput_app_witness :
  is_entry_sep 10 = true /\
  parseDomainInput js_space (units "a.com" ++ 10 :: units ", b.com")
  = parseDomainInput js_space (units "a.com") ++ parseDomainInput js_space (units ", b.com").
Proof.
  split; [vm_compute; reflexivity|]. apply parseDomainInput_app. vm_compute; reflexivity.
Defined.

Lemma split_dot_ne s : split_dot s <> [].
Proof.
  induction s as [|ch s IH]; simpl; [done|].
  destruct (Ascii.eqb ch _); [done|]. destruct (split_dot s); done.
Qed.

Lemma join_dot_cons_char ch p ps :
  join_dot (String ch p :: ps) = String ch (join_dot (p :: ps)).
Proof. destruct ps; reflexivity. Qed.

Lemma join_split_dot s : join_dot (split_dot s) = s.
Proof.
  induction s as [|ch s IH]; simpl; [done|].
  destruct (Ascii.eqb ch _) eqn:E.
  - apply Ascii.eqb_eq in E as ->.
    destruct (split_dot s) as [|p ps] eqn:Es; [by destruct (split_dot_ne s)|].
    simpl. rewrite <- IH. reflexivity.
  - destruct (split_dot s) as [|p ps] eqn:Es; [by destruct (split_dot_ne s)|].
    rewrite join_dot_cons_char. by rewrite IH.
Qed.

Lemma string_app_assoc (a b c : string) : (a ++ b ++ c)%string = ((a ++ b) ++ c)%string.
Proof.
  induction a as [|ch a IH]; [done|].
  change (String ch (a ++ b ++ c) = String ch ((a ++ b) ++ c))%string. by rewrite IH.
Qed.

Lemma join_dot_cons x rest : rest <> [] -> join_dot (x :: rest) = (x ++ "." ++ join_dot rest)%string.
Proof. destruct rest; [done|reflexivity]. Qed.

Lemma join_dot_snoc xs y :
  xs <> [] -> join_dot (xs ++ [y]) = (join_dot xs ++ "." ++ y)%string.
Proof.
  induction xs as [|x xs IH]; intros Hne; [done|].
  destruct xs as [|x' xs].
  - reflexivity.
  - rewrite <- app_comm_cons, join_dot_cons by (destruct xs; done).
    rewrite IH by done. rewrite (join_dot_cons x (x' :: xs)) by done.
    rewrite !string_app_assoc. reflexivity.
Qed.

Lemma substring_all s : String.substring 0 (String.length s) s = s.
Proof. induction s as [|ch s IH]; simpl; [done|]. by rewrite IH. Qed.

Lemma deriveCore_nowww d :
  String.prefix "www." d = false -> deriveCore d =
    let parts := split_dot d in if (length parts <=? 1)%nat then d else join_dot (removelast parts).
Proof. intros H. unfold deriveCore. by rewrite H. Qed.

(** X3. For a domain [d] with a dot and no leading "www.", deriveCore gives
    the same core for "www." ++ [d] as for [d], and that core followed by a
    dot and the last label of [d] is [d] itself: only the last label is
    dropped. *)
Theorem deriveCore_strips_tld (d : string) :
  String.prefix "www." d = false -> (1 < length (split_dot d))%nat ->
  deriveCore ("www." ++ d)%string = deriveCore d /\
  (deriveCore d ++ "." ++ List.last (split_dot d) "")%string = d.
Proof.
  intros Hw Hl. split.
  - assert (Hs : String.substring 4 (String.length ("www." ++ d) - 4) ("www." ++ d) = d).
    { change (String.substring 0 (String.length d - 0) d = d).
      rewrite Nat.sub_0_r. apply substring_all. }
    unfold deriveCore. rewrite Hw.
    assert (Hp : String.prefix "www." ("www." ++ d) = true) by (destruct d; reflexivity).
    rewrite Hp. by rewrite Hs.
  - rewrite deriveCore_nowww by done. simpl.
    destruct (Nat.leb_spec (length (split_dot d)) 1); [lia|].
    rewrite <- join_dot_snoc.
    + rewrite <- app_removelast_last by apply split_dot_ne. apply join_split_dot.
    + destruct (split_dot d) as [|p [|q ps]]; simpl in *; try lia; done.
Qed.

Lemma deriveCore_strips_tld_witness :
  String.prefix "www." "example.com" = false /\ (1 < length (split_dot "example.com"))%nat /\
  (deriveCore ("www." ++ "example.com")%string = deriveCore "example.com" /\
   (deriveCore "example.com" ++ "." ++ List.last (split_dot "example.com") "")%string = "example.com").
Proof.
  split; [vm_compute; reflexivity|]. split; [vm_compute; lia|].
  apply deriveCore_strips_tld; [vm_compute; reflexivity|vm_compute; lia].
Defined.

Lemma runRdapLookup_checked ro : runRdapLookup ro <> NotChecked.
Proof.
  destruct ro as [|st]; cbn; [done|].
  destruct (st =? 404); [done|]. by destruct (http_ok st).
Qed.

(** X4. runDnsLookup always settles a record to available, taken or unknown
    and stamps checkedAt with the current time. It keeps id, domain, core
    and createdAt, and leaves rdapStatus not_checked unless the new status
    is available. *)
Theorem runDnsLookup_result (r : DomainRecord) (now : Z) (o : DnsOutcome) (ro : RdapOutcome) :
  let r' := runDnsLookup r now o ro in
  (status r' = Available \/ status r' = Taken \/ status r' = Unknown) /\
  (status r' <> Available -> rdapStatus r' = NotChecked) /\
  id r' = id r /\ domain r' = domain r /\ core r' = core r /\ createdAt r' = createdAt r /\
  checkedAt r' = Some now.
Proof.
  unfold runDnsLookup.
  destruct o as [|st [|[code|]]]; [|destruct (http_ok st)..]; cbn;
    try (destruct (code =? 3)); try destruct ((code =? 2) || (code =? 5)); cbn;
    repeat split; auto; congruence.
Qed.

(** X5. The record runDnsLookup returns is an RDAP candidate exactly when
    the DNS request succeeded with Status 3 and the RDAP lookup that follows
    failed: a network error, or a non-OK status other than 404. *)
Theorem runDnsLookup_verify_eligible (r : DomainRecord) (now : Z) (o : DnsOutcome) (ro : RdapOutcome) :
  isRdapCandidate (runDnsLookup r now o ro) = true <->
  (exists st, o = DnsResponse st (JsonStatus (Some 3)) /\ http_ok st = true) /\
  (ro = RdapFetchError \/ exists st', ro = RdapResponse st' /\ st' <> 404 /\ http_ok st' = false).
Proof.
  assert (Hro : runRdapLookup ro = RdapUnknown <->
    (ro = RdapFetchError \/ exists st', ro = RdapResponse st' /\ st' <> 404 /\ http_ok st' = false)).
  { destruct ro as [|st']; cbn; split; auto.
    - destruct (Z.eqb_spec st' 404); [done|]. destruct (http_ok st') eqn:E; [done|]. eauto.
    - intros [?|(st'' & [= <-] & Hne & Hok)]; [done|].
      apply Z.eqb_neq in Hne. by rewrite Hne, Hok. }
  rewrite <- Hro. unfold runDnsLookup.
  destruct o as [|st [|[code|]]]; cbn.
  - split; [done|]. intros [(? & ? & _) _]. done.
  - destruct (http_ok st); cbn; (split; [done|]); intros [(? & [=] & _) _].
  - destruct (http_ok st) eqn:Eok; cbn.
    + destruct (Z.eqb_spec code 3) as [->|Hne]; cbn.
      * unfold isRdapCandidate; cbn.
        pose proof (runRdapLookup_checked ro) as Hnc.
        destruct (runRdapLookup ro); cbn; [..|by destruct Hnc]; split; try done;
          try (intros [_ ?]; done); intros _; split; eauto.
      * destruct ((code =? 2) || (code =? 5)); cbn; (split; [done|]);
          intros [(? & [= _ E] & _) _]; lia.
    + split; [done|]. intros [(? & [= <- _] & Hok) _]. congruence.
  - destruct (http_ok st); cbn; (split; [done|]); intros [(? & [=] & _) _].
Qed.

(** X6. runRdapOnly keeps the status, id, domain, core and createdAt, stamps
    checkedAt, and never leaves rdapStatus not_checked. Its result is still
    an RDAP candidate exactly when the status is available and the RDAP
    answer was unknown. *)
Theorem runRdapOnly_result (r : DomainRecord) (now : Z) (ro : RdapOutcome) :
  let r' := runRdapOnly r now ro in
  status r' = status r /\ rdapStatus r' <> NotChecked /\
  id r' = id r /\ domain r' = domain r /\ core r' = core r /\ createdAt r' = createdAt r /\
  checkedAt r' = Some now /\
  (isRdapCandidate r' = true <-> status r = Available /\ rdapStatus r' = RdapUnknown).
Proof.
  pose proof (runRdapLookup_checked ro) as Hnc.
  cbn. split; [done|]. split; [done|]. do 5 (split; [done|]).
  unfold isRdapCandidate; cbn.
  destruct (status r), (runRdapLookup ro); cbn; intuition congruence.
Qed.

(** X7. adjustStats from [p] to [b] followed by adjustStats from [b] to [c]
    moves the counters exactly as one adjustStats from [p] to [c]. *)
Theorem adjustStats_compose (p : option DomainRecord) (b c : DomainRecord) (st : Stats) :
  adjustStats (Some b) c (adjustStats p b st) = adjustStats p c st.
Proof. unfold adjustStats. cbn. by rewrite applyDelta_cancel. Qed.

(** [arr.length] as a number. *)

Lemma count_all_filters l st :
  count_all l st = mkStats (total st)
    (queueCount st + len (List.filter (fun item => is_queued_or_checking (status item)) l))
    (totalAvailable st + len (List.filter (fun item => is_available (status item)) l))
    (totalTaken st + len (List.filter (fun item => is_taken_status (status item)) l))
    (totalChecked st + len (List.filter (fun item => negb (is_queued_or_checking (status item))) l))
    (takenOverall st + len (List.filter is_taken l)).
Proof.
  revert st. induction l as [|r l IH]; intros st.
  - destruct st; cbn. unfold len; cbn. f_equal; lia.
  - cbn [count_all fold_left]. fold (count_all l (applyDelta r 1 st)). rewrite IH.
    unfold applyDelta, len. cbn.
    destruct (is_queued_or_checking (status r)), (is_available (status r)),
      (is_taken_status (status r)), (is_taken r); cbn; f_equal; lia.
Qed.

(** X8. recomputeStats of the newest hook gives the same counters as the
    [records.filter(...).length] memos of the earlier hook versions, with
    total the array length. *)
Theorem recomputeStats_filterStats (l : list DomainRecord) : recomputeStats l = filterStats l.
Proof.
  rewrite recomputeStats_count, count_all_filters. cbn. unfold filterStats. f_equal.
Qed.

(** X9. The counters recomputeStats returns satisfy queueCount +
    totalChecked = total, totalAvailable + totalTaken <= totalChecked and
    totalTaken <= takenOverall <= total. *)
Theorem recomputeStats_consistent (l : list DomainRecord) :
  let st := recomputeStats l in
  queueCount st + totalChecked st = total st /\
  0 <= totalAvailable st /\ 0 <= totalTaken st /\
  totalAvailable st + totalTaken st <= totalChecked st /\
  totalTaken st <= takenOverall st <= total st.
Proof.
  rewrite recomputeStats_filterStats. unfold filterStats, len; cbn.
  induction l as [|r l IH]; cbn; [lia|].
  assert (Ht : is_taken_status (status r) = true -> is_taken r = true)
    by (unfold is_taken; by destruct (status r)).
  destruct (status r), (is_taken r); cbn in *; try (discriminate (Ht eq_refl)); lia.
Qed.

Lemma build_new_spec existing entries ids now rs :
  build_new existing entries ids now = Some rs ->
  (forall e, e ∈ entries -> e ∈ existing \/ e ∈ map domain rs) /\
  NoDup (map domain rs) /\
  (forall x, x ∈ rs -> (domain x ∉ existing) /\ domain x ∈ entries /\
     x = mkRecord (id x) (domain x) (deriveCore (domain x)) Queued NotChecked now None Import).
Proof.
  revert existing ids rs. induction entries as [|e es IH]; intros existing ids rs H; cbn in H.
  - injection H as <-. split; [intros e He; by apply elem_of_nil in He|].
    split; [constructor|]. intros x Hx. by apply elem_of_nil in Hx.
  - destruct (decide (e ∈ existing)) as [Hin|Hnin].
    + destruct (IH _ _ _ H) as (H1 & H2 & H3). split; [|split; [done|]].
      * intros e' He'. apply elem_of_cons in He' as [->|He']; [by left|]. by apply H1.
      * intros x Hx. destruct (H3 x Hx) as (Ha & Hb & Hc). split; [done|].
        split; [apply elem_of_cons; by right|done].
    + destruct ids as [|k ks]; [done|].
      destruct (build_new (e :: existing) es ks now) as [rs'|] eqn:E; [|done].
      injection H as <-. destruct (IH _ _ _ E) as (H1 & H2 & H3). split; [|split].
      * intros e' He'. apply elem_of_cons in He' as [->|He'].
        -- right. cbn. apply elem_of_cons. by left.
        -- destruct (H1 e' He') as [Hx|Hx].
           ++ apply elem_of_cons in Hx as [->|Hx]; [right; cbn; apply elem_of_cons; by left|by left].
           ++ right. cbn. apply elem_of_cons. by right.
      * cbn. constructor; [|done]. intros Hx.
        apply list_elem_of_fmap in Hx as (x & Hx & Hxin).
        destruct (H3 x Hxin) as (Ha & _). apply Ha. rewrite <- Hx. apply elem_of_cons. by left.
      * intros x Hx. apply elem_of_cons in Hx as [->|Hx].
        -- cbn. split; [done|]. split; [apply elem_of_cons; by left|done].
        -- destruct (H3 x Hx) as (Ha & Hb & Hc). split; [|split; [apply elem_of_cons; by right|done]].
           intros Hx'. apply Ha. apply elem_of_cons. by right.
Qed.

Lemma upsertRecords_append r us :
  index_ok r -> NoDup (map id us) -> (forall u, u ∈ us -> indexRef r !! id u = None) ->
  recordsRef (upsertRecords r us) = recordsRef r ++ us /\
  (forall u, u ∈ us -> is_queued (status u) = true -> id u ∈ qset Dns (upsertRecords r us)).
Proof.
  revert r. induction us as [|u us IH]; intros r Hok Hnd Hfr.
  - split; [by rewrite app_nil_r|]. intros u Hu. by apply elem_of_nil in Hu.
  - cbn in Hnd. apply NoDup_cons in Hnd as [Hnu Hnd].
    change (upsertRecords r (u :: us)) with (upsertRecords (upsertOne r u) us).
    assert (Hu : indexRef r !! id u = None) by (apply Hfr; apply elem_of_cons; by left).
    destruct (IH (upsertOne r u)) as [H1 H2].
    { by apply upsertOne_index_ok. }
    { done. }
    { intros v Hv. rewrite upsertOne_index, Hu. rewrite lookup_insert_ne.
      - apply Hfr. apply elem_of_cons. by right.
      - intros E. apply Hnu. rewrite E. by apply list_elem_of_fmap_2. }
    split.
    + rewrite H1, upsertOne_records, Hu. by rewrite <- app_assoc.
    + intros v Hv Hq. apply elem_of_cons in Hv as [->|Hv]; [|by apply H2].
      rewrite qset_upsertRecords_other by done.
      unfold qset. rewrite upsertOne_stage. apply upd_dns_self. by left.
Qed.

(** X10. From a reachable state, a successful enqueueDomains appends the new
    records after the stored ones, which it leaves untouched. The new
    records have distinct domains taken from the entries and not stored
    before; each is queued with rdapStatus not_checked, core
    deriveCore(domain) and checkedAt null, and sits in the DNS queue.
    Afterwards every entry's domain is stored. *)
Theorem enqueueDomains_appends (entries ids : list string) (now : Z) (s s' : Sys) :
  reachable s -> enqueueDomains entries ids now s = Some s' ->
  exists toAdd, recordsRef (refs s') = recordsRef (refs s) ++ toAdd /\
    NoDup (map domain toAdd) /\
    (forall x, x ∈ toAdd ->
       domain x ∈ entries /\ (domain x ∉ map domain (recordsRef (refs s))) /\
       status x = Queued /\ rdapStatus x = NotChecked /\ core x = deriveCore (domain x) /\
       checkedAt x = None /\ id x ∈ qset Dns (refs s')) /\
    (forall e, e ∈ entries -> e ∈ map domain (recordsRef (refs s'))).
Proof.
  intros Hr H. pose proof (reachable_Inv s Hr) as HI.
  unfold enqueueDomains in H.
  destruct (build_new _ entries ids now) as [toAdd|] eqn:Eb; [|done].
  destruct (build_new_spec _ _ _ _ _ Eb) as (B1 & B2 & B3).
  destruct (decide _) as [[Hnd Hfr]|]; [|done].
  assert (Hidx : forall u, u ∈ toAdd -> indexRef (refs s) !! id u = None).
  { intros u Hu. destruct (indexRef (refs s) !! id u) as [p|] eqn:E; [|done]. exfalso.
    destruct (inv_refs s HI) as [Hok _]. destruct (Hok _ _ E) as (x & Hx & Hid).
    assert (Hused := inv_used_recs s HI x (list_elem_of_lookup_2 _ _ _ Hx)).
    rewrite Hid in Hused. rewrite List.Forall_forall in Hfr.
    apply (Hfr (id u)); [|done]. apply list_elem_of_In. by apply list_elem_of_fmap_2. }
  destruct toAdd as [|t ts].
  - injection H as <-. exists []. cbn. split; [by rewrite app_nil_r|].
    split; [constructor|]. split; [intros x Hx; by apply elem_of_nil in Hx|].
    intros e He. destruct (B1 e He) as [Hx|Hx]; [done|]. by apply elem_of_nil in Hx.
  - injection H as <-. cbn [refs].
    change (upsertRecords (upsertOne (refs s) t) ts) with (upsertRecords (refs s) (t :: ts)).
    destruct (upsertRecords_append (refs s) (t :: ts)) as [U1 U2]; [apply HI|done|done|].
    exists (t :: ts). rewrite U1. split; [done|]. split; [done|]. split.
    + intros x Hx. destruct (B3 x Hx) as (Ha & Hb & Hc).
      rewrite Hc; cbn. do 6 (split; [done|]). apply U2; [done|]. by rewrite Hc.
    + intros e He. rewrite fmap_app. apply elem_of_app. by apply B1.
Qed.

Lemma enqueueDomains_appends_witness :
  let s := hydrate enqueue_items in
  let s' := from_option (fun t => t) s (enqueueDomains enqueue_entries ["n1"; "n2"] 7 s) in
  reachable s /\ enqueueDomains enqueue_entries ["n1"; "n2"] 7 s = Some s' /\
  exists toAdd, recordsRef (refs s') = recordsRef (refs s) ++ toAdd /\
    NoDup (map domain toAdd) /\
    (forall x, x ∈ toAdd ->
       domain x ∈ enqueue_entries /\ (domain x ∉ map domain (recordsRef (refs s))) /\
       status x = Queued /\ rdapStatus x = NotChecked /\ core x = deriveCore (domain x) /\
       checkedAt x = None /\ id x ∈ qset Dns (refs s')) /\
    (forall e, e ∈ enqueue_entries -> e ∈ map domain (recordsRef (refs s'))).
Proof.
  cbv zeta.
  assert (Hr : reachable (hydrate enqueue_items)).
  { exists enqueue_items, []. split; [apply (bool_decide_unpack _); vm_compute; exact I|reflexivity]. }
  assert (He : enqueueDomains enqueue_entries ["n1"; "n2"] 7 (hydrate enqueue_items)
     = Some (from_option (fun t => t) (hydrate enqueue_items)
               (enqueueDomains enqueue_entries ["n1"; "n2"] 7 (hydrate enqueue_items))))
    by (vm_compute; reflexivity).
  split; [exact Hr|]. split; [exact He|].
  exact (enqueueDomains_appends enqueue_entries ["n1"; "n2"] 7 _ _ Hr He).
Defined.

Section MapProofs.

Lemma map_set_keys {V} (m : list (string * V)) k v :
  keys (map_set m k v) = if decide (k ∈ keys m) then keys m else keys m ++ [k].
Proof.
  unfold keys. induction m as [|[k' v'] m IH]; cbn; [by rewrite decide_False by apply not_elem_of_nil|].
  destruct (decide (k = k')) as [->|Hne].
  - rewrite decide_True by (apply elem_of_cons; by left). done.
  - cbn. rewrite IH.
    destruct (decide (k ∈ map fst m)) as [Hin|Hnin].
    + rewrite decide_True by (apply elem_of_cons; by right). done.
    + rewrite decide_False; [done|]. rewrite elem_of_cons. intros [?|?]; done.
Qed.

Lemma map_set_fresh {V} (m : list (string * V)) k v : k ∉ keys m -> map_set m k v = m ++ [(k, v)].
Proof.
  unfold keys. induction m as [|[k' v'] m IH]; intros Hk; cbn; [done|].
  cbn in Hk. apply not_elem_of_cons in Hk as [Hne Hk].
  rewrite decide_False by done. by rewrite IH.
Qed.

Lemma set_all_fresh m l :
  NoDup (keys m ++ map id l) -> set_all m l = m ++ map (fun r => (id r, r)) l.
Proof.
  revert m. induction l as [|x l IH]; intros m Hnd; cbn; [by rewrite app_nil_r|].
  fold (set_all (map_set m (id x) x) l).
  assert (Hx : id x ∉ keys m).
  { intros Hin. apply NoDup_app in Hnd as (_ & Hd & _). apply (Hd _ Hin). apply elem_of_cons. by left. }
  rewrite map_set_fresh by done. rewrite IH; [by rewrite <- app_assoc|].
  unfold keys in *. rewrite map_app, <- app_assoc. exact Hnd.
Qed.

Lemma map_set_assoc {V} (m : list (string * V)) k v k' :
  assoc k' (map_set m k v) = if decide (k' = k) then Some v else assoc k' m.
Proof.
  induction m as [|[k0 v0] m IH]; cbn.
  - unfold assoc; cbn. destruct (decide (k' = k)) as [->|Hne].
    + by rewrite bool_decide_true.
    + rewrite bool_decide_false by congruence. done.
  - destruct (decide (k = k0)) as [->|Hne].
    + unfold assoc; cbn. destruct (decide (k' = k0)) as [->|Hne'].
      * by rewrite bool_decide_true.
      * rewrite !bool_decide_false by congruence. done.
    + unfold assoc in *; cbn. destruct (bool_decide (k0 = k')) eqn:E; cbn.
      * apply bool_decide_eq_true in E as <-. by rewrite decide_False by congruence.
      * apply IH.
Qed.

Lemma map_set_wf m item : wf_map m -> wf_map (map_set m (id item) item).
Proof.
  induction m as [|[k v] m IH]; intros Hm; cbn [map_set]; [by constructor|].
  apply Forall_cons in Hm as [Hkv Hm]. cbn in Hkv.
  destruct (decide (id item = k)) as [E|Hne]; constructor; cbn; [done|done|done|by apply IH].
Qed.

Lemma set_all_wf m items : wf_map m -> wf_map (set_all m items).
Proof.
  revert m. induction items as [|x items IH]; intros m Hm; [done|].
  apply IH. by apply map_set_wf.
Qed.

Lemma find_app {A} (f : A -> bool) l1 l2 :
  List.find f (l1 ++ l2) = match List.find f l1 with Some x => Some x | None => List.find f l2 end.
Proof. induction l1 as [|x l1 IH]; cbn; [done|]. by destruct (f x). Qed.

Lemma last_id_cons k x l :
  last_id k (x :: l) = match last_id k l with
                       | Some u => Some u
                       | None => if decide (id x = k) then Some x else None
                       end.
Proof.
  unfold last_id, find_id. cbn. rewrite find_app.
  destruct (List.find _ (rev l)); [done|]. cbn.
  destruct (decide (id x = k)) as [E|E].
  - by rewrite bool_decide_true.
  - by rewrite bool_decide_false.
Qed.

Lemma set_all_assoc m items k :
  assoc k (set_all m items) = match last_id k items with Some u => Some u | None => assoc k m end.
Proof.
  revert m. induction items as [|x items IH]; intros m; [done|].
  cbn [set_all fold_left]. fold (set_all (map_set m (id x) x) items). rewrite IH, last_id_cons.
  destruct (last_id k items); [done|]. rewrite map_set_assoc.
  destruct (decide (k = id x)) as [->|Hne].
  - by rewrite decide_True.
  - rewrite decide_False; congruence.
Qed.

Lemma set_all_keys m items :
  NoDup (keys m) ->
  exists fresh, keys (set_all m items) = keys m ++ fresh /\ NoDup (keys m ++ fresh) /\
    (forall k, k ∈ fresh <-> k ∈ map id items /\ k ∉ keys m).
Proof.
  revert m. induction items as [|x items IH]; intros m Hnd.
  - exists []. rewrite app_nil_r. split; [done|]. split; [done|].
    intros k. split; [intros Hk; by apply elem_of_nil in Hk|]. intros [Hk _]. by apply elem_of_nil in Hk.
  - cbn [set_all fold_left]. fold (set_all (map_set m (id x) x) items).
    assert (Hnd1 : NoDup (keys (map_set m (id x) x))).
    { rewrite map_set_keys. destruct (decide (id x ∈ keys m)); [done|].
      apply NoDup_app. split; [done|]. split; [|apply NoDup_singleton].
      intros k Hk Hk'. apply list_elem_of_singleton in Hk' as ->. done. }
    destruct (IH _ Hnd1) as (fresh & H1 & H2 & H3).
    rewrite map_set_keys in H1, H2, H3. destruct (decide (id x ∈ keys m)) as [Hin|Hnin].
    + exists fresh. split; [done|]. split; [done|]. intros k. rewrite H3. cbn.
      rewrite elem_of_cons. split; [intros [Ha Hb]; split; auto|].
      intros [[->|Ha] Hb]; [done|auto].
    + exists (id x :: fresh). rewrite <- app_assoc in H1, H2. split; [done|]. split; [done|].
      intros k. rewrite elem_of_cons, H3. cbn. rewrite elem_of_cons, elem_of_app, list_elem_of_singleton.
      split.
      * intros [->|[Ha Hb]]; [split; [by left|done]|]. split; [by right|]. intros ?; apply Hb; by left.
      * intros [[->|Ha] Hb]; [by left|]. destruct (decide (k = id x)) as [->|Hne]; [by left|].
        right. split; [done|]. intros [?|?]; done.
Qed.

Lemma wf_values_keys m : wf_map m -> map id (map snd m) = keys m.
Proof.
  induction m as [|[k v] m IH]; intros Hm; [done|].
  apply Forall_cons in Hm as [Hkv Hm]. cbn in *. by rewrite Hkv, IH.
Qed.

Lemma wf_find_assoc m k : wf_map m -> find_id k (map snd m) = assoc k m.
Proof.
  induction m as [|[k0 v] m IH]; intros Hm; [done|].
  apply Forall_cons in Hm as [Hkv Hm]. cbn in *. unfold find_id, assoc in *; cbn.
  rewrite Hkv. destruct (bool_decide (k0 = k)); [done|]. by apply IH.
Qed.

Lemma find_id_last_nodup k l : NoDup (map id l) -> last_id k l = find_id k l.
Proof.
  induction l as [|x l IH]; intros Hnd; [done|].
  cbn in Hnd. apply NoDup_cons in Hnd as [Hx Hnd].
  rewrite last_id_cons, IH by done. unfold find_id. cbn.
  destruct (decide (id x = k)) as [<-|Hne].
  - rewrite bool_decide_true by done.
    destruct (List.find _ l) as [y|] eqn:E; [|done].
    apply List.find_some in E as [Hy Hid]. apply bool_decide_eq_true in Hid.
    exfalso. apply Hx. rewrite <- Hid. apply list_elem_of_fmap_2. by apply list_elem_of_In.
  - rewrite bool_decide_false by done. by destruct (List.find _ l).
Qed.

Lemma map_set_existing (prev : list DomainRecord) (g : DomainRecord -> DomainRecord) u :
  NoDup (map id prev) -> id u ∈ map id prev ->
  map_set (map (fun r => (id r, g r)) prev) (id u) u =
  map (fun r => (id r, if decide (id r = id u) then u else g r)) prev.
Proof.
  induction prev as [|r prev IH]; intros Hnd Hu; [by apply elem_of_nil in Hu|].
  cbn in Hnd. apply NoDup_cons in Hnd as [Hr Hnd]. cbn [map map_set].
  destruct (decide (id u = id r)) as [E|Hne].
  - rewrite decide_True by done. f_equal.
    apply map_ext_in. intros r' Hr'. rewrite decide_False; [done|].
    intros E'. apply Hr. rewrite <- E, <- E'. apply list_elem_of_fmap_2. by apply list_elem_of_In.
  - rewrite decide_False by congruence. f_equal. apply IH; [done|].
    cbn in Hu. apply elem_of_cons in Hu as [?|?]; [congruence|done].
Qed.

Lemma set_all_existing (prev : list DomainRecord) (g : DomainRecord -> DomainRecord) us :
  NoDup (map id prev) -> (forall u, u ∈ us -> id u ∈ map id prev) ->
  set_all (map (fun r => (id r, g r)) prev) us =
  map (fun r => (id r, match last_id (id r) us with Some u => u | None => g r end)) prev.
Proof.
  revert g. induction us as [|u us IH]; intros g Hnd Hus; [done|].
  cbn [set_all fold_left]. fold (set_all (map_set (map (fun r => (id r, g r)) prev) (id u) u) us).
  rewrite map_set_existing by (try done; apply Hus; apply elem_of_cons; by left).
  rewrite (IH (fun r => if decide (id r = id u) then u else g r)); [|done|].
  - apply map_ext. intros r. rewrite last_id_cons. destruct (last_id (id r) us); [done|].
    destruct (decide (id r = id u)) as [E|E]; [by rewrite decide_True|by rewrite decide_False].
  - intros v Hv. apply Hus. apply elem_of_cons. by right.
Qed.

Lemma upsertMerged_replace (prev us : list DomainRecord) :
  NoDup (map id prev) -> (forall u, u ∈ us -> id u ∈ map id prev) ->
  upsertMerged prev us = map (fun r => match last_id (id r) us with Some u => u | None => r end) prev.
Proof.
  intros Hnd Hus. destruct us as [|u us].
  - cbn. symmetry. apply map_id.
  - cbn [upsertMerged].
    assert (E0 : set_all [] prev = map (fun r => (id r, (fun r => r) r)) prev) by (by apply set_all_fresh).
    rewrite E0, set_all_existing by done. rewrite map_map. reflexivity.
Qed.

Lemma last_id_some k l u : last_id k l = Some u -> u ∈ l /\ id u = k.
Proof.
  unfold last_id, find_id. intros H. apply List.find_some in H as [H1 H2].
  apply bool_decide_eq_true in H2. split; [|done]. apply list_elem_of_In. by apply in_rev.
Qed.

Lemma last_id_none k l : last_id k l = None -> k ∉ map id l.
Proof.
  unfold last_id, find_id. intros H Hk. apply list_elem_of_fmap in Hk as (x & -> & Hx).
  eapply List.find_none in H; [|apply in_rev; rewrite rev_involutive; by apply list_elem_of_In].
  by rewrite bool_decide_true in H.
Qed.

End MapProofs.

(** X11. The setRecords updater of the earlier upsertRecords keeps ids
    unique and keeps the existing records in place, appending only ids that
    are new. The record under each id is the last update with that id, or
    the previous record when no update has it. *)
Theorem upsertMerged_spec (prev updates : list DomainRecord) :
  NoDup (map id prev) ->
  let merged := upsertMerged prev updates in
  NoDup (map id merged) /\
  (exists fresh, map id merged = map id prev ++ fresh /\
     forall k, k ∈ fresh <-> k ∈ map id updates /\ k ∉ map id prev) /\
  (forall k, find_id k merged =
     match last_id k updates with Some u => Some u | None => find_id k prev end).
Proof.
  intros Hnd. cbv zeta. destruct updates as [|u us].
  - split; [done|]. split.
    + exists []. rewrite app_nil_r. split; [done|]. intros k.
      split; [intros Hk; by apply elem_of_nil in Hk|]. intros [Hk _]. by apply elem_of_nil in Hk.
    + intros k. done.
  - cbn [upsertMerged].
    assert (E0 : set_all [] prev = map (fun r => (id r, r)) prev) by (by apply set_all_fresh).
    assert (K0 : keys (set_all [] prev) = map id prev).
    { rewrite E0. unfold keys. rewrite map_map. reflexivity. }
    assert (V0 : map snd (set_all [] prev) = prev).
    { rewrite E0, map_map. apply map_id. }
    assert (W0 : wf_map (set_all [] prev)) by (apply set_all_wf; constructor).
    assert (W1 := set_all_wf _ (u :: us) W0).
    destruct (set_all_keys (set_all [] prev) (u :: us)) as (fresh & K1 & N1 & F1); [by rewrite K0|].
    rewrite K0 in K1, N1, F1.
    split; [|split].
    + by rewrite wf_values_keys, K1.
    + exists fresh. by rewrite wf_values_keys.
    + intros k. rewrite wf_find_assoc, set_all_assoc by done.
      destruct (last_id k (u :: us)); [done|].
      rewrite <- wf_find_assoc by done. by rewrite V0.
Qed.

(** The pool of one pass of the [while] loop in the first hook's
    [handleStart]: queued records, or in RDAP-only mode the available
    records whose [rdapStatus] is not final. *)

Lemma batchCandidates_sub b l x : x ∈ firstn BATCH_SIZE (batchCandidates b l) -> x ∈ l.
Proof.
  intros Hx. apply elem_of_take in Hx as (i & Hi & _). apply list_elem_of_lookup_2, list_elem_of_In in Hi.
  unfold batchCandidates in Hi. rename Hi into Hx. destruct b; apply List.filter_In in Hx as [Hx _]; by apply list_elem_of_In.
Qed.

Lemma id_batchLookup b clock answer r : id (batchLookup b clock answer r) = id r.
Proof. unfold batchLookup. destruct b; [apply id_runRdapOnly|apply id_runDnsLookup]. Qed.

Lemma replace_by_id (records batch : list DomainRecord) (f : DomainRecord -> DomainRecord) :
  NoDup (map id records) -> (forall x, x ∈ batch -> x ∈ records) -> (forall r, id (f r) = id r) ->
  upsertMerged records (map f batch) =
  map (fun r => if decide (id r ∈ map id batch) then f r else r) records.
Proof.
  intros Hnd Hsub Hf. rewrite upsertMerged_replace; [|done|].
  - apply map_ext_in. intros r Hr. apply list_elem_of_In in Hr.
    destruct (last_id (id r) (map f batch)) as [u|] eqn:E.
    + apply last_id_some in E as [Hu Hid]. apply list_elem_of_fmap in Hu as (b & -> & Hb).
      rewrite Hf in Hid. assert (b = r) as -> by (apply (NoDup_map_id_inj records); auto).
      rewrite decide_True; [done|]. by apply list_elem_of_fmap_2.
    + apply last_id_none in E. rewrite decide_False; [done|].
      intros Hin. apply E. rewrite map_map. erewrite map_ext; [exact Hin|]. intros x. apply Hf.
  - intros u Hu. apply list_elem_of_fmap in Hu as (b & -> & Hb). rewrite Hf.
    apply list_elem_of_fmap_2. auto.
Qed.

Lemma batchPass_map b clock answer records records' :
  NoDup (map id records) -> batchPass b clock answer records = Some records' ->
  records' = map (fun r => if decide (id r ∈ map id (firstn BATCH_SIZE (batchCandidates b records)))
                           then batchLookup b clock answer r else r) records.
Proof.
  intros Hnd H.
  assert (H' : records' = upsertMerged (upsertMerged records
      (map (fun item => with_status item Checking) (firstn BATCH_SIZE (batchCandidates b records))))
      (map (batchLookup b clock answer) (firstn BATCH_SIZE (batchCandidates b records)))).
  { unfold batchPass in H. destruct (batchCandidates b records) as [|c cs]; [done|].
    injection H; intros <-; reflexivity. }
  subst records'. clear H.
  set (batch := firstn BATCH_SIZE (batchCandidates b records)).
  assert (Hsub : forall x, x ∈ batch -> x ∈ records) by apply batchCandidates_sub.
  rewrite (replace_by_id records batch (fun item => with_status item Checking)) by done.
  set (g1 := fun r => if decide (id r ∈ map id batch) then with_status r Checking else r).
  assert (Hg1 : map id (map g1 records) = map id records).
  { rewrite map_map. apply map_ext. intros r. unfold g1. by destruct (decide _). }
  rewrite upsertMerged_replace.
  - rewrite map_map. apply map_ext_in. intros r Hr. apply list_elem_of_In in Hr.
    assert (Hid : id (g1 r) = id r) by (unfold g1; by destruct (decide _)).
    rewrite Hid. destruct (last_id (id r) (map (batchLookup b clock answer) batch)) as [u|] eqn:E.
    + apply last_id_some in E as [Hu Hu']. apply list_elem_of_fmap in Hu as (x & -> & Hx).
      rewrite id_batchLookup in Hu'.
      assert (x = r) as -> by (apply (NoDup_map_id_inj records); auto).
      rewrite decide_True; [done|]. by apply list_elem_of_fmap_2.
    + apply last_id_none in E. unfold g1. rewrite !decide_False; [done| |];
        intros Hin; apply E; rewrite map_map; (erewrite map_ext; [exact Hin|]); apply id_batchLookup.
  - by rewrite Hg1.
  - intros u Hu. rewrite Hg1. apply list_elem_of_fmap in Hu as (x & -> & Hx).
    rewrite id_batchLookup. apply list_elem_of_fmap_2. auto.
Qed.

Lemma NoDup_map_id_filter (f : DomainRecord -> bool) l :
  NoDup (map id l) -> NoDup (map id (List.filter f l)).
Proof.
  induction l as [|x l IH]; intros Hnd; cbn; [constructor|].
  cbn in Hnd. apply NoDup_cons in Hnd as [Hx Hnd].
  destruct (f x); cbn; [|by apply IH]. constructor; [|by apply IH].
  intros Hin. apply Hx. apply list_elem_of_fmap in Hin as (y & -> & Hy).
  apply list_elem_of_fmap_2. apply list_elem_of_In in Hy. apply List.filter_In in Hy as [Hy _].
  by apply list_elem_of_In.
Qed.

Lemma filter_not_take (l : list DomainRecord) n :
  NoDup (map id l) ->
  List.filter (fun r => negb (bool_decide (id r ∈ map id (firstn n l)))) l = skipn n l.
Proof.
  revert n. induction l as [|x l IH]; intros n Hnd; [by destruct n|].
  cbn in Hnd. apply NoDup_cons in Hnd as [Hx Hnd].
  destruct n as [|n].
  - cbn. rewrite bool_decide_false by apply not_elem_of_nil. cbn. f_equal.
    clear. induction l as [|y l IH]; cbn; [done|].
    rewrite bool_decide_false by apply not_elem_of_nil. cbn. by rewrite IH.
  - cbn [firstn skipn map List.filter]. rewrite bool_decide_true by (apply elem_of_cons; by left). cbn.
    rewrite <- (IH n) by done. apply List.filter_ext_in. intros r Hr. f_equal.
    apply bool_decide_ext. rewrite elem_of_cons. split; [|auto].
    intros [E|?]; [|done]. exfalso. apply Hx. rewrite <- E.
    apply list_elem_of_fmap_2. by apply list_elem_of_In.
Qed.

Lemma filter_map_comm (p : DomainRecord -> bool) (F : DomainRecord -> DomainRecord) l :
  List.filter p (map F l) = map F (List.filter (fun r => p (F r)) l).
Proof. induction l as [|x l IH]; cbn; [done|]. rewrite IH. by destruct (p (F x)). Qed.

Lemma filter_filter_and (f g : DomainRecord -> bool) l :
  List.filter g (List.filter f l) = List.filter (fun x => f x && g x) l.
Proof.
  induction l as [|x l IH]; [done|]. cbn.
  destruct (f x); cbn; [destruct (g x); cbn|]; rewrite ?IH; done.
Qed.

Lemma runDnsLookup_not_queued r now o ro : is_queued (status (runDnsLookup r now o ro)) = false.
Proof.
  unfold runDnsLookup. destruct o as [|st [|[code|]]]; [done|..]; destruct (http_ok st); cbn; try done.
  destruct (code =? 3); [done|]. by destruct ((code =? 2) || (code =? 5)).
Qed.

(** X12. In DNS mode, one pass of the earlier handleStart loop keeps the
    records' ids in order and removes min(BATCH_SIZE, pool size) records
    from the pool of queued records. *)
Theorem batchPass_dns_progress (clock : string -> Z) (answer : string -> DnsOutcome * RdapOutcome)
    (records records' : list DomainRecord) :
  NoDup (map id records) -> batchPass false clock answer records = Some records' ->
  map id records' = map id records /\
  (length (batchCandidates false records') + Nat.min BATCH_SIZE (length (batchCandidates false records))
   = length (batchCandidates false records))%nat.
Proof.
  intros Hnd H. pose proof (batchPass_map _ _ _ _ _ Hnd H) as ->. split.
  { rewrite map_map. apply map_ext. intros r. by destruct (decide _); [apply id_batchLookup|]. }
  set (Q := batchCandidates false records).
  unfold batchCandidates at 1. rewrite filter_map_comm, length_map.
  rewrite (List.filter_ext (fun r => is_queued (status _))
             (fun r => is_queued (status r) &&
                       negb (bool_decide (id r ∈ map id (firstn BATCH_SIZE Q))))).
  - rewrite <- filter_filter_and. fold (batchCandidates false records). fold Q.
    rewrite filter_not_take by (apply NoDup_map_id_filter, Hnd).
    rewrite length_skipn. lia.
  - intros r. destruct (decide (id r ∈ map id (firstn BATCH_SIZE Q))) as [Hin|Hnin].
    + rewrite bool_decide_true by done. rewrite andb_false_r. apply runDnsLookup_not_queued.
    + rewrite bool_decide_false by done. by rewrite andb_true_r.
Qed.

(** X13. In RDAP-only mode, when every RDAP lookup of a pass answers
    unknown, the pass leaves the candidate pool as it was, so the next pass
    selects the same records again. *)
Theorem batchPass_rdap_unknown_repeats (clock : string -> Z)
    (answer : string -> DnsOutcome * RdapOutcome) (records records' : list DomainRecord) :
  NoDup (map id records) ->
  (forall r, r ∈ firstn BATCH_SIZE (batchCandidates true records) ->
     runRdapLookup (answer (id r)).2 = RdapUnknown) ->
  batchPass true clock answer records = Some records' ->
  map id (batchCandidates true records') = map id (batchCandidates true records).
Proof.
  intros Hnd Hu H. pose proof (batchPass_map _ _ _ _ _ Hnd H) as ->.
  set (B := firstn BATCH_SIZE (batchCandidates true records)).
  unfold batchCandidates at 1. rewrite filter_map_comm, map_map.
  rewrite (map_ext _ id); [|intros r; by destruct (decide _); [apply id_batchLookup|]].
  unfold batchCandidates. f_equal. apply List.filter_ext_in. intros r Hr.
  destruct (decide (id r ∈ map id B)) as [Hin|Hnin]; [|done].
  apply list_elem_of_fmap in Hin as (x & Ex & Hx).
  assert (x = r) as ->.
  { apply (NoDup_map_id_inj records); [done|by apply (batchCandidates_sub true)|by apply list_elem_of_In|done]. }
  pose proof (Hu r Hx) as Hunk.
  apply elem_of_take in Hx as (i & Hi & _). apply list_elem_of_lookup_2, list_elem_of_In in Hi.
  cbn in Hi. apply List.filter_In in Hi as [_ Hc]. rewrite Hc.
  unfold batchLookup, runRdapOnly. cbn. rewrite Hunk. cbn.
  by destruct (status r).
Qed.

Lemma upsertMerged_spec_witness :
  NoDup (map id merge_prev) /\
  (let merged := upsertMerged merge_prev merge_updates in
   NoDup (map id merged) /\
   (exists fresh, map id merged = map id merge_prev ++ fresh /\
      forall k, k ∈ fresh <-> k ∈ map id merge_updates /\ k ∉ map id merge_prev) /\
   (forall k, find_id k merged =
      match last_id k merge_updates with Some u => Some u | None => find_id k merge_prev end)).
Proof.
  assert (H : NoDup (map id merge_prev)) by (apply (bool_decide_unpack _); vm_compute; exact I).
  split; [exact H|]. exact (upsertMerged_spec merge_prev merge_updates H).
Defined.

Lemma batchPass_dns_progress_witness :
  let records' := from_option (fun t => t) [] (batchPass false pass_clock pass_answer pass_records) in
  NoDup (map id pass_records) /\ batchPass false pass_clock pass_answer pass_records = Some records' /\
  (map id records' = map id pass_records /\
   (length (batchCandidates false records') + Nat.min BATCH_SIZE (length (batchCandidates false pass_records))
    = length (batchCandidates false pass_records))%nat).
Proof.
  cbv zeta.
  assert (H1 : NoDup (map id pass_records)) by (apply (bool_decide_unpack _); vm_compute; exact I).
  assert (H2 : batchPass false pass_clock pass_answer pass_records
     = Some (from_option (fun t => t) [] (batchPass false pass_clock pass_answer pass_records)))
    by (vm_compute; reflexivity).
  split; [exact H1|]. split; [exact H2|].
  exact (batchPass_dns_progress pass_clock pass_answer pass_records _ H1 H2).
Defined.

Lemma batchPass_rdap_unknown_repeats_witness :
  let records' := from_option (fun t => t) [] (batchPass true pass_clock pass_answer pass_records) in
  NoDup (map id pass_records) /\
  (forall r, r ∈ firstn BATCH_SIZE (batchCandidates true pass_records) ->
     runRdapLookup (pass_answer (id r)).2 = RdapUnknown) /\
  batchPass true pass_clock pass_answer pass_records = Some records' /\
  map id (batchCandidates true records') = map id (batchCandidates true pass_records).
Proof.
  cbv zeta.
  assert (H1 : NoDup (map id pass_records)) by (apply (bool_decide_unpack _); vm_compute; exact I).
  assert (H2 : forall r, r ∈ firstn BATCH_SIZE (batchCandidates true pass_records) ->
     runRdapLookup (pass_answer (id r)).2 = RdapUnknown) by (intros r _; reflexivity).
  assert (H3 : batchPass true pass_clock pass_answer pass_records
     = Some (from_option (fun t => t) [] (batchPass true pass_clock pass_answer pass_records)))
    by (vm_compute; reflexivity).
  split; [exact H1|]. split; [exact H2|]. split; [exact H3|].
  exact (batchPass_rdap_unknown_repeats pass_clock pass_answer pass_records _ H1 H2 H3).
Defined.

Lemma totalPages_ge1 n : 1 <= totalPages n.
Proof. unfold totalPages. lia. Qed.

Lemma pageStep_ge1 p a : 1 <= p -> 1 <= pageStep p a.
Proof.
  pose proof (totalPages_ge1). destruct a; simpl; try lia.
  - specialize (H n). lia.
  - specialize (H n). destruct (totalPages n <? p); lia.
Qed.

Lemma fold_pageStep_ge1 acts p : 1 <= p -> 1 <= fold_left pageStep acts p.
Proof.
  revert p; induction acts as [|a acts IH]; intros p Hp; simpl; [done|].
  apply IH, pageStep_ge1, Hp.
Qed.

Lemma totalPages_bounds n : 0 < n -> (totalPages n - 1) * 20 < n <= totalPages n * 20.
Proof.
  unfold totalPages, PAGE_SIZE. intros.
  pose proof (Z.div_mod (- n) 20 ltac:(lia)). pose proof (Z.mod_pos_bound (- n) 20 ltac:(lia)). lia.
Qed.

Lemma totalPages_cover n : 0 <= n -> n <= totalPages n * 20.
Proof.
  unfold totalPages, PAGE_SIZE. intros.
  pose proof (Z.div_mod (- n) 20 ltac:(lia)). pose proof (Z.mod_pos_bound (- n) 20 ltac:(lia)). lia.
Qed.

Lemma slice_pos {A} (l : list A) a b :
  0 <= a -> 0 <= b ->
  js_slice l a b =
  take (Z.to_nat (Z.min b (Z.of_nat (length l)) - Z.min a (Z.of_nat (length l))))
       (drop (Z.to_nat (Z.min a (Z.of_nat (length l)))) l).
Proof.
  intros Ha Hb. unfold js_slice, slice_index.
  destruct (a <? 0) eqn:E1; [lia|]. destruct (b <? 0) eqn:E2; [lia|]. done.
Qed.

(** X14. For a nonempty sorted list and a page reached through the page
    setters from 1, the page shown is nonempty, holds at most PAGE_SIZE
    rows, 1 <= showingStart <= showingEnd <= length, and it is exactly rows
    showingStart..showingEnd. *)
Theorem pagedRecords_window {A} (sorted : list A) (acts : list PageAction) :
  let page := pageAfter acts in
  let n := Z.of_nat (length sorted) in
  sorted <> [] ->
  pagedRecords sorted page <> [] /\
  (length (pagedRecords sorted page) <= 20)%nat /\
  1 <= showingStart page n <= showingEnd page n /\ showingEnd page n <= n /\
  Z.of_nat (length (pagedRecords sorted page)) = showingEnd page n - showingStart page n + 1 /\
  pagedRecords sorted page =
    take (Z.to_nat (showingEnd page n - showingStart page n + 1))
         (drop (Z.to_nat (showingStart page n - 1)) sorted).
Proof.
  intros page n Hne.
  assert (Hp : 1 <= page) by apply fold_pageStep_ge1, Z.le_refl.
  assert (Hn : 0 < n) by (destruct sorted; [done|]; unfold n; simpl; lia).
  pose proof (totalPages_bounds n Hn) as HT.
  assert (Hsp : 1 <= safePage page n <= totalPages n) by (unfold safePage; lia).
  unfold pagedRecords, showingStart, showingEnd. fold n.
  rewrite slice_pos by (unfold PAGE_SIZE; lia). fold n.
  unfold PAGE_SIZE.
  replace (Z.min ((safePage page n - 1) * 20) n) with ((safePage page n - 1) * 20) by lia.
  set (sp := safePage page n) in *.
  assert (Hlen : length (take (Z.to_nat (Z.min (sp * 20) n - (sp - 1) * 20))
                       (drop (Z.to_nat ((sp - 1) * 20)) sorted)) =
                 Z.to_nat (Z.min (sp * 20) n - (sp - 1) * 20)).
  { rewrite length_take, length_drop. unfold n in *. lia. }
  split; [|split; [|split; [|split; [|split]]]].
  - intros E. rewrite E in Hlen. simpl in Hlen. lia.
  - rewrite Hlen. lia.
  - lia.
  - lia.
  - rewrite Hlen. lia.
  - f_equal; f_equal; lia.
Qed.

(** The rows shown on pages 1, 2, ..., totalPages in turn. *)

Lemma pagedRecords_k {A} (sorted : list A) (k : nat) :
  (1 <= k)%nat -> Z.of_nat k <= totalPages (Z.of_nat (length sorted)) ->
  pagedRecords sorted (Z.of_nat k) =
  take (Z.to_nat (Z.min (Z.of_nat k * 20) (Z.of_nat (length sorted)))
                 - Z.to_nat (Z.min ((Z.of_nat k - 1) * 20) (Z.of_nat (length sorted))))
       (drop (Z.to_nat (Z.min ((Z.of_nat k - 1) * 20) (Z.of_nat (length sorted)))) sorted).
Proof.
  intros H1 H2. unfold pagedRecords.
  replace (safePage (Z.of_nat k) (Z.of_nat (length sorted))) with (Z.of_nat k)
    by (unfold safePage; lia).
  rewrite slice_pos by (unfold PAGE_SIZE; lia). unfold PAGE_SIZE.
  match goal with |- take ?a ?l = take ?b ?l => replace a with b by lia end; reflexivity.
Qed.

Lemma allPages_prefix {A} (sorted : list A) (m : nat) :
  Z.of_nat m <= totalPages (Z.of_nat (length sorted)) ->
  concat (map (fun k => pagedRecords sorted (Z.of_nat k)) (seq 1 m)) =
  take (Z.to_nat (Z.min (Z.of_nat m * 20) (Z.of_nat (length sorted)))) sorted.
Proof.
  induction m as [|m IH]; intros Hm.
  - cbn [seq map concat]. replace (Z.of_nat 0 * 20) with 0 by lia. rewrite Z.min_l by lia. reflexivity.
  - rewrite seq_S, map_app, concat_app, IH by lia. simpl. rewrite app_nil_r.
    rewrite pagedRecords_k by lia.
    replace (Z.of_nat (S m) - 1) with (Z.of_nat m) by lia.
    rewrite take_take_drop. f_equal. lia.
Qed.

(** X15. Pages 1 to totalPages of the sorted list, concatenated, give back
    the sorted list: each row is shown on exactly one page, in order. *)
Theorem allPages_sorted {A} (sorted : list A) : allPages sorted = sorted.
Proof.
  unfold allPages.
  pose proof (totalPages_cover (Z.of_nat (length sorted)) ltac:(lia)).
  pose proof (totalPages_ge1 (Z.of_nat (length sorted))).
  rewrite allPages_prefix by lia.
  rewrite take_ge; [done|]. lia.
Qed.

(** The [field] and [direction] arguments of sortRecords. *)

Section SortProofs.
Variable key : DomainRecord -> Z.
Local Abbreviation cmpk := (key_compare key).

Lemma insert_sorted_perm cmp x l : insert_sorted cmp x l ≡ₚ x :: l.
Proof.
  induction l as [|y l IH]; simpl; [done|].
  destruct (cmp x y <=? 0); [done|]. rewrite IH. apply Permutation_swap.
Qed.

Lemma sort_by_perm cmp l : sort_by cmp l ≡ₚ l.
Proof.
  induction l as [|x l IH]; simpl; [done|]. rewrite insert_sorted_perm, IH. done.
Qed.

Lemma insert_sorted_key x l :
  Sorted (fun a b => key a <= key b) l ->
  Sorted (fun a b => key a <= key b) (insert_sorted cmpk x l).
Proof.
  induction 1 as [|y l Hs IH Hhd]; simpl; [repeat constructor|].
  unfold key_compare at 1. destruct (key x - key y <=? 0) eqn:E.
  - constructor; [constructor; done|constructor; lia].
  - constructor; [exact IH|].
    destruct l as [|z l]; simpl; [constructor; lia|].
    unfold key_compare at 1. destruct (key x - key z <=? 0); constructor; [lia|].
    by inversion Hhd.
Qed.

Lemma sort_by_key l : Sorted (fun a b => key a <= key b) (sort_by cmpk l).
Proof.
  induction l as [|x l IH]; simpl; [constructor|]. by apply insert_sorted_key.
Qed.

Lemma insert_sorted_filter t x l :
  List.filter (fun r => key r =? t) (insert_sorted cmpk x l) =
  if key x =? t then x :: List.filter (fun r => key r =? t) l
  else List.filter (fun r => key r =? t) l.
Proof.
  induction l as [|y l IH]; simpl; [by destruct (key x =? t)|].
  unfold key_compare at 1. destruct (key x - key y <=? 0) eqn:E; simpl.
  - destruct (key x =? t); reflexivity.
  - rewrite IH. destruct (key x =? t) eqn:Ex, (key y =? t) eqn:Ey; try reflexivity. lia.
Qed.

Lemma sort_by_filter t l :
  List.filter (fun r => key r =? t) (sort_by cmpk l) = List.filter (fun r => key r =? t) l.
Proof.
  induction l as [|x l IH]; simpl; [done|].
  rewrite insert_sorted_filter, IH. destruct (key x =? t); reflexivity.
Qed.

End SortProofs.

Lemma Sorted_mono {A} (R R' : A -> A -> Prop) l :
  (forall a b, R a b -> R' a b) -> Sorted R l -> Sorted R' l.
Proof.
  intros HR. induction 1 as [|x l Hs IH Hhd]; constructor; [done|].
  destruct Hhd; constructor; auto.
Qed.

Lemma sort_by_ext c1 c2 l : (forall a b, c1 a b = c2 a b) -> sort_by c1 l = sort_by c2 l.
Proof.
  intros H. induction l as [|x l IH]; simpl; [done|]. rewrite IH.
  clear IH. induction (sort_by c2 l) as [|y l' IH]; simpl; [done|].
  rewrite H, IH. done.
Qed.

(** X16. sortRecords returns a permutation of its input for every field and
    direction. By createdAt it orders oldest first for asc and newest first
    for desc, and rows with the same createdAt keep their input order. *)
Theorem sortRecords_createdAt localeCompare records field direction :
  sortRecords localeCompare records field direction ≡ₚ records /\
  (direction = Asc ->
   Sorted (fun a b => createdAt a <= createdAt b)
          (sortRecords localeCompare records SortCreatedAt direction)) /\
  (direction = Desc ->
   Sorted (fun a b => createdAt b <= createdAt a)
          (sortRecords localeCompare records SortCreatedAt direction)) /\
  (forall t, List.filter (fun r => createdAt r =? t)
               (sortRecords localeCompare records SortCreatedAt direction) =
             List.filter (fun r => createdAt r =? t) records).
Proof.
  unfold sortRecords. split; [apply sort_by_perm|].
  assert (Hd : sort_by (compareRecords localeCompare SortCreatedAt direction) records =
               sort_by (fun a b => (match direction with Asc => createdAt | Desc => fun r => - createdAt r end) a
                                 - (match direction with Asc => createdAt | Desc => fun r => - createdAt r end) b) records).
  { apply sort_by_ext. intros a b. destruct direction; simpl; lia. }
  rewrite Hd. split; [|split].
  - intros ->. apply (sort_by_key createdAt).
  - intros ->.
    apply (Sorted_mono (fun a b => - createdAt a <= - createdAt b)); [intros; lia|].
    apply (sort_by_key (fun r => - createdAt r)).
  - intros t. destruct direction.
    + apply (sort_by_filter createdAt).
    + rewrite !(List.filter_ext (fun r => createdAt r =? t) (fun r => - createdAt r =? - t)).
      * apply (sort_by_filter (fun r => - createdAt r)).
      * intros r. apply Bool.eq_iff_eq_true. rewrite !Z.eqb_eq. lia.
      * intros r. apply Bool.eq_iff_eq_true. rewrite !Z.eqb_eq. lia.
Qed.

(** The object store [domains] of services/storage.ts, created with
    [keyPath: "id"]: records by their [id]. *)

Lemma fold_insert_is_Some (L : list (string * nat)) (m : gmap string nat) k v :
  (k, v) ∈ L \/ is_Some (m !! k) ->
  is_Some (fold_left (fun m '(k, i) => <[k := i]> m) L m !! k).
Proof.
  revert m; induction L as [|[k' i] L IH]; intros m H; simpl.
  - destruct H as [H|H]; [by apply elem_of_nil in H|done].
  - apply IH. destruct H as [H|H].
    + apply elem_of_cons in H as [H|H]; [|by left].
      injection H as -> ->. right. rewrite lookup_insert_eq. eauto.
    + right. destruct (decide (k = k')) as [->|Hne].
      * rewrite lookup_insert_eq. eauto.
      * by rewrite lookup_insert_ne by congruence.
Qed.

Lemma loadRecords_find s items k x :
  NoDup (map id items) ->
  find_rec (loadRecords s items) k = Some x <-> x ∈ items /\ id x = k.
Proof.
  intros Hnd. destruct (loadRecords_ok s items) as [Hok _]. split.
  - intros H. pose proof (find_rec_in _ _ _ Hok H) as [Hx Hk]. done.
  - intros [Hx <-]. apply list_elem_of_lookup_1 in Hx as Hi. destruct Hi as [i Hi].
    assert (Hs : is_Some (build_index items !! id x)).
    { apply (fold_insert_is_Some _ _ _ i). left.
      apply (elem_of_lookup_imap_2 (fun i x => (id x, i)) items x i Hi). }
    destruct Hs as [p Hp]. unfold find_rec. simpl. rewrite Hp.
    destruct (Hok (id x) p) as (r & Hr & Hid); [exact Hp|]. simpl in Hr. rewrite Hr.
    f_equal. apply (NoDup_map_id_inj items); [done| |done|done].
    by eapply list_elem_of_lookup_2.
Qed.

Lemma map_fmap_eq {A B} (f : A -> B) (l : list A) : map f l = f <$> l.
Proof. induction l as [|x l IH]; simpl; [done|]. by rewrite IH. Qed.

Lemma getAll_NoDup (db : Store) items :
  store_keyed db -> items ≡ₚ map snd (map_to_list db) -> NoDup (map id items).
Proof.
  intros Hdb Hp.
  assert (Hm : map id items ≡ₚ map id (map snd (map_to_list db))) by by apply Permutation_map.
  rewrite Hm, map_map.
  assert (E : map (fun p => id p.2) (map_to_list db) = map fst (map_to_list db)).
  { apply map_ext_in. intros [k r] Hin. simpl.
    apply Hdb. apply (elem_of_map_to_list db k r). by apply list_elem_of_In. }
  rewrite E, map_fmap_eq. apply NoDup_fst_map_to_list.
Qed.

Lemma load_find_store (db : Store) items k :
  store_keyed db -> items ≡ₚ map snd (map_to_list db) ->
  find_rec (loadRecords initRefs items) k = db !! k.
Proof.
  intros Hdb Hp. pose proof (getAll_NoDup db items Hdb Hp) as Hnd.
  assert (Hin : forall x, x ∈ items /\ id x = k <-> db !! k = Some x).
  { intros x. rewrite Hp, map_fmap_eq, list_elem_of_fmap. split.
    - intros [([k' r] & -> & Hin) <-]. simpl.
      apply elem_of_map_to_list in Hin as Hl. by rewrite (Hdb _ _ Hl).
    - intros Hk. split; [|by apply Hdb].
      exists (k, x). split; [done|]. by apply elem_of_map_to_list. }
  destruct (db !! k) as [x|] eqn:E.
  - apply (loadRecords_find _ _ _ _ Hnd). by apply Hin.
  - destruct (find_rec (loadRecords initRefs items) k) as [y|] eqn:Ey; [|done].
    apply (loadRecords_find _ _ _ _ Hnd), Hin in Ey. congruence.
Qed.

Lemma upsertRecords_find_store s (db : Store) us :
  index_ok s -> (forall k, find_rec s k = db !! k) ->
  forall k, find_rec (upsertRecords s us) k = putRecords db us !! k.
Proof.
  assert (Hp : putRecords db us = fold_left (fun db record => <[id record := record]> db) us db)
    by (destruct us; reflexivity).
  rewrite Hp. unfold upsertRecords. clear Hp.
  revert s db; induction us as [|u us IH]; intros s db Hok Hdb k; simpl; [done|].
  apply IH; [by apply upsertOne_index_ok|]. intros k'.
  rewrite upsertOne_find by done. case_decide as E.
  - subst k'. by rewrite lookup_insert_eq.
  - rewrite lookup_insert_ne by congruence. apply Hdb.
Qed.

Lemma execOp_index_ok s op : index_ok s -> index_ok (execOp s op).
Proof.
  intros Hok. destruct op as [us| |items|c]; simpl.
  - unfold upsertRecords. revert s Hok; induction us as [|u us IH]; intros s Hok; simpl; [done|].
    by apply IH, upsertOne_index_ok.
  - intros ?? H; simpl in H; rewrite lookup_empty in H; done.
  - apply loadRecords_ok.
  - destruct (popCandidate_store c s) as (H1 & H2 & _). unfold index_ok. by rewrite H1, H2.
Qed.

Lemma execOps_find_store ops s (db : Store) :
  Forall (fun op => is_load op = false) ops ->
  index_ok s -> (forall k, find_rec s k = db !! k) ->
  forall k, find_rec (execOps s ops) k = fold_left storeOp ops db !! k.
Proof.
  unfold execOps. revert s db; induction ops as [|op ops IH]; intros s db Hl Hok Hdb; simpl; [done|].
  inversion Hl as [|? ? Hop Hl']; subst.
  apply IH; [done| |].
  - by apply execOp_index_ok.
  - intros k. destruct op as [us| |items|c]; simpl in *.
    + by apply upsertRecords_find_store.
    + unfold find_rec. simpl. rewrite !lookup_empty. done.
    + done.
    + destruct (popCandidate_store c s) as (H1 & H2 & _).
      rewrite (find_rec_same _ _ k H1 H2). apply Hdb.
Qed.

(** X17. After the mount-time load of the store's records, applying the
    hook's store writes in the order it issues them keeps the in-memory
    index lookup equal to the IndexedDB store lookup for every id, through
    upserts, clears and dequeues. *)
Theorem store_sync (db : Store) items ops :
  store_keyed db ->
  items ≡ₚ map snd (map_to_list db) ->
  Forall (fun op => is_load op = false) ops ->
  forall k, find_rec (execOps (loadRecords initRefs items) ops) k = fold_left storeOp ops db !! k.
Proof.
  intros Hdb Hp Hl. apply execOps_find_store; [done| |].
  - apply loadRecords_ok.
  - intros k. by apply load_find_store.
Qed.

Lemma pagedRecords_window_witness :
  seq 0 45 <> [] /\ pagedRecords (seq 0 45) (pageAfter page_acts) <> [] /\
  pagedRecords (seq 0 45) (pageAfter page_acts) = [40; 41; 42; 43; 44]%nat.
Proof.
  split; [discriminate|]. split; [|vm_compute; reflexivity].
  destruct (pagedRecords_window (seq 0 45) page_acts ltac:(discriminate)) as [H _]. exact H.
Defined.

Lemma sortRecords_createdAt_witness :
  Desc = Desc /\
  Sorted (fun a b => createdAt b <= createdAt a)
    (sortRecords (fun _ _ => 0) sort_input SortCreatedAt Desc) /\
  map id (sortRecords (fun _ _ => 0) sort_input SortCreatedAt Desc) = ["x"; "z"; "y"].
Proof.
  split; [reflexivity|]. split; [|vm_compute; reflexivity].
  destruct (sortRecords_createdAt (fun _ _ => 0) sort_input SortCreatedAt Desc) as (_ & _ & H & _).
  exact (H eq_refl).
Defined.

Lemma store_sync_witness :
  store_keyed sync_db /\ [sample "a" Taken NotChecked] ≡ₚ map snd (map_to_list sync_db) /\
  Forall (fun op => is_load op = false) sync_ops /\
  find_rec (execOps (loadRecords initRefs [sample "a" Taken NotChecked]) sync_ops) "c" =
  fold_left storeOp sync_ops sync_db !! "c".
Proof.
  assert (Hk : store_keyed sync_db).
  { intros k r H. unfold sync_db in H. apply lookup_singleton_Some in H as [<- <-]. reflexivity. }
  assert (Hp : [sample "a" Taken NotChecked] ≡ₚ map snd (map_to_list sync_db)).
  { unfold sync_db. rewrite map_to_list_singleton. reflexivity. }
  assert (Hl : Forall (fun op => is_load op = false) sync_ops) by repeat constructor.
  split; [done|]. split; [done|]. split; [done|].
  apply (store_sync sync_db [sample "a" Taken NotChecked] sync_ops Hk Hp Hl "c").
Defined.
